(** * stdlib-extensions: collections, subscription and code generation

    A shallow embedding of three parts of the package and the proofs of
    their documented behaviour:

    - [Collections]: [collections/_collections.py], the composed mapping
      classes and [IdentifierDict];
    - [Subscription]: [ext/subscription.py], the [Subscribable] mixin;
    - [Shared]: [_shared.py], the [create_function] helper.

    A Python [str] whose characters matter (the keys of an
    [IdentifierDict]) is a sequence of Unicode code points; the [str]
    methods the package calls on it are written out on the ASCII range
    and take the interpreter's Unicode character database as a
    parameter beyond it.  A [str] that is only compared (a field name,
    an attribute name) is a [string].  A built-in [dict] whose
    iteration order is not observed is a [gmap]. *)

From Stdlib Require Import Ascii ZArith.
From stdpp Require Import gmap strings list.

(** ** Python [str] methods used by the package *)
Module Str.

(** A [str]: its code points. *)
Definition str : Type := list N.

(** [ord(c)] of an ASCII character, and the [str] of an ASCII literal. *)
Definition ord (c : ascii) : N := N_of_ascii c.
Definition of_ascii (s : string) : str := ord <$> String.list_ascii_of_string s.

(** The Unicode character database of the interpreter, consulted for
    the code points from 128 on: whether a character is a letter
    ([str.isalpha]), whether it may start or continue an identifier
    (the properties [XID_Start] and [XID_Continue] that
    [str.isidentifier] tests), its full case folding ([str.casefold])
    and its full uppercase mapping ([str.upper]). *)
Class unicode := Unicode {
  alphabetic : N -> bool;
  xid_start : N -> bool;
  xid_continue : N -> bool;
  case_folding : N -> str;
  uppercase : N -> str
}.

Definition isascii_char (c : N) : bool := bool_decide (c < 128)%N.

(** [str.isspace] of a single character, which is also what
    [str.strip] and [str.split] take for whitespace: TAB, LF, VT, FF,
    CR, the separators FS, GS, RS, US, the space, and beyond ASCII
    NEL (U+0085), NO-BREAK SPACE (U+00A0), U+1680, U+2000 to U+200A,
    U+2028, U+2029, U+202F, U+205F and U+3000. *)
Definition isspace_char (c : N) : bool :=
  bool_decide (9 ≤ c ≤ 13 ∨ 28 ≤ c ≤ 32 ∨ c = 133 ∨ c = 160 ∨ c = 5760 ∨
               8192 ≤ c ≤ 8202 ∨ c = 8232 ∨ c = 8233 ∨ c = 8239 ∨ c = 8287 ∨
               c = 12288)%N.

(** The letters [A] to [Z], the letters [a] to [z] and the digits. *)
Definition isupper_ascii (c : N) : bool := bool_decide (65 ≤ c ≤ 90)%N.
Definition islower_ascii (c : N) : bool := bool_decide (97 ≤ c ≤ 122)%N.
Definition isdigit_ascii (c : N) : bool := bool_decide (48 ≤ c ≤ 57)%N.

Definition lower_ascii (c : N) : N := if isupper_ascii c then (c + 32)%N else c.
Definition upper_ascii (c : N) : N := if islower_ascii c then (c - 32)%N else c.

Section Methods.
Context {U : unicode}.

Definition isalpha_char (c : N) : bool :=
  if isascii_char c then isupper_ascii c || islower_ascii c else alphabetic c.

(** The case folding and the uppercase form of one character; beyond
    ASCII either may be several characters long. *)
Definition casefold_char (c : N) : str :=
  if isascii_char c then [lower_ascii c] else case_folding c.
Definition upper_char (c : N) : str :=
  if isascii_char c then [upper_ascii c] else uppercase c.

(** [s.casefold()] and [s.upper()] map the string character by
    character. *)
Definition casefold (s : str) : str := s ≫= casefold_char.
Definition upper (s : str) : str := s ≫= upper_char.

(** [s.isalpha()]: non-empty and every character a letter. *)
Definition isalpha (s : str) : bool :=
  match s with
  | [] => false
  | _ => forallb isalpha_char s
  end.

Definition isidentifier_start (c : N) : bool :=
  if isascii_char c
  then isupper_ascii c || islower_ascii c || bool_decide (c = ord "_")
  else xid_start c.
Definition isidentifier_continue (c : N) : bool :=
  if isascii_char c
  then isupper_ascii c || islower_ascii c || isdigit_ascii c || bool_decide (c = ord "_")
  else xid_continue c.

(** [s.isidentifier()] *)
Definition isidentifier (s : str) : bool :=
  match s with
  | [] => false
  | c :: s' => isidentifier_start c && forallb isidentifier_continue s'
  end.

End Methods.

(** Facts of Unicode case folding that some of the proofs assume of
    the database: the case folding of a character that is not
    whitespace contains no whitespace; no case folding contains one of
    the letters [A] to [Z]; every character of a case folding is its
    own case folding. *)
Definition casefold_no_whitespace {U : unicode} : Prop :=
  forall c, isspace_char c = false ->
    Forall (fun x => isspace_char x = false) (casefold_char c).
Definition casefold_no_capitals {U : unicode} : Prop :=
  forall c, Forall (fun x => isupper_ascii x = false) (casefold_char c).
Definition casefold_folded {U : unicode} : Prop :=
  forall c, Forall (fun x => casefold_char x = [x]) (casefold_char c).

(** [s.replace(old, new)] for one-character [old] and [new]. *)
Definition replace (old new : N) (s : str) : str :=
  (fun c => if decide (c = old) then new else c) <$> s.

Fixpoint lstrip (s : str) : str :=
  match s with
  | [] => []
  | c :: s' => if isspace_char c then lstrip s' else s
  end.

Fixpoint rstrip (s : str) : str :=
  match s with
  | [] => []
  | c :: s' =>
      match rstrip s' with
      | [] => if isspace_char c then [] else [c]
      | r => c :: r
      end
  end.

(** [s.strip()] *)
Definition strip (s : str) : str := rstrip (lstrip s).

(** Does [s] begin with a non-whitespace character? *)
Definition starts_word (s : str) : bool :=
  match s with
  | [] => false
  | c :: _ => negb (isspace_char c)
  end.

(** [s.split()]: the maximal runs of non-whitespace characters. *)
Fixpoint split (s : str) : list str :=
  match s with
  | [] => []
  | c :: rest =>
      let words := split rest in
      if isspace_char c then words
      else if starts_word rest then
        match words with
        | w :: ws => (c :: w) :: ws
        | [] => [[c]]
        end
      else [c] :: words
  end.

(** [sep.join(words)] *)
Fixpoint join (sep : str) (words : list str) : str :=
  match words with
  | [] => []
  | [w] => w
  | w :: ws => w ++ sep ++ join sep ws
  end.

(** [s[0]], [None] standing for [IndexError]. *)
Definition first (s : str) : option str :=
  match s with
  | [] => None
  | c :: _ => Some [c]
  end.

End Str.

(** ** A built-in [dict] whose iteration order is observed

    The items in insertion order; assigning to a stored key keeps its
    place, assigning to a new key appends it. *)
Module Dict.
Section Dict.
Context {K : Type} `{EqDecision K} {V : Type}.

Fixpoint getitem (d : list (K * V)) (key : K) : option V :=
  match d with
  | [] => None
  | (k, v) :: d' => if decide (k = key) then Some v else getitem d' key
  end.

Fixpoint setitem (d : list (K * V)) (key : K) (value : V)
  : list (K * V) :=
  match d with
  | [] => [(key, value)]
  | (k, v) :: d' =>
      if decide (k = key) then (k, value) :: d'
      else (k, v) :: setitem d' key value
  end.

(** [dict(items)] for an iterable of pairs. *)
Definition from_items (items : list (K * V)) : list (K * V) :=
  foldl (fun d kv => setitem d kv.1 kv.2) [] items.

Definition keys (d : list (K * V)) : list K := d.*1.
End Dict.
End Dict.

(** ** [collections/_collections.py] *)
Module Collections.
Import Str.

(** The exceptions the composed mappings raise.  [ValueError None] is the
    bare [raise ValueError]; [ValueError (Some key)] carries the key the
    message ["... cannot be formatted into a valid Python identifier"]
    is about. *)
Inductive exn :=
| ValueError (about : option str)
| KeyError (key : str)
| IndexError.

Inductive result (A : Type) : Type :=
| Return (a : A)
| Raise (e : exn).
Arguments Return {A} a.
Arguments Raise {A} e.

Definition is_ValueError (e : exn) : bool :=
  match e with ValueError _ => true | _ => false end.

Definition raises_ValueError {A} (r : result A) : Prop :=
  match r with Raise e => is_ValueError e = true | Return _ => False end.

Definition raises {A} (r : result A) : Prop :=
  match r with Raise _ => True | Return _ => False end.

(** [ComposedCollection]: the two format hooks a subclass may override. *)
Class ComposedCollection (V : Type) := {
  _format_key : str -> result str;
  _format_value : V -> result V
}.

(** The hooks of the base class are no-ops. *)
Definition base_hooks (V : Type) : ComposedCollection V :=
  {| _format_key := fun key => Return key;
     _format_value := fun value => Return value |}.

(** [AbstractComposition]: an instance wraps the object found on its
    [_object_value_] attribute, here a built-in [dict] with [str] keys. *)
Record composed (V : Type) := Composed { _object_value_ : gmap str V }.
Arguments Composed {V} _.
Arguments _object_value_ {V} _.

Section ComposedDict.
Context {V : Type} {hooks : ComposedCollection V}.

(** [ComposedCollection.__contains__] *)
Definition __contains__ (self : composed V) (value : str) : bool :=
  bool_decide (is_Some (_object_value_ self !! value)).

Definition __len__ (self : composed V) : nat := size (_object_value_ self).

(** [except KeyError: raise KeyError(key) from None] *)
Definition use_original_key {A} (key : str) (r : result A) : result A :=
  match r with
  | Raise (KeyError _) => Raise (KeyError key)
  | _ => r
  end.

(** [KeyItemGet.__getitem__] *)
Definition __getitem__ (self : composed V) (key : str) : result V :=
  use_original_key key
    match _format_key key with
    | Raise e => Raise e
    | Return k =>
        match _object_value_ self !! k with
        | Some v => Return v
        | None => Raise (KeyError k)
        end
    end.

(** [KeyItemGet.get]; [None] is the default when none is given. *)
Definition get (self : composed V) (key : str) (default : option V)
  : result (option V) :=
  match _format_key key with
  | Raise e => Raise e
  | Return k =>
      match _object_value_ self !! k with
      | Some v => Return (Some v)
      | None => Return default
      end
  end.

(** [KeyItemSet.__setitem__]: the assigned value is evaluated before
    the subscript. *)
Definition __setitem__ (self : composed V) (key : str) (value : V)
  : result (composed V) :=
  match _format_value value with
  | Raise e => Raise e
  | Return v =>
      match _format_key key with
      | Raise e => Raise e
      | Return k => Return (Composed (<[k := v]> (_object_value_ self)))
      end
  end.

(** [dict(m, **kwargs)]: a new dictionary of the items of [m], then
    of the keyword arguments.  An item whose key came before takes the
    place of the earlier one and brings its own value. *)
Definition dict (m kwargs : list (str * V)) : list (str * V) :=
  foldl (fun d kv => Dict.setitem d kv.1 kv.2) (Dict.from_items m) kwargs.

(** [self._object_value_.update((fmt_key(k), fmt_val(v)) for k, v in
    m.items())]: [dict.update] takes the pairs from the generator and
    stores them one by one; an exception raised by a hook ends it and
    leaves the earlier items stored. *)
Fixpoint update_from (self : composed V) (items : list (str * V))
  : composed V * result unit :=
  match items with
  | [] => (self, Return tt)
  | (k, v) :: items' =>
      match _format_key k with
      | Raise e => (self, Raise e)
      | Return k' =>
          match _format_value v with
          | Raise e => (self, Raise e)
          | Return v' =>
              update_from (Composed (<[k' := v']> (_object_value_ self))) items'
          end
      end
  end.

(** [KeyItemSet.update]: [m] is [None], or the items of a mapping or
    of an iterable of pairs; [kwargs] is the dictionary of the keyword
    arguments. *)
Definition update (self : composed V) (m : option (list (str * V)))
    (kwargs : list (str * V)) : composed V * result unit :=
  let m := match m with
           | None => kwargs
           | Some m => dict m kwargs
           end in
  update_from self m.

(** [KeyItemDel.__delitem__] *)
Definition __delitem__ (self : composed V) (key : str)
  : result (composed V) :=
  use_original_key key
    match _format_key key with
    | Raise e => Raise e
    | Return k =>
        match _object_value_ self !! k with
        | Some _ => Return (Composed (delete k (_object_value_ self)))
        | None => Raise (KeyError k)
        end
    end.

(** [KeyItemDel.clear] *)
Definition clear (self : composed V) : composed V := Composed ∅.

(** [KeyItemDel.pop], with the optional default. *)
Definition pop (self : composed V) (key : str) (default : option V)
  : result (V * composed V) :=
  match _format_key key with
  | Raise e => Raise e
  | Return k =>
      match _object_value_ self !! k, default with
      | Some v, _ => Return (v, Composed (delete k (_object_value_ self)))
      | None, Some d => Return (d, self)
      | None, None => Raise (KeyError k)
      end
  end.

End ComposedDict.

(** *** [IdentifierDict] *)
Module IdentifierDict.
Section IdentifierDict.
Context {U : unicode}.

(** [IdentifierDict._format_key] *)
Definition _format_key (key : str) : result str :=
  let k := Str.replace (ord " ") (ord "_")
             (Str.casefold (Str.join (of_ascii " ") (Str.split (Str.strip key)))) in
  let attempt :=
    match Str.first k with
    | None => Raise IndexError
    | Some k0 =>
        let k := if negb (Str.isalpha k0) then of_ascii "_" ++ k else k in
        if negb (Str.isidentifier k) then Raise (ValueError None)
        else Return k
    end in
  match attempt with
  | Raise IndexError | Raise (ValueError _) => Raise (ValueError (Some key))
  | _ => attempt
  end.

(** [IdentifierDict] overrides the key hook only. *)
#[export] Instance hooks {V : Type} : ComposedCollection V :=
  {| Collections._format_key := _format_key;
     Collections._format_value := fun value => Return value |}.

(** [IdentifierDict.__init__] *)
Definition __init__ {V : Type} (m : option (list (str * V))) (kwargs : list (str * V))
  : composed V * result unit :=
  update (Composed ∅) m kwargs.

(** The normalisation in the words of the documentation, for
    comparison with [_format_key]: strip the key, collapse every
    internal run of whitespace to a single underscore, casefold, and
    prepend an underscore when the first character is not alphabetic. *)
Definition starts_space (s : str) : bool :=
  match s with
  | [] => false
  | c :: _ => Str.isspace_char c
  end.

Fixpoint collapse_whitespace (s : str) : str :=
  match s with
  | [] => []
  | c :: rest =>
      if Str.isspace_char c then
        if starts_space rest then collapse_whitespace rest
        else ord "_" :: collapse_whitespace rest
      else c :: collapse_whitespace rest
  end.

Definition normalized_spec (key : str) : str :=
  let k := Str.casefold (collapse_whitespace (Str.strip key)) in
  match k with
  | [] => []
  | c :: _ => if Str.isalpha_char c then k else ord "_" :: k
  end.

(** The vocabulary of the proofs: a string without whitespace and a
    string without the letters [A] to [Z]; what [_format_key] does
    with the key it has computed; a dictionary whose every key is a
    formatted key. *)
Definition nonspace (s : str) : Prop := Forall (fun c => Str.isspace_char c = false) s.

Definition no_capitals (s : str) : Prop := Forall (fun c => Str.isupper_ascii c = false) s.

Definition accept (key k : str) : result str :=
  match k with
  | [] => Raise (ValueError (Some key))
  | c :: _ =>
      let k' := if Str.isalpha_char c then k else ord "_" :: k in
      if Str.isidentifier k' then Return k' else Raise (ValueError (Some key))
  end.

Definition keys_formatted {V} (d : composed V) : Prop :=
  forall k, is_Some (_object_value_ d !! k) -> exists key, _format_key key = Return k.

(** The dictionaries a program can build: the constructor followed by
    any sequence of mutating calls, whether they return or raise.
    [popitem] removes one stored item. *)
Inductive built {V : Type} : composed V -> Prop :=
| built_init m kwargs : built (__init__ m kwargs).1
| built_setitem d key value d' :
    built d -> __setitem__ d key value = Return d' -> built d'
| built_update d m kwargs : built d -> built (update d m kwargs).1
| built_delitem d key d' :
    built d -> __delitem__ d key = Return d' -> built d'
| built_pop d key default v d' :
    built d -> pop d key default = Return (v, d') -> built d'
| built_popitem d key :
    built d -> is_Some (_object_value_ d !! key) ->
    built (Composed (delete key (_object_value_ d)))
| built_clear d : built d -> built (clear d).

End IdentifierDict.

(** Two keys that differ only in the case of the letters [A] to [Z]. *)
Definition same_char_up_to_case (a b : N) : Prop :=
  a = b \/ Str.upper_ascii a = b \/ Str.lower_ascii a = b.

Definition same_up_to_case : str -> str -> Prop := Forall2 same_char_up_to_case.

End IdentifierDict.

End Collections.

(** ** A part of the Unicode character database

    The entries of the Latin-1 Supplement (U+0080 to U+00FF) and of
    LATIN SMALL LETTER DOTLESS I (U+0131, 305), LATIN CAPITAL LETTER Y
    WITH DIAERESIS (U+0178, 376), GREEK CAPITAL LETTER MU (U+039C,
    924), GREEK SMALL LETTER MU (U+03BC, 956) and DOUBLE-STRUCK
    CAPITAL N (U+2115, 8469), for the worked cases; the other code
    points beyond ASCII are left unassigned. *)
Module Latin.
Import Str.

Definition letter (c : N) : bool :=
  bool_decide (c = 170 ∨ c = 181 ∨ c = 186 ∨ 192 ≤ c ≤ 214 ∨ 216 ≤ c ≤ 246 ∨
               248 ≤ c ≤ 255 ∨ c = 305 ∨ c = 376 ∨ c = 924 ∨ c = 956 ∨ c = 8469)%N.

(** MIDDLE DOT (U+00B7, 183) may continue an identifier. *)
Definition letter_or_middle_dot (c : N) : bool := letter c || bool_decide (c = 183)%N.

Definition folding (c : N) : str :=
  (if decide (c = 181) then [956]
  else if bool_decide (192 ≤ c ≤ 214 ∨ 216 ≤ c ≤ 222) then [c + 32]
  else if decide (c = 223) then of_ascii "ss"
  else if decide (c = 376) then [255]
  else if decide (c = 924) then [956]
  else [c])%N.

Definition capitals (c : N) : str :=
  (if decide (c = 181) then [924]
  else if decide (c = 223) then of_ascii "SS"
  else if bool_decide (224 ≤ c ≤ 246 ∨ 248 ≤ c ≤ 254) then [c - 32]
  else if decide (c = 255) then [376]
  else if decide (c = 305) then of_ascii "I"
  else if decide (c = 956) then [924]
  else [c])%N.

#[export] Instance tables : unicode :=
  {| alphabetic := letter;
     xid_start := letter;
     xid_continue := letter_or_middle_dot;
     case_folding := folding;
     uppercase := capitals |}.

Definition E_acute : str := [201%N].
Definition e_acute : str := [233%N].
Definition sharp_s : str := [223%N].
Definition dotless_i : str := [305%N].
Definition double_struck_N : str := [8469%N].

End Latin.

(** ** [ext/subscription.py] *)
Module Subscription.

(** [EventFlag]; [ON_POST_CALL] is an alias of [ON_CALL], and iterating
    the enumeration yields its four canonical members. *)
Definition ON_SET : Z := 4.
Definition ON_DEL : Z := 8.
Definition ON_CALL : Z := 16.
Definition ON_PRE_CALL : Z := 32.
Definition ON_POST_CALL : Z := ON_CALL.
Definition EventFlag : list Z := [ON_SET; ON_DEL; ON_CALL; ON_PRE_CALL].

(** The truth of [flags & flag]. *)
Definition has_flag (flags flag : Z) : bool := negb (Z.land flags flag =? 0)%Z.

(** A callback is a callable object; only its identity matters to the
    registry, which compares callbacks with [==]. *)
Definition callback := nat.

Inductive exn :=
| ValueError (field : string) (flag : Z)   (* _unsupported_subscription_err *)
| MissingAccessor (name : string) (flag : Z) (* the ValueError of __set_name__ *)
| KeyError (key : string)
| AttributeError (name : string)
| Exception (tag : nat).                   (* raised by user code *)

Section Subscribable.
Context {value : Type}.

(** The [__cache__] mapping of an instance: the three entries of the
    framework (the lock with its state, the callback registry, the
    mute flag) and the values of the subscribable fields.  Field names
    are taken to differ from the three framework keys. *)
Record cache := Cache {
  cache_mutex : option bool;
  cache_events : option (gmap (string * Z) (list callback));
  cache_is_muted : option bool;
  cache_fields : gmap string value
}.

Definition set_mutex (m : option bool) (c : cache) : cache :=
  Cache m (cache_events c) (cache_is_muted c) (cache_fields c).
Definition set_events (r : option (gmap (string * Z) (list callback))) (c : cache) : cache :=
  Cache (cache_mutex c) r (cache_is_muted c) (cache_fields c).
Definition set_is_muted (m : option bool) (c : cache) : cache :=
  Cache (cache_mutex c) (cache_events c) m (cache_fields c).
Definition set_fields (f : gmap string value) (c : cache) : cache :=
  Cache (cache_mutex c) (cache_events c) (cache_is_muted c) f.

(** [self.__cache__ = {}] *)
Definition empty_cache : cache := Cache None None None ∅.

Definition registry_of (c : cache) : gmap (string * Z) (list callback) :=
  default ∅ (cache_events c).
Definition set_queue (key : string * Z) (queue : list callback) (c : cache) : cache :=
  set_events (Some (<[key := queue]> (registry_of c))) c.

(** What a run does that an observer can see: the lock being created,
    taken and released, the registry and its queues being created,
    and a callback being called with the instance (its cache at that
    moment), the field name and the event flags. *)
Inductive event :=
| NewLock
| Acquire
| Release
| NewRegistry
| NewQueue (field : string) (flag : Z)
| Call (cb : callback) (self : cache) (field : string) (event_flags : Z).

Record outcome (A : Type) := Outcome {
  trace : list event;
  result : A + exn;
  final : cache
}.
Arguments Outcome {A} _ _ _.
Arguments trace {A} _.
Arguments result {A} _.
Arguments final {A} _.

(** A method: from the cache to what it did, what it returned or
    raised, and the cache it left; [None] when it does not return
    (it waits for a held lock, or the fuel ran out). *)
Definition M (A : Type) : Type := cache -> option (outcome A).

#[export] Instance M_ret : MRet M := fun A a c => Some (Outcome [] (inl a) c).
#[export] Instance M_bind : MBind M := fun A B f m c =>
  match m c with
  | None => None
  | Some (Outcome t (inr e) c') => Some (Outcome t (inr e) c')
  | Some (Outcome t (inl a) c') =>
      match f a c' with
      | None => None
      | Some (Outcome t' r c'') => Some (Outcome (t ++ t') r c'')
      end
  end.

Definition raise {A} (e : exn) : M A := fun c => Some (Outcome [] (inr e) c).
Definition emit (ev : event) : M unit := fun c => Some (Outcome [ev] (inl tt) c).
Definition read : M cache := fun c => Some (Outcome [] (inl c) c).
Definition write (f : cache -> cache) : M unit := fun c => Some (Outcome [] (inl tt) (f c)).

(** [try: body finally: cleanup] *)
Definition try_finally {A} (body : M A) (cleanup : M unit) : M A := fun c =>
  match body c with
  | None => None
  | Some (Outcome t r c') =>
      match cleanup c' with
      | None => None
      | Some (Outcome t' (inl _) c'') => Some (Outcome (t ++ t') r c'')
      | Some (Outcome t' (inr e) c'') => Some (Outcome (t ++ t') (inr e) c'')
      end
  end.

(** [for x in xs: body(x)] over a sequence that the body leaves alone. *)
Fixpoint for_each {A} (xs : list A) (body : A -> M unit) : M unit :=
  match xs with
  | [] => mret tt
  | x :: xs' => body x;; for_each xs' body
  end.

(** The class and its surroundings: the items of the class's
    [__event_fields__] mapping (field name and supported flags); what
    calling a callback does (what it returns or raises and the cache
    it leaves, [None] if it does not return), a callback acting on
    the registry and its queues in place; and the number of steps one
    traversal of a queue may take. *)
Context (__event_fields__ : list (string * Z)).
Context (call : callback -> cache -> string -> Z -> option ((unit + exn) * cache)).
Context (fuel : nat).

(** [Subscribable.__mutex__]: the lock of the instance, created on
    first use. *)
Definition __mutex__ : M unit :=
  c ← read;
  match cache_mutex c with
  | Some _ => mret tt
  | None => write (set_mutex (Some false));; emit NewLock
  end.

(** [threading.Lock]: acquiring a held lock waits. *)
Definition acquire : M unit := fun c =>
  match cache_mutex c with
  | Some true => None
  | _ => Some (Outcome [Acquire] (inl tt) (set_mutex (Some true) c))
  end.
Definition release : M unit :=
  write (set_mutex (Some false));; emit Release.

(** [with mutex: body] *)
Definition with_mutex {A} (body : M A) : M A :=
  acquire;; try_finally body release.

(** [cache[field, flag] = []] for the flags of one field. *)
Definition new_queues (item : string * Z) : M unit :=
  let '(field, flags) := item in
  for_each EventFlag (fun flag =>
    if has_flag flags flag
    then write (set_queue (field, flag) []);; emit (NewQueue field flag)
    else mret tt).

(** The body of the [with] statement of [__events__]. *)
Definition new_registry : M unit :=
  write (set_events (Some ∅));; emit NewRegistry;;
  for_each __event_fields__ new_queues.

(** [Subscribable.__events__]: the callback registry, built on first
    use. *)
Definition __events__ : M (gmap (string * Z) (list callback)) :=
  c ← read;
  match cache_events c with
  | Some registry => mret registry
  | None =>
      __mutex__;;
      with_mutex new_registry;;
      c ← read; mret (registry_of c)
  end.

Definition __EVENT_FLAGS : list Z := EventFlag.

(** [Subscribable._iter_queue_keys] *)
Definition _iter_queue_keys (field : string) (event_flags : Z) : list (string * Z) :=
  (fun flag => (field, flag)) <$> filter (fun flag => has_flag event_flags flag = true) __EVENT_FLAGS.

(** [Subscribable.is_muted] *)
Definition is_muted : M bool :=
  c ← read;
  match cache_is_muted c with
  | Some muted => mret muted
  | None => write (set_is_muted (Some false));; mret false
  end.

Definition mute : M unit := write (set_is_muted (Some true)).
Definition unmute : M unit := write (set_is_muted (Some false)).

(** [with self.suppressed(): body] *)
Definition suppressed {A} (body : M A) : M A :=
  c ← read;
  match cache_is_muted c with
  | None => raise (KeyError "_is_muted")
  | Some muted =>
      try_finally (write (set_is_muted (Some true));; body)
                  (write (set_is_muted (Some muted)))
  end.

(** [callback(self, field, event_flags)] *)
Definition invoke (cb : callback) (field : string) (event_flags : Z) : M unit := fun c =>
  match call cb c field event_flags with
  | None => None
  | Some (r, c') => Some (Outcome [Call cb c field event_flags] r c')
  end.

(** [for callback in queue: callback(self, field, event_flags)], the
    queue being the list object stored under [key]: the iterator reads
    it by index, so it sees what the callbacks do to it. *)
Fixpoint run_queue (n : nat) (key : string * Z) (i : nat)
    (field : string) (event_flags : Z) : M unit :=
  match n with
  | O => fun _ => None
  | S n' =>
      c ← read;
      match registry_of c !! key ≫= (.!! i) with
      | None => mret tt
      | Some cb =>
          invoke cb field event_flags;;
          run_queue n' key (S i) field event_flags
      end
  end.

(** The body of the loop of [_notify], for one flag. *)
Definition notify_flag (field : string) (event_flags : Z) (flag : Z) : M unit :=
  if has_flag event_flags flag then
    c ← read;
    match registry_of c !! (field, flag) with
    | None => raise (ValueError field flag)
    | Some _ => run_queue fuel (field, flag) 0 field event_flags
    end
  else mret tt.

(** [Subscribable._notify] *)
Definition _notify (field : string) (event_flags : Z) : M unit :=
  __events__;;
  for_each __EVENT_FLAGS (notify_flag field event_flags).

(** [Subscribable.notify] *)
Definition notify (field : string) (event_flags : Z) : M unit :=
  muted ← is_muted;
  if negb muted then _notify field event_flags else mret tt.

(** [Subscribable.notify_once] *)
Definition notify_once (field : string) (event_flags : Z) : M unit :=
  muted ← is_muted;
  if negb muted then suppressed (_notify field event_flags) else mret tt.

(** [list.remove]: drops the first occurrence, [None] for [ValueError]. *)
Fixpoint list_remove (cb : callback) (queue : list callback) : option (list callback) :=
  match queue with
  | [] => None
  | x :: queue' =>
      if decide (x = cb) then Some queue'
      else cons x <$> list_remove cb queue'
  end.

(** The body of the loop of [subscribe], for one queue key. *)
Definition subscribe_key (field : string) (cb : callback) (key : string * Z) : M unit :=
  c ← read;
  match registry_of c !! key with
  | None => raise (ValueError field key.2)
  | Some _ =>
      with_mutex (
        c ← read;
        let queue := default [] (registry_of c !! key) in
        if bool_decide (cb ∈ queue) then mret tt
        else write (set_queue key (queue ++ [cb])))
  end.

(** [Subscribable.subscribe] *)
Definition subscribe (field : string) (event_flags : Z) (cb : callback) : M callback :=
  __mutex__;;
  __events__;;
  for_each (_iter_queue_keys field event_flags) (subscribe_key field cb);;
  mret cb.

(** The body of the loop of [unsubscribe], for one queue key. *)
Definition unsubscribe_key (field : string) (cb : callback) (key : string * Z) : M unit :=
  c ← read;
  match registry_of c !! key with
  | None => raise (ValueError field key.2)
  | Some _ =>
      with_mutex (
        c ← read;
        let queue := default [] (registry_of c !! key) in
        match list_remove cb queue with
        | Some queue' => write (set_queue key queue')
        | None => mret tt
        end)
  end.

(** [Subscribable.unsubscribe] *)
Definition unsubscribe (field : string) (event_flags : Z) (cb : callback) : M unit :=
  __mutex__;;
  __events__;;
  for_each (_iter_queue_keys field event_flags) (unsubscribe_key field cb).

(** [with mutex: queue.clear()] *)
Definition clear_queue (key : string * Z) : M unit :=
  with_mutex (write (set_queue key [])).

(** The body of the second loop of [unsubscribe_all]. *)
Definition clear_selected (fields : list string) (event_flags : Z) (key : string * Z)
  : M unit :=
  if bool_decide (key.1 ∈ fields) then
    if (event_flags =? 0)%Z || has_flag event_flags key.2 then clear_queue key
    else mret tt
  else mret tt.

(** [Subscribable.unsubscribe_all]; the registry is walked in the
    order of its keys, which the result does not depend on. *)
Definition unsubscribe_all (field : option string) (event_flags : Z) : M unit :=
  __mutex__;;
  events ← __events__;
  if bool_decide (field = None) && (event_flags =? 0)%Z then
    for_each (map_to_list events).*1 clear_queue
  else
    let fields := match field with
                  | None => Dict.keys __event_fields__
                  | Some f => [f]
                  end in
    for_each (map_to_list events).*1 (clear_selected fields event_flags).

(** *** Subscribable fields *)

(** The accessors of a [property]; deleters are left out. *)
Record property := Property {
  fget : option (M value);
  fset : option (value -> M unit)
}.

Record _SubscribableField := SubscribableField {
  _fget : option (M value);
  _fset : option (value -> M unit);
  _fdel : option (M unit);
  _on_set : bool;
  _on_del : bool
}.

(** [subscribable_field], that is [_SubscribableField.__init__]: both
    switches omitted mean [on_set]; an omitted one is otherwise off. *)
Definition subscribable_field
    (fget : option (M value)) (fset : option (value -> M unit))
    (fdel : option (M unit)) (on_set on_del : option bool) : _SubscribableField :=
  match on_set, on_del with
  | None, None => SubscribableField fget fset fdel true false
  | _, _ =>
      SubscribableField fget fset fdel (default false on_set) (default false on_del)
  end.

(** The setter generated for a field without accessors:
    [self.__cache__[name] = value], then [self.notify(name, flag_set)]
    when [flag_set] is set. *)
Definition subscribable_field_fset (name : string) (flag_set : Z) (v : value) : M unit :=
  write (fun c => set_fields (<[name := v]> (cache_fields c)) c);;
  if negb (flag_set =? 0)%Z then notify name flag_set else mret tt.

(** The getter generated for a field without accessors. *)
Definition subscribable_field_fget (name : string) : M value :=
  c ← read;
  match cache_fields c !! name with
  | Some v => mret v
  | None => raise (AttributeError name)
  end.

(** The wrapper generated around a given setter:
    [_fn(self, value)], then [self.notify(name, flag_set)]. *)
Definition wrapped_fset (_fn : value -> M unit) (name : string) (flag_set : Z) (v : value)
  : M unit :=
  _fn v;; notify name flag_set.

(** What [__set_name__] does to the class. *)
Inductive set_name_effect :=
| Deleted                                    (* delattr(cls, name) *)
| Plain (prop : property)                    (* setattr(cls, name, property(...)) *)
| Registered (prop : property) (flags : Z)   (* _set_subscribable_member; setattr *)
| Raised (e : exn).

(** [_SubscribableField.__set_name__] *)
Definition __set_name__ (self : _SubscribableField) (name : string) : set_name_effect :=
  let flag_set := if negb (_on_set self) then 0%Z else ON_SET in
  let flag_del := if negb (_on_del self) then 0%Z else ON_DEL in
  let no_flags := (flag_set =? 0)%Z && (flag_del =? 0)%Z in
  match _fget self, _fset self, _fdel self with
  | None, None, None =>
      if no_flags then Deleted
      else Registered
             (Property (Some (subscribable_field_fget name))
                       (Some (subscribable_field_fset name flag_set)))
             (Z.lor flag_set flag_del)
  | fget, fset, fdel =>
      if no_flags then Plain (Property fget fset)
      else
        match (if negb (flag_set =? 0)%Z then
                 match fset with
                 | None => inr (MissingAccessor name flag_set)
                 | Some _fn => inl (Some (wrapped_fset _fn name flag_set))
                 end
               else inl fset) with
        | inr e => Raised e
        | inl fset =>
            match (flag_del =? 0)%Z, fdel with
            | false, None => Raised (MissingAccessor name flag_del)
            | _, _ => Registered (Property fget fset) (Z.lor flag_set flag_del)
            end
        end
  end.

(** [_set_subscribable_member] for a class whose bases declare no
    subscribable member: [event_fields[name] = flags]. *)
Definition _set_subscribable_member
    (event_fields : list (string * Z)) (name : string) (flags : Z) : list (string * Z) :=
  Dict.setitem event_fields name flags.

(** [self.name = v] through the property found on the class. *)
Definition setattr (prop : property) (name : string) (v : value) : M unit :=
  match fset prop with
  | Some f => f v
  | None => raise (AttributeError name)
  end.

(** *** Notions the statements about the class are made of *)

(** A run whose events happen after those of [t]. *)
Definition prepend {A} (t : list event) (o : option (outcome A)) : option (outcome A) :=
  (fun out => Outcome (t ++ trace out) (result out) (final out)) <$> o.

(** The queue keys [__event_fields__] declares, in the order in which
    [__events__] creates their queues. *)
Definition declared_flags (flags : Z) : list Z :=
  filter (fun flag => has_flag flags flag = true) EventFlag.
Definition declared_keys : list (string * Z) :=
  '(field, flags) ← __event_fields__;
  (fun flag => (field, flag)) <$> declared_flags flags.

(** A registry with an empty queue under each of the keys. *)
Definition empty_queues (keys : list (string * Z))
    (r : gmap (string * Z) (list callback)) : gmap (string * Z) (list callback) :=
  foldl (fun r key => <[key := []]> r) r keys.

(** The events of the creation of the queues. *)
Definition new_queue_events : list event :=
  '(field, flags) ← __event_fields__;
  (fun flag => NewQueue field flag) <$> declared_flags flags.

(** The lock events of a first access to the lock. *)
Definition lock_events (c : cache) : list event :=
  match cache_mutex c with None => [NewLock] | Some _ => [] end.

(** The calls a run made, in order, with the arguments after [self]. *)
Definition calls (t : list event) : list (callback * string * Z) :=
  omap (fun ev => match ev with
                  | Call cb _ field event_flags => Some (cb, field, event_flags)
                  | _ => None
                  end) t.

(** The event is a call, on a [self] that satisfies [P]. *)
Definition called_with (P : cache -> Prop) (ev : event) : Prop :=
  match ev with
  | Call _ self _ _ => P self
  | _ => False
  end.

(** If the event is a call, its [self] satisfies [P]. *)
Definition self_satisfies (P : cache -> Prop) (ev : event) : Prop :=
  match ev with
  | Call _ self _ _ => P self
  | _ => True
  end.

(** The callbacks of the queues that [event_flags] selects among
    [flags], queue after queue. *)
Definition matched_queues (r : gmap (string * Z) (list callback))
    (field : string) (event_flags : Z) (flags : list Z) : list callback :=
  flag ← filter (fun flag => has_flag event_flags flag = true) flags;
  default [] (r !! (field, flag)).

(** [queue] after [if callback not in queue: queue.append(callback)]. *)
Definition register (cb : callback) (queue : list callback) : list callback :=
  if bool_decide (cb ∈ queue) then queue else queue ++ [cb].

(** The registry after the loop of [subscribe] over [keys]. *)
Definition registered (cb : callback) (keys : list (string * Z))
    (r : gmap (string * Z) (list callback)) : gmap (string * Z) (list callback) :=
  foldl (fun r key => alter (register cb) key r) r keys.

(** [m] keeps [P], and calls callbacks only on a [self] with [P]. *)
Definition maintains {A} (P : cache -> Prop) (m : M A) : Prop :=
  forall c out, m c = Some out -> P c ->
    P (final out) /\ Forall (self_satisfies P) (trace out).

(** A property that the lock and the creation of the registry do not
    affect, and that the callbacks keep when they return or raise. *)
Record stable (P : cache -> Prop) : Prop := Stable {
  stable_mutex c m : P c -> P (set_mutex m c);
  stable_new_registry c : P c -> P (set_events (Some ∅) c);
  stable_new_queue c key : P c -> P (set_queue key [] c);
  stable_call cb c field event_flags r c' :
    call cb c field event_flags = Some (r, c') -> P c -> P c'
}.

(** No queue holds a callback twice. *)
Definition queues_nodup (c : cache) : Prop :=
  forall key queue, registry_of c !! key = Some queue -> NoDup queue.

(** The calls a program makes on an instance. *)
Inductive method :=
| Subscribe (field : string) (event_flags : Z) (cb : callback)
| Unsubscribe (field : string) (event_flags : Z) (cb : callback)
| UnsubscribeAll (field : option string) (event_flags : Z)
| Notify (field : string) (event_flags : Z)
| NotifyOnce (field : string) (event_flags : Z)
| Mute
| Unmute
| IsMuted
| SetField (name : string) (flag_set : Z) (v : value).

Definition run_method (m : method) : M unit :=
  match m with
  | Subscribe field event_flags cb => subscribe field event_flags cb;; mret tt
  | Unsubscribe field event_flags cb => unsubscribe field event_flags cb
  | UnsubscribeAll field event_flags => unsubscribe_all field event_flags
  | Notify field event_flags => notify field event_flags
  | NotifyOnce field event_flags => notify_once field event_flags
  | Mute => mute
  | Unmute => unmute
  | IsMuted => is_muted;; mret tt
  | SetField name flag_set v => subscribable_field_fset name flag_set v
  end.

(** Calls made one after the other, as long as they return. *)
Fixpoint run_methods (ms : list method) (c : cache) : option cache :=
match ms with
| [] => Some c
| m :: ms' =>
    match run_method m c with
    | Some (Outcome _ (inl _) c') => run_methods ms' c'
    | _ => None
    end
end.

(** The caches of an instance: a new one has no registry yet, and
    every call that comes back leaves another. *)
Inductive reachable : cache -> Prop :=
| reachable_new c : cache_events c = None -> reachable c
| reachable_step c m out :
    reachable c -> run_method m c = Some out -> reachable (final out).

(** The cache with [v] stored under [name]. *)
Definition stored (name : string) (v : value) (c : cache) : cache :=
  set_fields (<[name := v]> (cache_fields c)) c.

End Subscribable.

(** How many times [x] occurs in [l]. *)
Definition count {A} `{EqDecision A} (x : A) (l : list A) : nat :=
  length (filter (fun y => y = x) l).

Arguments Outcome {value A} _ _ _.
Arguments trace {value A} _.
Arguments result {value A} _.
Arguments final {value A} _.
Arguments stable_mutex {value call P} _ _ _ _.
Arguments stable_new_registry {value call P} _ _ _.
Arguments stable_new_queue {value call P} _ _ _ _.
Arguments stable_call {value call P} _ _ _ _ _ _ _ _ _.
End Subscription.


(** ** [_shared.py] *)
Module Shared.

(** Dictionaries are objects: a reference is an address in the heap. *)
Definition loc := nat.

Inductive exn :=
| SyntaxError    (* [exec] rejects the generated source *)
| Exception.     (* the [def] statement of the generated source raises *)

(** [sep.join(words)] *)
Fixpoint join (sep : string) (words : list string) : string :=
  match words with
  | [] => EmptyString
  | [w] => w
  | w :: ws => w +:+ sep +:+ join sep ws
  end.

Section CreateFunction.
Context {value : Type}.

(** The interpreter around the call: the [builtins] namespace, the
    [__dict__] of every module of [sys.modules] and the [__dict__] of
    the dummy module [create_module('')]. *)
Context (builtins : value).
Context (sys_modules : gmap string loc).
Context (default_module : loc).

(** The compiler on a source text that defines a function inside
    [__create_function__]: it rejects the text, or settles which names
    are local to the inner function, namely its parameters and the
    variables its body assigns ([co_varnames]). *)
Context (compile : string -> option (list string)).

(** Whether the [def] statement of a source text runs through, given
    the arguments of [__create_function__], the global scope and the
    heap: it evaluates the default values and the annotations of the
    parameters, which may raise. *)
Context (defines : string -> list (string * value) -> loc ->
                   gmap loc (list (string * value)) -> bool).

(** What a variable of the scope enclosing the generated body holds:
    an object, or the very function being created. *)
Inductive cell :=
| Object (v : value)
| ThisFunction.

(** A function object as far as [create_function] determines it: its
    names, the global scope it runs in, its local names, the variables
    of the enclosing call of [__create_function__], and its source. *)
Record function := Function {
  __name__ : string;
  __qualname__ : string;
  __module__ : string;
  __globals__ : loc;
  co_varnames : list string;
  enclosing_scope : list (string * cell);
  source : string
}.

(** Where the body of a function finds a name: among its own local
    variables, in the enclosing scope, or else in the global scope and
    the builtins. *)
Inductive binding :=
| Local
| Enclosing (c : cell)
| Global.

Definition resolve (fn : function) (x : string) : binding :=
  if decide (x ∈ co_varnames fn) then Local
  else match Dict.getitem (enclosing_scope fn) x with
       | Some c => Enclosing c
       | None => Global
       end.

(** The [locals] argument: a mapping object, or an iterable of pairs. *)
Inductive locals_arg :=
| Mapping (l : loc)
| Items (items : list (string * value)).

Definition newline : string := String "010"%char EmptyString.

(** [dict(locals)]: the items of a new dictionary. *)
Definition dict (h : gmap loc (list (string * value))) (locals : locals_arg)
  : list (string * value) :=
  match locals with
  | Mapping l => default [] (h !! l)
  | Items items => Dict.from_items items
  end.

(** The source text handed to [exec]. *)
Definition closure_source (name : string) (args body : list string)
    (locals : list (string * value)) : string :=
  let body := join newline ((fun line => "        " +:+ line) <$> body) in
  ("def __create_function__(" +:+ join ", " (Dict.keys locals) +:+ "):" +:+ newline)
  +:+ ("    def " +:+ name +:+ "(" +:+ join ", " args +:+ ") -> _return_type:"
       +:+ newline +:+ body +:+ newline)
  +:+ ("    return " +:+ name).

(** [exec(source, globals, scope)]: the built-in inserts the builtins
    under [__builtins__] into a [globals] that has no such key, and
    binds the function it defines, [__create_function__], in [scope]
    only.  The result is the names local to the inner function. *)
Definition exec (src : string) (globals : loc) (h : gmap loc (list (string * value)))
  : (list string + exn) * gmap loc (list (string * value)) :=
  let g := default [] (h !! globals) in
  let h := match Dict.getitem g "__builtins__" with
           | Some _ => h
           | None => <[globals := Dict.setitem g "__builtins__" builtins]> h
           end in
  match compile src with
  | Some varnames => (inl varnames, h)
  | None => (inr SyntaxError, h)
  end.

(** The call of [scope["__create_function__"]] with the items of
    [locals] as keyword arguments: they become the variables of the
    call; the [def] statement then binds
    the variable [name] to the new function, in place of an argument
    of that name; the call returns that function, whose enclosing
    scope are these variables. *)
Definition call_create_function (src name : string) (locals : list (string * value))
    (globals : loc) (h : gmap loc (list (string * value)))
  : list (string * cell) + exn :=
  if defines src locals globals h
  then inl (Dict.setitem (prod_map id Object <$> locals) name ThisFunction)
  else inr Exception.

(** The global scope [create_function] settles on when [globals] is
    [None]: the dictionary of [module] if it is loaded, of the dummy
    module otherwise. *)
Definition resolved_globals (module : string) (globals : option loc) : loc :=
  match globals with
  | Some g => g
  | None => default default_module (sys_modules !! module)
  end.

(** [__default_module.__name__], the name given to [create_module]. *)
Definition default_module_name : string := "".

(** [create_function].  The new [locals] dictionary is a new object:
    its address is none of the heap's nor that of the global scope. *)
Definition create_function (name : string) (args body : list string)
    (return_type : value) (module : string) (globals : option loc)
    (locals : locals_arg) (h : gmap loc (list (string * value)))
  : (function + exn) * gmap loc (list (string * value)) :=
  let l := fresh ({[resolved_globals module globals]} ∪ dom h) in
  let h := <[l := dict h locals]> h in
  let h := <[l := Dict.setitem (default [] (h !! l)) "_return_type" return_type]> h in
  let globals := resolved_globals module globals in
  let closure := closure_source name args body (default [] (h !! l)) in
  match exec closure globals h with
  | (inr e, h) => (inr e, h)
  | (inl varnames, h) =>
      match call_create_function closure name (default [] (h !! l)) globals h with
      | inr e => (inr e, h)
      | inl fn_scope =>
          let fn_module := if decide (module = "") then default_module_name else module in
          (inl (Function name name fn_module globals varnames fn_scope closure), h)
      end
  end.

End CreateFunction.
End Shared.

(** ** Sample classes, instances and calls, for the worked cases *)
Module Samples.
Import Subscription.

(** A class with one field, [x], defined with [on_set]; the values of
    its instances are numbers. *)
Definition fields : list (string * Z) := [("x", ON_SET)].

Definition field_x : _SubscribableField (value := nat) :=
  subscribable_field None None None (Some true) None.

(** Callbacks that return and leave the instance alone. *)
Definition returning : callback -> cache (value := nat) -> string -> Z ->
                       option ((unit + exn) * cache (value := nat)) :=
  fun _ c _ _ => Some (inl tt, c).

(** Callback 1 raises; the others return. *)
Definition raising : callback -> cache (value := nat) -> string -> Z ->
                     option ((unit + exn) * cache (value := nat)) :=
  fun cb c _ _ =>
    if decide (cb = 1) then Some (inr (Exception 1), c) else Some (inl tt, c).

(** An instance with callbacks 1 and 2 registered for the [ON_SET]
    event of [x], in this order; not muted, and muted. *)
Definition two_subscribers : cache (value := nat) :=
  Cache (Some false) (Some {[ ("x", ON_SET) := [1; 2] ]}) None ∅.
Definition muted_subscribers : cache (value := nat) :=
  Cache (Some false) (Some {[ ("x", ON_SET) := [1; 2] ]}) (Some true) ∅.

(** The first call on a new instance: [subscribe("x", ON_SET, 1)]. *)
Definition subscribed_run : option (outcome (value := nat) unit) :=
  run_method fields returning 3 (Subscribe "x" ON_SET 1) empty_cache.

(** What [notify_once] does when callback 1 raises. *)
Definition raising_run : option (outcome (value := nat) unit) :=
  notify_once fields raising 3 "x" ON_SET two_subscribers.

(** A heap with the dictionary of the dummy module at address 0 and a
    mapping at address 1; a compiler that accepts every source, the
    function of which has the one local name [self]; [def] statements
    that run through.  The function made is
    [def name(self): return a]. *)
Definition heap_with (d : list (string * nat)) : gmap Shared.loc (list (string * nat)) :=
  {[ 0 := []; 1 := d ]}.
Definition compiler : string -> option (list string) := fun _ => Some ["self"].
Definition runs : string -> list (string * nat) -> Shared.loc ->
                  gmap Shared.loc (list (string * nat)) -> bool :=
  fun _ _ _ _ => true.
Definition make (name : string) (globals : option Shared.loc) (d : list (string * nat)) :=
  Shared.create_function 99 ∅ 0 compiler runs name ["self"] ["return a"] 42 "" globals
    (Shared.Mapping 1) (heap_with d).
End Samples.

(** ** [ChainMap] of [collections/_collections.py]

    The mappings of a chain are objects that several chains may share:
    a mapping is an address in a heap of dictionaries, and a chain map
    is the sequence of the addresses of its [maps], which no method
    changes once [__setstate__] has set it. *)
Module ChainMaps.

Definition loc := nat.

Inductive exn :=
| KeyError (key : string)
| KeyErrorEmpty                       (* the KeyError of dict.popitem *)
| IndexError
| TypeError (key : string) (i : nat).

Section ChainMap.
Context {A : Type}.

(** What a mapping may hold: [None], a mapping, or any other object. *)
Inductive value :=
| VNone
| VMapping (l : loc)
| VOther (a : A).

(** The dictionary objects. *)
Local Abbreviation heap := (gmap loc (list (string * value))).

(** The dictionary at an address. *)
Definition deref (h : heap) (l : loc) : list (string * value) := default [] (h !! l).

(** A new dictionary object. *)
Definition alloc (d : list (string * value)) (h : heap) : loc * heap :=
  let l := fresh (dom h) in (l, <[l := d]> h).

(** [d.update(items)] *)
Definition dict_update (d items : list (string * value)) : list (string * value) :=
  foldl (fun d kv => Dict.setitem d kv.1 kv.2) d items.

(** [del d[key]] on a stored key. *)
Definition dict_del (d : list (string * value)) (key : string) : list (string * value) :=
  filter (fun kv => kv.1 <> key) d.

(** An argument that is a mapping, or an iterable of pairs. *)
Inductive mappable :=
| Mapping (l : loc)
| Items (items : list (string * value)).

(** [m if ismapping(m) else dict(m)] *)
Definition as_mapping (m : mappable) (h : heap) : loc * heap :=
  match m with
  | Mapping l => (l, h)
  | Items items => alloc (Dict.from_items items) h
  end.

Fixpoint as_mappings (ms : list mappable) (h : heap) : list loc * heap :=
  match ms with
  | [] => ([], h)
  | m :: ms' =>
      let '(l, h) := as_mapping m h in
      let '(ls, h) := as_mappings ms' h in
      (l :: ls, h)
  end.

(** [ChainMap.__init__]: without arguments the chain has one new,
    empty dictionary. *)
Definition __init__ (_maps : list mappable) (h : heap) : list loc * heap :=
  match _maps with
  | [] => let '(l, h) := alloc [] h in ([l], h)
  | _ => as_mappings _maps h
  end.

(** [ChainMap.new_child]: [m] is the keyword arguments when it is not
    given, and is updated with them when it is. *)
Definition new_child (self : list loc) (m : option loc) (kwargs : list (string * value))
    (h : heap) : list loc * heap :=
  let '(l, h) :=
    match m with
    | None => alloc (Dict.from_items kwargs) h
    | Some l => (l, <[l := dict_update (deref h l) (Dict.from_items kwargs)]> h)
    end in
  __init__ (Mapping l :: (Mapping <$> self)) h.

(** [ChainMap.parents]: a chain of [maps[1:]]. *)
Definition parents (self : list loc) : list loc := tail self.

(** [ChainMap.copy]: a chain whose first mapping is a copy of this
    chain's first mapping, followed by the same other mappings. *)
Definition copy (self : list loc) (h : heap) : (list loc + exn) * heap :=
  match self with
  | [] => (inr IndexError, h)
  | l :: ls => let '(l', h) := alloc (deref h l) h in (inl (l' :: ls), h)
  end.

(** [ChainMap.__iter__]: the keys of a dictionary updated with the
    mappings from the last to the first. *)
Definition __iter__ (self : list loc) (h : heap) : list string :=
  Dict.keys (foldl (fun d l => dict_update d (deref h l)) [] (reverse self)).

(** [ChainMap.__missing__] *)
Definition __missing__ (key : string) : value + exn := inr (KeyError key).

(** The value of [key] in the first mapping that holds it. *)
Fixpoint first_holding (h : heap) (maps : list loc) (key : string) : option value :=
  match maps with
  | [] => None
  | l :: ls =>
      match Dict.getitem (deref h l) key with
      | Some v => Some v
      | None => first_holding h ls key
      end
  end.

(** [ChainMap.__getitem__] *)
Definition __getitem__ (self : list loc) (key : string) (h : heap) : value + exn :=
  match first_holding h self key with
  | Some v => inl v
  | None => __missing__ key
  end.

(** The methods taken from the standard library's [ChainMap]:
    [__contains__] is [any(key in m for m in self.maps)], [__len__] is
    the size of the union of the key sets of the mappings, and
    [__setitem__] is [self.maps[0][key] = value]. *)
Definition __contains__ (self : list loc) (key : string) (h : heap) : bool :=
  existsb (fun l => bool_decide (is_Some (Dict.getitem (deref h l) key))) self.

Definition __len__ (self : list loc) (h : heap) : nat :=
  size (⋃ ((fun l => list_to_set (Dict.keys (deref h l))) <$> self) : gset string).

Definition __setitem__ (self : list loc) (key : string) (v : value) (h : heap)
  : (unit + exn) * heap :=
  match self with
  | [] => (inr IndexError, h)
  | l :: _ => (inl tt, <[l := Dict.setitem (deref h l) key v]> h)
  end.

(** The result of a binary operator. *)
Inductive operand :=
| NotImplemented
| Returned (maps : list loc)
| Raised (e : exn).

(** [ChainMap.__or__]: a copy, whose first mapping is updated with
    the other mapping. *)
Definition __or__ (self : list loc) (other : mappable) (h : heap) : operand * heap :=
  match other with
  | Items _ => (NotImplemented, h)
  | Mapping o =>
      match copy self h with
      | (inr e, h) => (Raised e, h)
      | (inl new, h) =>
          match new with
          | [] => (Raised IndexError, h)
          | l :: _ => (Returned new, <[l := dict_update (deref h l) (deref h o)]> h)
          end
      end
  end.

(** [ChainMap.__ror__]: a chain of one new dictionary, the other
    mapping updated with the mappings from the last to the first. *)
Definition __ror__ (self : list loc) (other : mappable) (h : heap) : operand * heap :=
  match other with
  | Items _ => (NotImplemented, h)
  | Mapping o =>
      let m := foldl (fun d l => dict_update d (deref h l))
                     (Dict.from_items (deref h o)) (reverse self) in
      let '(l, h) := alloc m h in
      (Returned [l], h)
  end.

(** [ChainMap.clear] *)
Definition clear (self : list loc) (h : heap) : (unit + exn) * heap :=
  match self with
  | [] => (inr IndexError, h)
  | l :: _ => (inl tt, <[l := []]> h)
  end.

(** [ChainMap.pop], with the optional default. *)
Definition pop (self : list loc) (key : string) (default : option value) (h : heap)
  : (value + exn) * heap :=
  match self with
  | [] => (inr IndexError, h)
  | l :: _ =>
      match Dict.getitem (deref h l) key, default with
      | Some v, _ => (inl v, <[l := dict_del (deref h l) key]> h)
      | None, Some v => (inl v, h)
      | None, None => (inr (KeyError key), h)
      end
  end.

(** [ChainMap.popitem]: the item stored last in the first mapping. *)
Definition popitem (self : list loc) (h : heap) : (string * value + exn) * heap :=
  match self with
  | [] => (inr IndexError, h)
  | l :: _ =>
      match last (deref h l) with
      | Some (k, v) => (inl (k, v), <[l := dict_del (deref h l) k]> h)
      | None => (inr KeyErrorEmpty, h)
      end
  end.

(** The loop of [chainmap_from], from the [i]-th mapping on. *)
Fixpoint chainmap_from_maps (maps : list loc) (i : nat) (key : string) (h : heap)
  : (list loc + exn) * heap :=
  match maps with
  | [] => (inl [], h)
  | m :: maps' =>
      match from_option id VNone (Dict.getitem (deref h m) key) with
      | VOther _ => (inr (TypeError key i), h)
      | v =>
          let '(l, h) := match v with
                         | VMapping l => (l, h)
                         | _ => alloc [] h
                         end in
          match chainmap_from_maps maps' (S i) key h with
          | (inl ls, h) => (inl (l :: ls), h)
          | (inr e, h) => (inr e, h)
          end
      end
  end.

(** [ChainMap.chainmap_from] *)
Definition chainmap_from (self : list loc) (key : string) (h : heap)
  : (list loc + exn) * heap :=
  match chainmap_from_maps self 0 key h with
  | (inl maps, h) =>
      let '(new, h) := __init__ (Mapping <$> maps) h in (inl new, h)
  | (inr e, h) => (inr e, h)
  end.

End ChainMap.

Arguments value : clear implicits.
Arguments mappable : clear implicits.

Abbreviation heap A := (gmap loc (list (string * value A))).
End ChainMaps.

(** ** Sample dictionaries and chains, for the worked cases *)
Module ChainSamples.
Import ChainMaps.

(** Two dictionaries: the one at address 0 holds [a], the one at
    address 1 holds [a] and [b]. *)
Definition two_maps : heap nat :=
  {[ 0 := [("a", VOther 1)]; 1 := [("a", VOther 2); ("b", VOther 3)] ]}.

(** Three dictionaries: under [cfg] the first holds the third, the
    second holds [None]; and the same with a number in the second. *)
Definition nested_maps : heap nat :=
  {[ 0 := [("cfg", VMapping 2)]; 1 := [("cfg", VNone)]; 2 := [("x", VOther 1)] ]}.
Definition badly_nested_maps : heap nat :=
  {[ 0 := [("cfg", VMapping 2)]; 1 := [("cfg", VOther 5)]; 2 := [("x", VOther 1)] ]}.
End ChainSamples.

(** ** Subscribable methods of [ext/subscription.py] *)
Module SubscriptionMethods.
Import Subscription.

Section Methods.
Context {value : Type}.
Context (__event_fields__ : list (string * Z)).
Context (call : callback -> cache (value:=value) -> string -> Z ->
                option ((unit + exn) * cache (value:=value))).
Context (fuel : nat).

(** A function: its [__name__], and what a call of it on the instance
    does (with the arguments of that call). *)
Record function := Function {
  __name__ : string;
  body : M (value:=value) value
}.

Record _SubscribableMethod := SubscribableMethod {
  _fn : option function;
  _on_pre_call : bool;
  _on_post_call : bool
}.

(** [subscribable_method], that is [_SubscribableMethod.__init__]:
    both switches omitted mean [on_post_call]; an omitted one is
    otherwise off. *)
Definition subscribable_method
    (fn : option function) (on_pre_call on_post_call : option bool) : _SubscribableMethod :=
  match on_pre_call, on_post_call with
  | None, None => SubscribableMethod fn false true
  | _, _ =>
      SubscribableMethod fn (default false on_pre_call) (default false on_post_call)
  end.

(** The method generated around [_fn]:
    [self.notify(name, flag_pre)] when [flag_pre] is set,
    [res = _fn(self, *args, **kwargs)],
    [self.notify(name, flag_post)] when [flag_post] is set,
    [return res], where [name] is [_fn.__name__]. *)
Definition notif_method (fn : function) (flag_pre flag_post : Z) : M (value:=value) value :=
  (if negb (flag_pre =? 0)%Z
   then notify __event_fields__ call fuel (__name__ fn) flag_pre else mret tt);;
  res ← body fn;
  (if negb (flag_post =? 0)%Z
   then notify __event_fields__ call fuel (__name__ fn) flag_post else mret tt);;
  mret res.

(** What [__set_name__] does to the class. *)
Inductive set_name_effect :=
| Plain (fn : option function)                  (* setattr(cls, name, fn) *)
| Registered (name : string) (flags : Z) (method : M (value:=value) value)
                                                (* _set_subscribable_member; setattr *)
| RaisedTypeError.                              (* inspect.signature(None) *)

(** [_SubscribableMethod.__set_name__], on a subclass of
    [Subscribable]. *)
Definition __set_name__ (self : _SubscribableMethod) (name : string) : set_name_effect :=
  let flag_pre := if negb (_on_pre_call self) then 0%Z else ON_PRE_CALL in
  let flag_post := if negb (_on_post_call self) then 0%Z else ON_POST_CALL in
  if (flag_pre =? 0)%Z && (flag_post =? 0)%Z then Plain (_fn self)
  else
    match _fn self with
    | None => RaisedTypeError
    | Some fn => Registered name (Z.lor flag_pre flag_post) (notif_method fn flag_pre flag_post)
    end.

End Methods.
End SubscriptionMethods.

(** ** More sample instances, for the worked cases *)
Module MoreSamples.
Import Subscription.

(** A class whose field [x] supports [ON_SET] and [ON_DEL] and whose
    method [z] supports [ON_CALL], and an instance with callbacks
    registered for the three events. *)
Definition fields : list (string * Z) := [("x", Z.lor ON_SET ON_DEL); ("z", ON_CALL)].

Definition registry : gmap (string * Z) (list callback) :=
  {[ ("x", ON_SET) := [1; 2]; ("x", ON_DEL) := [3]; ("z", ON_CALL) := [4] ]}.
Definition subscribers : cache (value := nat) :=
  Cache (Some false) (Some registry) None ∅.

(** The function behind the method [z]: it returns 5 and leaves the
    instance alone; and one that raises. *)
Definition z : SubscriptionMethods.function (value := nat) :=
  SubscriptionMethods.Function "z" (mret 5).
Definition z_raising : SubscriptionMethods.function (value := nat) :=
  SubscriptionMethods.Function "z" (raise (Exception 7)).

(** A field defined with a getter only. *)
Definition read_only : _SubscribableField (value := nat) :=
  subscribable_field (Some (mret 0)) None None (Some true) None.
End MoreSamples.

(** ** [create_module] and [ammend_closure] of [_shared.py] *)
Module Modules.

Inductive exn :=
| ValueError                    (* a key that does not unpack into two values *)
| AttributeError (name : string) (* a read-only attribute *)
| TypeError.                    (* [__class__] set to an object that is no module type *)

Section CreateModule.
Context {A : Type}.

(** The values of a module's dictionary: [None], a string, or any
    other object (none of them a module type). *)
Inductive value :=
| VNone
| VStr (s : string)
| VOther (a : A).

(** [body] and [attrs]: a mapping (its items, in order), or an
    iterable of pairs. *)
Inductive mappable :=
| Mapping (d : list (string * value))
| Items (items : list (string * value)).

(** [types.ModuleType(name, None).__dict__] *)
Definition new_module (name : string) : list (string * value) :=
  [("__name__", VStr name); ("__doc__", VNone); ("__package__", VNone);
   ("__loader__", VNone); ("__spec__", VNone)].

(** [k, v = key] for a string. *)
Definition unpack (key : string) : (string * value) + exn :=
  match key with
  | String k (String v EmptyString) => inl (String k EmptyString, VStr (String v EmptyString))
  | _ => inr ValueError
  end.

(** What the loop [for k, v in tuple(attrs)] gets at each turn: the
    pairs of an iterable of pairs; the keys of a mapping, unpacked. *)
Definition elements (attrs : mappable) : list ((string * value) + exn) :=
  match attrs with
  | Items items => inl <$> items
  | Mapping d => unpack <$> Dict.keys d
  end.

(** [setattr(m, k, v)] on a module: the value is stored in the
    dictionary of the module, which itself cannot be replaced. *)
Definition setattr (m : list (string * value)) (k : string) (v : value)
  : list (string * value) + exn :=
  if decide (k = "__dict__") then inr (AttributeError k)
  else if decide (k = "__class__") then inr TypeError
  else inl (Dict.setitem m k v).

Fixpoint set_attrs (m : list (string * value)) (elems : list ((string * value) + exn))
  : list (string * value) + exn :=
  match elems with
  | [] => inl m
  | inr e :: _ => inr e
  | inl (k, v) :: elems' =>
      match setattr m k v with
      | inr e => inr e
      | inl m' => set_attrs m' elems'
      end
  end.

(** What [dict.update] stores for either kind of argument. *)
Definition items_of (body : mappable) : list (string * value) :=
  match body with
  | Items items => items
  | Mapping d => d
  end.

(** [create_module]: the dictionary of the module it returns. *)
Definition create_module (name : string) (body attrs : mappable)
  : list (string * value) + exn :=
  match set_attrs (new_module name) (elements attrs) with
  | inr e => inr e
  | inl m => inl (foldl (fun m kv => Dict.setitem m kv.1 kv.2) m (items_of body))
  end.

End CreateModule.
Arguments value : clear implicits.
Arguments mappable : clear implicits.
End Modules.

Module Closures.

Definition loc := nat.

(** A class, as far as [ammend_closure] looks at it: which object it
    is, and its [__name__]. *)
Record class := Class { class_id : nat; __name__ : string }.

#[export] Instance class_eq_dec : EqDecision class.
Proof. solve_decision. Defined.

Section AmmendClosure.
Context {A : Type}.

(** The contents of a closure cell. *)
Inductive object :=
| Type_ (cls : class)
| Other (a : A).

(** The cells that hold something; a cell that is not in the map is
    empty, and reading its [cell_contents] raises [ValueError]. *)
Local Abbreviation cells := (gmap loc object).

(** A function object: its [__closure__], [None] or a tuple of cells. *)
Record function := Function { __closure__ : option (list loc) }.

(** What [ammend_closure] may be given. *)
Inductive callable :=
| Bound (fn : function)              (* has a [__self__] attribute *)
| ClassMethod (fn : function)
| StaticMethod (fn : function)
| Property (fget : option function)
| Plain (fn : function).

(** The body of the loop over the cells. *)
Definition ammend_cell (cls : class) (h : cells) (cell : loc) : cells :=
  match h !! cell with
  | None => h
  | Some contents =>
      match contents with
      | Type_ c => if decide (__name__ c = __name__ cls) then <[cell := Type_ cls]> h else h
      | Other _ => h
      end
  end.

(** [getattr(fn, '__closure__', None) or ()] for the function that
    [func] wraps. *)
Definition closure_of (func : callable) : list loc :=
  let fn := match func with
            | ClassMethod fn | StaticMethod fn | Plain fn | Bound fn => Some fn
            | Property fget => fget
            end in
  default [] (fn ≫= __closure__).

(** [ammend_closure]: what it returns ([None] unless [func] is bound)
    and the cells it leaves. *)
Definition ammend_closure (cls : class) (func : callable) (h : cells)
  : option callable * cells :=
  match func with
  | Bound _ => (Some func, h)
  | _ => (None, foldl (ammend_cell cls) h (closure_of func))
  end.

(** The contents of a cell that is rebound to [cls] if it holds a
    class of the same name. *)
Definition rebound (cls : class) (contents : object) : object :=
  match contents with
  | Type_ c => if decide (__name__ c = __name__ cls) then Type_ cls else contents
  | Other _ => contents
  end.

End AmmendClosure.
Arguments object : clear implicits.
End Closures.

(** * Proofs *)

Module CollectionsSpec.
Import Collections Collections.IdentifierDict.

Local Abbreviation str := Str.str.
Local Abbreviation lit := Str.of_ascii.

(** *** Characters *)
Ltac by_char_arith :=
  unfold Str.lower_ascii, Str.upper_ascii in *;
  unfold Str.isspace_char, Str.isascii_char, Str.isupper_ascii, Str.islower_ascii,
    Str.isdigit_ascii, Str.ord in *;
  simpl in *; repeat case_bool_decide; simplify_eq/=; try done; try lia;
  try (exfalso; lia).

Lemma lower_ascii_isspace c : Str.isspace_char (Str.lower_ascii c) = Str.isspace_char c.
Proof. by_char_arith. Qed.

Lemma lower_ascii_not_upper c : Str.isupper_ascii (Str.lower_ascii c) = false.
Proof. by_char_arith. Qed.

Lemma lower_ascii_idem c : Str.lower_ascii (Str.lower_ascii c) = Str.lower_ascii c.
Proof. by_char_arith. Qed.

Lemma lower_ascii_isascii c :
  Str.isascii_char c = true -> Str.isascii_char (Str.lower_ascii c) = true.
Proof. by_char_arith. Qed.

Lemma space_isspace : Str.isspace_char (Str.ord " ") = true.
Proof. reflexivity. Qed.

(** *** Strings *)
Lemma replace_app old new s t :
  Str.replace old new (s ++ t) = Str.replace old new s ++ Str.replace old new t.
Proof. apply fmap_app. Qed.

Lemma replace_join old new sep ws :
  Str.replace old new (Str.join sep ws) =
    Str.join (Str.replace old new sep) (Str.replace old new <$> ws).
Proof.
  induction ws as [|w ws IH]; [done |].
  destruct ws as [|w' ws]; [done |].
  change (Str.join sep (w :: w' :: ws)) with (w ++ sep ++ Str.join sep (w' :: ws)).
  rewrite !replace_app, IH. done.
Qed.

Lemma replace_absent old new s : old ∉ s -> Str.replace old new s = s.
Proof.
  induction s as [|c s IH]; [done |]. intros H.
  apply not_elem_of_cons in H as [Hc Hs]. unfold Str.replace in *.
  rewrite fmap_cons, decide_False by done. by rewrite IH.
Qed.

Lemma nonspace_no_space s : nonspace s -> Str.ord " " ∉ s.
Proof.
  intros Hs Hin. eapply Forall_forall in Hs; [| done].
  by rewrite space_isspace in Hs.
Qed.

Lemma split_words_nonspace s : Forall nonspace (Str.split s).
Proof.
  induction s as [|c s IH]; simpl; [constructor |].
  destruct (Str.isspace_char c) eqn:Hc; [done |].
  destruct (Str.starts_word s).
  - destruct (Str.split s) as [|w ws]; [| inversion IH; subst].
    + repeat constructor. done.
    + constructor; [| done]. by constructor.
  - constructor; [| done]. by repeat constructor.
Qed.

Lemma split_nil_all_space s :
  Str.split s = [] -> Forall (fun c => Str.isspace_char c = true) s.
Proof.
  induction s as [|c s IH]; simpl; [done |].
  destruct (Str.isspace_char c) eqn:Hc; [by constructor; auto |].
  destruct (Str.starts_word s); [by destruct (Str.split s) | done].
Qed.

Lemma rstrip_fixed_cons c s :
  Str.rstrip (c :: s) = c :: s ->
  Str.rstrip s = s /\ (s = [] -> Str.isspace_char c = false).
Proof.
  simpl. destruct (Str.rstrip s) as [|c' r] eqn:Hr.
  - destruct (Str.isspace_char c); [done |]. intros [= <-]. done.
  - intros [= <-]. split; [done | done].
Qed.

Lemma rstrip_fixed_all_space s :
  Str.rstrip s = s -> Forall (fun c => Str.isspace_char c = true) s -> s = [].
Proof.
  induction s as [|c s IH]; [done |].
  intros [Hs Hc]%rstrip_fixed_cons [Hc' Hs']%Forall_cons.
  specialize (IH Hs Hs'). rewrite (Hc IH) in Hc'. done.
Qed.

Lemma rstrip_idem s : Str.rstrip (Str.rstrip s) = Str.rstrip s.
Proof.
  induction s as [|c s IH]; [done |]. simpl.
  destruct (Str.rstrip s) as [|c' r] eqn:Hr.
  - destruct (Str.isspace_char c) eqn:Hc; [done |]. simpl. by rewrite Hc.
  - simpl in *. by rewrite IH.
Qed.

Lemma strip_no_trailing key : Str.rstrip (Str.strip key) = Str.strip key.
Proof. apply rstrip_idem. Qed.

Lemma lstrip_starts s : starts_space (Str.lstrip s) = false.
Proof.
  induction s as [|c s IH]; [done |]. simpl.
  destruct (Str.isspace_char c) eqn:Hc; [done |]. simpl. done.
Qed.

Lemma rstrip_starts s : starts_space s = false -> starts_space (Str.rstrip s) = false.
Proof.
  destruct s as [|c s]; [done |]. simpl. intros Hc.
  destruct (Str.rstrip s); [by rewrite Hc | done].
Qed.

Lemma strip_no_leading key : starts_space (Str.strip key) = false.
Proof. apply rstrip_starts, lstrip_starts. Qed.

Lemma starts_word_split s : Str.starts_word s = true -> Str.split s <> [].
Proof.
  destruct s as [|c s]; [done |]. simpl. intros Hc.
  destruct (Str.isspace_char c); [done |].
  destruct (Str.starts_word s); [by destruct (Str.split s) | done].
Qed.

Lemma join_cons_char sep c w ws :
  Str.join sep ((c :: w) :: ws) = c :: Str.join sep (w :: ws).
Proof. by destruct ws. Qed.

(** Collapsing the whitespace runs of a string without trailing
    whitespace joins its words with underscores. *)
Lemma collapse_join s :
  Str.rstrip s = s ->
  collapse_whitespace s =
    (if starts_space s then lit "_" else []) ++ Str.join (lit "_") (Str.split s).
Proof.
  induction s as [|c s IH]; [done |].
  intros [Hs Hc]%rstrip_fixed_cons. specialize (IH Hs). simpl.
  destruct (Str.isspace_char c) eqn:Ec.
  - destruct (starts_space s) eqn:Es; rewrite IH; done.
  - rewrite IH. destruct s as [|c' s']; [done |].
    simpl starts_space. unfold Str.starts_word.
    destruct (Str.isspace_char c') eqn:Ec'; simpl negb; cbv iota.
    + destruct (Str.split (c' :: s')) as [|w ws] eqn:Ew.
      * apply split_nil_all_space in Ew.
        by apply rstrip_fixed_all_space in Ew.
      * done.
    + destruct (Str.split (c' :: s')) as [|w ws] eqn:Ew.
      * exfalso. eapply (starts_word_split (c' :: s')); [| done].
        simpl. by rewrite Ec'.
      * by rewrite join_cons_char.
Qed.

(** *** Case folding *)
Section Folding.
Context {U : Str.unicode}.

Lemma casefold_app s t : Str.casefold (s ++ t) = Str.casefold s ++ Str.casefold t.
Proof. apply bind_app. Qed.

Lemma casefold_cons c s : Str.casefold (c :: s) = Str.casefold_char c ++ Str.casefold s.
Proof. done. Qed.

Lemma casefold_join sep ws :
  Str.casefold (Str.join sep ws) = Str.join (Str.casefold sep) (Str.casefold <$> ws).
Proof.
  induction ws as [|w ws IH]; [done |].
  destruct ws as [|w' ws]; [done |].
  change (Str.join sep (w :: w' :: ws)) with (w ++ sep ++ Str.join sep (w' :: ws)).
  rewrite !casefold_app, IH. done.
Qed.

Lemma casefold_elem x s :
  x ∈ Str.casefold s <-> exists c, c ∈ s /\ x ∈ Str.casefold_char c.
Proof.
  unfold Str.casefold. rewrite list_elem_of_bind.
  split; intros (c & ? & ?); by exists c.
Qed.

Lemma casefold_char_ascii c :
  Str.isascii_char c = true -> Str.casefold_char c = [Str.lower_ascii c].
Proof. unfold Str.casefold_char. by intros ->. Qed.

Lemma casefold_nonspace s :
  Str.casefold_no_whitespace -> nonspace s -> nonspace (Str.casefold s).
Proof.
  intros HU Hs. apply Forall_forall. intros x (c & Hc & Hx)%casefold_elem.
  eapply Forall_forall in Hs; [| done].
  specialize (HU c Hs). by eapply Forall_forall in HU.
Qed.

(** The key [_format_key] computes before it tests it. *)
Lemma formatted_words s :
  Str.casefold_no_whitespace ->
  Str.replace (Str.ord " ") (Str.ord "_")
    (Str.casefold (Str.join (lit " ") (Str.split s))) =
  Str.casefold (Str.join (lit "_") (Str.split s)).
Proof.
  intros HU. rewrite !casefold_join, replace_join.
  change (Str.replace (Str.ord " ") (Str.ord "_") (Str.casefold (lit " "))) with (lit "_").
  change (Str.casefold (lit "_")) with (lit "_").
  f_equal. rewrite <- list_fmap_compose. apply Forall_fmap_ext_1.
  eapply Forall_impl; [apply split_words_nonspace |].
  intros w Hw. simpl. apply replace_absent, nonspace_no_space.
  by apply casefold_nonspace.
Qed.

Lemma formatted_collapse key :
  Str.casefold_no_whitespace ->
  Str.replace (Str.ord " ") (Str.ord "_")
    (Str.casefold (Str.join (lit " ") (Str.split (Str.strip key)))) =
  Str.casefold (collapse_whitespace (Str.strip key)).
Proof.
  intros HU. rewrite (formatted_words _ HU), (collapse_join _ (strip_no_trailing key)).
  by rewrite strip_no_leading.
Qed.

Lemma isalpha_one_char c : Str.isalpha [c] = Str.isalpha_char c.
Proof. simpl. apply andb_true_r. Qed.

Lemma format_key_accept key :
  _format_key key =
    accept key (Str.replace (Str.ord " ") (Str.ord "_")
                  (Str.casefold (Str.join (lit " ") (Str.split (Str.strip key))))).
Proof.
  unfold _format_key, accept.
  destruct (Str.replace _ _ _) as [|c k]; [done |].
  cbv beta iota delta [Str.first]. rewrite isalpha_one_char.
  destruct (Str.isalpha_char c); cbv beta iota delta [negb].
  - by destruct (Str.isidentifier (c :: k)).
  - change (lit "_" ++ c :: k) with (Str.ord "_" :: c :: k).
    by destruct (Str.isidentifier (Str.ord "_" :: c :: k)).
Qed.

(** [_format_key] computes the documented normalisation and accepts it
    exactly when it is an identifier. *)
Lemma format_key_spec key :
  Str.casefold_no_whitespace ->
  _format_key key =
    if Str.isidentifier (normalized_spec key) then Return (normalized_spec key)
    else Raise (ValueError (Some key)).
Proof.
  intros HU. rewrite format_key_accept, (formatted_collapse _ HU).
  unfold accept, normalized_spec.
  destruct (Str.casefold (collapse_whitespace (Str.strip key))) as [|c k]; [done |].
  done.
Qed.

Lemma format_key_Return key k :
  _format_key key = Return k ->
  Str.isidentifier k = true /\
  exists c k0,
    Str.replace (Str.ord " ") (Str.ord "_")
      (Str.casefold (Str.join (lit " ") (Str.split (Str.strip key)))) = c :: k0 /\
    k = if Str.isalpha_char c then c :: k0 else Str.ord "_" :: c :: k0.
Proof.
  rewrite format_key_accept. unfold accept.
  destruct (Str.replace _ _ _) as [|c k0]; [done |].
  destruct (Str.isidentifier _) eqn:Hid; [| done].
  intros [= <-]. split; [done |]. by exists c, k0.
Qed.

Lemma format_key_Raise key e : _format_key key = Raise e -> e = ValueError (Some key).
Proof.
  rewrite format_key_accept. unfold accept.
  destruct (Str.replace _ _ _) as [|c k0]; [by intros [= <-] |].
  destruct (Str.isidentifier _); [done | by intros [= <-]].
Qed.

Lemma format_key_normalized key k :
  Str.casefold_no_whitespace ->
  _format_key key = Return k ->
  k = normalized_spec key /\ Str.isidentifier (normalized_spec key) = true.
Proof.
  intros HU. rewrite (format_key_spec _ HU).
  destruct (Str.isidentifier (normalized_spec key)); [| done].
  by intros [= <-].
Qed.

Lemma casefold_no_upper s : Str.casefold_no_capitals -> no_capitals (Str.casefold s).
Proof.
  intros HU. apply Forall_forall. intros x (c & _ & Hx)%casefold_elem.
  specialize (HU c). by eapply Forall_forall in HU.
Qed.

Lemma replace_no_upper s :
  no_capitals s -> no_capitals (Str.replace (Str.ord " ") (Str.ord "_") s).
Proof.
  intros Hs. unfold Str.replace. apply Forall_fmap. eapply Forall_impl; [done |].
  intros c Hc. simpl. by case_decide.
Qed.

Lemma format_key_no_upper key k :
  Str.casefold_no_capitals -> _format_key key = Return k -> no_capitals k.
Proof.
  intros HU (_ & c & k0 & Hk0 & ->)%format_key_Return.
  assert (no_capitals (c :: k0)) as H.
  { rewrite <- Hk0. by apply replace_no_upper, casefold_no_upper. }
  destruct (Str.isalpha_char c); [done |]. by constructor.
Qed.

(** *** Keys that differ in the case of the letters [A] to [Z] *)
Lemma same_char_isspace a b :
  same_char_up_to_case a b -> Str.isspace_char a = Str.isspace_char b.
Proof. intros [<- | [<- | <-]]; [done | |]; by_char_arith. Qed.

Lemma same_char_casefold a b :
  same_char_up_to_case a b -> Str.casefold_char a = Str.casefold_char b.
Proof.
  intros [<- | [<- | <-]]; [done | |]; unfold Str.casefold_char.
  - destruct (Str.islower_ascii a) eqn:Ha; [| by_char_arith].
    assert (Str.isascii_char a = true /\ Str.isascii_char (Str.upper_ascii a) = true)
      as [-> ->] by by_char_arith.
    f_equal. by_char_arith.
  - destruct (Str.isupper_ascii a) eqn:Ha; [| by_char_arith].
    assert (Str.isascii_char a = true /\ Str.isascii_char (Str.lower_ascii a) = true)
      as [-> ->] by by_char_arith.
    f_equal. by_char_arith.
Qed.

Lemma same_casefold s t : same_up_to_case s t -> Str.casefold s = Str.casefold t.
Proof.
  induction 1 as [|a b s t Hab _ IH]; [done |].
  by rewrite !casefold_cons, (same_char_casefold a b Hab), IH.
Qed.

Lemma same_lstrip s t :
  same_up_to_case s t -> same_up_to_case (Str.lstrip s) (Str.lstrip t).
Proof.
  induction 1 as [|a b s t Hab Hst IH]; [constructor |]. simpl.
  rewrite <- (same_char_isspace a b Hab).
  destruct (Str.isspace_char a); [done | by constructor].
Qed.

Lemma same_rstrip s t :
  same_up_to_case s t -> same_up_to_case (Str.rstrip s) (Str.rstrip t).
Proof.
  induction 1 as [|a b s t Hab Hst IH]; [constructor |]. simpl.
  rewrite <- (same_char_isspace a b Hab).
  destruct IH as [|a' b' s' t' Hab' Hst'].
  - destruct (Str.isspace_char a); [constructor |].
    constructor; [done | constructor].
  - constructor; [done |]. by constructor.
Qed.

Lemma same_starts_word s t :
  same_up_to_case s t -> Str.starts_word s = Str.starts_word t.
Proof. destruct 1 as [|a b s t Hab _]; [done |]. simpl. by rewrite (same_char_isspace a b). Qed.

Lemma same_split s t :
  same_up_to_case s t -> Forall2 same_up_to_case (Str.split s) (Str.split t).
Proof.
  induction 1 as [|a b s t Hab Hst IH]; [constructor |]. simpl.
  rewrite <- (same_char_isspace a b Hab), <- (same_starts_word s t Hst).
  destruct (Str.isspace_char a); [done |].
  destruct (Str.starts_word s).
  - destruct IH as [|w w' ws ws' Hw Hws].
    + constructor; [| constructor]. constructor; [done | constructor].
    + constructor; [by constructor | done].
  - constructor; [| done]. constructor; [done | constructor].
Qed.

Lemma same_join sep ws ws' :
  Forall2 same_up_to_case ws ws' ->
  Str.casefold (Str.join sep ws) = Str.casefold (Str.join sep ws').
Proof.
  intros H. rewrite !casefold_join. f_equal.
  induction H as [|w w' ws ws' Hw _ IH]; [done |].
  rewrite !fmap_cons. by rewrite (same_casefold w w' Hw), IH.
Qed.

(** Case does not matter to [_format_key], but for the key its error
    message quotes. *)
Lemma same_format_key k1 k2 k :
  same_up_to_case k1 k2 -> _format_key k1 = Return k -> _format_key k2 = Return k.
Proof.
  intros H. rewrite !format_key_accept. unfold Str.strip.
  rewrite (same_join (lit " ") _ _ (same_split _ _ (same_rstrip _ _ (same_lstrip _ _ H)))).
  unfold accept.
  destruct (Str.replace _ _ _) as [|c k0]; [done |].
  by destruct (Str.isidentifier _).
Qed.

(** *** The dictionaries built through the class *)
Lemma update_from_keys_formatted {V} (m : list (str * V)) d :
  keys_formatted d -> keys_formatted (update_from d m).1.
Proof.
  revert d. induction m as [|[k v] m IH]; intros d Hd; [done |]. simpl.
  destruct (_format_key k) as [k'|e] eqn:Hk; [| done].
  apply IH. intros k0. simpl. rewrite lookup_insert.
  case_decide as Heq; [subst; eauto | apply Hd].
Qed.

Lemma update_keys_formatted {V} (m : option (list (str * V))) kwargs d :
  keys_formatted d -> keys_formatted (update d m kwargs).1.
Proof. apply update_from_keys_formatted. Qed.

Lemma delete_keys_formatted {V} (d : composed V) k :
  keys_formatted d -> keys_formatted (Composed (delete k (_object_value_ d))).
Proof.
  intros Hd k0. simpl. rewrite lookup_delete.
  case_decide; [by intros [? ?] | apply Hd].
Qed.

Lemma built_keys_formatted {V} (d : composed V) : built d -> keys_formatted d.
Proof.
  induction 1 as [m kwargs | d key value d' _ IH Hset | d m kwargs _ IH
                 | d key d' _ IH Hdel | d key default v d' _ IH Hpop
                 | d key _ IH _ | d _ IH].
  - apply update_keys_formatted. intros k. simpl. rewrite lookup_empty. by intros [? ?].
  - unfold __setitem__ in Hset. simpl in Hset.
    destruct (_format_key key) as [k|e] eqn:Hk; [| done].
    injection Hset as <-. intros k0. simpl. rewrite lookup_insert.
    case_decide as Heq; [subst; eauto | apply IH].
  - by apply update_keys_formatted.
  - unfold __delitem__ in Hdel. simpl in Hdel.
    destruct (_format_key key) as [k|[]]; try done.
    destruct (_object_value_ d !! k); [| done].
    injection Hdel as <-. by apply delete_keys_formatted.
  - unfold pop in Hpop. simpl in Hpop.
    destruct (_format_key key) as [k|e]; [| done].
    destruct (_object_value_ d !! k), default; simplify_eq; try done.
    all: by apply delete_keys_formatted.
  - by apply delete_keys_formatted.
  - intros k. simpl. rewrite lookup_empty. by intros [? ?].
Qed.

Lemma built_no_upper {V} (d : composed V) k :
  Str.casefold_no_capitals -> built d -> ~ no_capitals k -> _object_value_ d !! k = None.
Proof.
  intros HU Hd Hk. destruct (_object_value_ d !! k) eqn:E; [| done].
  destruct (built_keys_formatted d Hd k) as [key Hkey]; [by eexists |].
  by apply (format_key_no_upper _ _ HU) in Hkey.
Qed.

(** *** The operations on a key, by the fate of its normalisation *)
Section Operations.
Context {V : Type}.
Implicit Types (d : composed V) (key : str) (value : V) (default : option V).

Lemma operations_raise d key value default e :
  _format_key key = Raise e ->
  __getitem__ d key = Raise (ValueError (Some key)) /\
  get d key default = Raise (ValueError (Some key)) /\
  __setitem__ d key value = Raise (ValueError (Some key)) /\
  __delitem__ d key = Raise (ValueError (Some key)) /\
  pop d key default = Raise (ValueError (Some key)).
Proof.
  intros Hk. pose proof (format_key_Raise _ _ Hk) as ->.
  unfold __getitem__, get, __setitem__, __delitem__, pop. simpl.
  by rewrite Hk.
Qed.

Lemma operations_return d key value default k :
  _format_key key = Return k ->
  __getitem__ d key =
    match _object_value_ d !! k with
    | Some v => Return v
    | None => Raise (KeyError key)
    end /\
  get d key default =
    match _object_value_ d !! k with
    | Some v => Return (Some v)
    | None => Return default
    end /\
  __setitem__ d key value = Return (Composed (<[k := value]> (_object_value_ d))) /\
  __delitem__ d key =
    match _object_value_ d !! k with
    | Some _ => Return (Composed (delete k (_object_value_ d)))
    | None => Raise (KeyError key)
    end /\
  pop d key default =
    match _object_value_ d !! k, default with
    | Some v, _ => Return (v, Composed (delete k (_object_value_ d)))
    | None, Some v => Return (v, d)
    | None, None => Raise (KeyError k)
    end.
Proof.
  intros Hk. unfold __getitem__, get, __setitem__, __delitem__, pop. simpl.
  rewrite Hk. repeat split; by destruct (_object_value_ d !! k).
Qed.

Lemma operations_rejected d key value default :
  Str.casefold_no_whitespace ->
  Str.isidentifier (normalized_spec key) = false ->
  __getitem__ d key = Raise (ValueError (Some key)) /\
  get d key default = Raise (ValueError (Some key)) /\
  __setitem__ d key value = Raise (ValueError (Some key)) /\
  __delitem__ d key = Raise (ValueError (Some key)) /\
  pop d key default = Raise (ValueError (Some key)).
Proof.
  intros HU Hk. apply (operations_raise _ _ _ _ (ValueError (Some key))).
  by rewrite (format_key_spec _ HU), Hk.
Qed.

Lemma operations_accepted d key value default :
  Str.casefold_no_whitespace ->
  Str.isidentifier (normalized_spec key) = true ->
  let k := normalized_spec key in
  __getitem__ d key =
    match _object_value_ d !! k with
    | Some v => Return v
    | None => Raise (KeyError key)
    end /\
  get d key default =
    match _object_value_ d !! k with
    | Some v => Return (Some v)
    | None => Return default
    end /\
  __setitem__ d key value = Return (Composed (<[k := value]> (_object_value_ d))) /\
  __delitem__ d key =
    match _object_value_ d !! k with
    | Some _ => Return (Composed (delete k (_object_value_ d)))
    | None => Raise (KeyError key)
    end /\
  pop d key default =
    match _object_value_ d !! k, default with
    | Some v, _ => Return (v, Composed (delete k (_object_value_ d)))
    | None, Some v => Return (v, d)
    | None, None => Raise (KeyError k)
    end.
Proof.
  intros HU Hk k. apply operations_return.
  by rewrite (format_key_spec _ HU), Hk.
Qed.
End Operations.

(** C2, amended: a key whose normalised form is not a valid identifier
    is rejected by every get, set and delete operation, which raises the
    [ValueError] about that key.  The normalisation is the documented
    one, which the code computes whenever case folding turns no
    character into whitespace. *)
Theorem unformattable_key_is_rejected
    {V} (d : composed V) (key : str) (value : V) (default : option V) :
  Str.casefold_no_whitespace ->
  Str.isidentifier (normalized_spec key) = false ->
  raises (__getitem__ d key) /\ raises (get d key default) /\
  raises (__setitem__ d key value) /\ raises (__delitem__ d key) /\
  raises (pop d key default).
Proof.
  intros HU Hk.
  destruct (operations_rejected d key value default HU Hk) as (-> & -> & -> & -> & ->).
  done.
Qed.

(** C3: a get, set or delete operation raises [ValueError] exactly when
    the documented normalisation of the key (strip, whitespace runs to
    single underscores, casefold, underscore before a first character
    that is not alphabetic) is not a valid identifier; otherwise the key
    is accepted: [_format_key] returns the normalised key and the
    operation proceeds on it, as on a built-in [dict] (a key that is
    not stored gives the default of [get] and the [KeyError] of a
    subscript or a deletion).  This holds for every key, given that
    case folding turns no character into whitespace. *)
Theorem ValueError_iff_not_formattable
    {V} (d : composed V) (key : str) (value : V) (default : option V) :
  Str.casefold_no_whitespace ->
  let rejected := Str.isidentifier (normalized_spec key) = false in
  (raises_ValueError (__getitem__ d key) <-> rejected) /\
  (raises_ValueError (get d key default) <-> rejected) /\
  (raises_ValueError (__setitem__ d key value) <-> rejected) /\
  (raises_ValueError (__delitem__ d key) <-> rejected) /\
  (raises_ValueError (pop d key default) <-> rejected) /\
  (~ rejected ->
     let k := normalized_spec key in
     _format_key key = Return k /\
     __setitem__ d key value = Return (Composed (<[k := value]> (_object_value_ d))) /\
     get d key default = Return (from_option Some default (_object_value_ d !! k)) /\
     __getitem__ d key =
       from_option Return (Raise (KeyError key)) (_object_value_ d !! k) /\
     __delitem__ d key =
       from_option (fun _ => Return (Composed (delete k (_object_value_ d))))
                   (Raise (KeyError key)) (_object_value_ d !! k)).
Proof.
  intros HU rejected. subst rejected.
  destruct (Str.isidentifier (normalized_spec key)) eqn:Hk.
  - destruct (operations_accepted d key value default HU Hk) as (-> & -> & -> & -> & ->).
    rewrite (format_key_spec _ HU), Hk.
    repeat split; try done;
      destruct (_object_value_ d !! normalized_spec key); try done;
      destruct default; done.
  - destruct (operations_rejected d key value default HU Hk) as (-> & -> & -> & -> & ->).
    repeat split; done.
Qed.

(** C4, amended: a value stored under an accepted key is returned for
    every accepted key with the same normalised form, and keys that
    differ only in the case of the letters [A] to [Z] are accepted
    together and have the same normalised form. *)
Theorem lookup_is_case_insensitive
    {V} (d : composed V) (k1 k2 : str) (v : V) :
  (forall k, _format_key k1 = Return k -> _format_key k2 = Return k ->
     exists d', __setitem__ d k1 v = Return d' /\ __getitem__ d' k2 = Return v) /\
  (same_up_to_case k1 k2 ->
     forall k, _format_key k1 = Return k -> _format_key k2 = Return k).
Proof.
  split.
  - intros k H1 H2. unfold __setitem__, __getitem__. simpl. rewrite H1.
    eexists. split; [done |]. simpl. rewrite H2, lookup_insert_eq. done.
  - intros Hsame k. by apply same_format_key.
Qed.

(** C9, amended: membership applies no key formatting ([__contains__]
    does not go through the hooks): [k in d] holds exactly when [k] is
    one of the stored keys.
    So for an accepted key that differs from its normalised form and is
    not itself stored, [k in d] is false after [d[k] = v] although
    [d[k]] returns [v]; in a dictionary built through the class this is
    the case of every accepted key with one of the letters [A] to [Z],
    none of which case folding produces. *)
Theorem membership_is_not_formatted {V} (d : composed V) (k : str) (v : V) :
  (__contains__ d k = true <-> k ∈ dom (_object_value_ d)) /\
  (forall k', _format_key k = Return k' -> k' <> k ->
     __contains__ d k = false ->
     exists d', __setitem__ d k v = Return d' /\
                __contains__ d' k = false /\
                __getitem__ d' k = Return v) /\
  (Str.casefold_no_capitals ->
   built d -> existsb Str.isupper_ascii k = true ->
     forall k', _format_key k = Return k' ->
     k' <> k /\ __contains__ d k = false).
Proof.
  assert (forall d0 : composed V,
            __contains__ d0 k = true <-> k ∈ dom (_object_value_ d0)) as Hin.
  { intros d0. unfold __contains__. rewrite bool_decide_eq_true. symmetry.
    apply elem_of_dom. }
  split; [apply Hin |]. split.
  - intros k' Hk Hne Hnot. unfold __setitem__, __getitem__. simpl. rewrite Hk.
    eexists. split; [done |]. simpl. rewrite lookup_insert_eq.
    split; [| done].
    unfold __contains__ in *. simpl. rewrite lookup_insert_ne; done.
  - intros HU Hd Hup k' Hk.
    assert (~ no_capitals k) as Hcap.
    { intros Hno. apply existsb_exists in Hup as (c & Hc & Hup).
      apply list_elem_of_In in Hc. eapply Forall_forall in Hno; [| done]. congruence. }
    split.
    + intros ->. by apply (format_key_no_upper _ _ HU) in Hk.
    + unfold __contains__. rewrite (built_no_upper d k HU Hd Hcap).
      apply bool_decide_eq_false. by intros [? ?].
Qed.

End Folding.

(** *** The sample tables have the assumed properties of case folding *)
Ltac by_table_cases :=
  unfold Latin.folding in *;
  repeat (first [case_decide | case_bool_decide]; simplify_eq/=);
  repeat match goal with
         | H : context [Str.of_ascii ?s] |- _ =>
             let v := eval vm_compute in (Str.of_ascii s) in
             change (Str.of_ascii s) with v in H
         end;
  repeat match goal with
         | H : _ ∈ [] |- _ => by apply elem_of_nil in H
         | H : _ ∈ _ :: _ |- _ => apply elem_of_cons in H as [-> | H]
         end.

Lemma latin_casefold_no_whitespace : Str.casefold_no_whitespace (U := Latin.tables).
Proof.
  intros c Hc. apply Forall_forall. intros x Hx. unfold Str.casefold_char in Hx.
  destruct (Str.isascii_char c) eqn:Ha.
  - apply list_elem_of_singleton in Hx as ->. by rewrite lower_ascii_isspace.
  - simpl in Hx. by_table_cases; by_char_arith.
Qed.

Lemma latin_casefold_no_capitals : Str.casefold_no_capitals (U := Latin.tables).
Proof.
  intros c. apply Forall_forall. intros x Hx. unfold Str.casefold_char in Hx.
  destruct (Str.isascii_char c) eqn:Ha.
  - apply list_elem_of_singleton in Hx as ->. apply lower_ascii_not_upper.
  - simpl in Hx. by_table_cases; by_char_arith.
Qed.

Lemma latin_casefold_folded : Str.casefold_folded (U := Latin.tables).
Proof.
  intros c. apply Forall_forall. intros x Hx. unfold Str.casefold_char in Hx.
  destruct (Str.isascii_char c) eqn:Ha.
  - apply list_elem_of_singleton in Hx as ->.
    by rewrite (casefold_char_ascii _ (lower_ascii_isascii c Ha)), lower_ascii_idem.
  - simpl in Hx. unfold Str.casefold_char.
    by_table_cases; try reflexivity;
      match goal with
      | |- context [Str.isascii_char ?y] =>
          assert (Str.isascii_char y = false) as -> by by_char_arith
      end;
      simpl; unfold Latin.folding;
      repeat (first [rewrite decide_False by lia
                    | rewrite bool_decide_eq_false_2 by lia]);
      reflexivity.
Qed.

(** *** Worked cases *)
Import Latin.

Example split_words :
  Str.split (lit "  Hello   big World ") = [lit "Hello"; lit "big"; lit "World"].
Proof. reflexivity. Qed.
Example strip_both_ends : Str.strip (Str.ord "009" :: lit " a  b  ") = lit "a  b".
Proof. reflexivity. Qed.
Example strip_no_break_space : Str.strip (160%N :: lit "a" ++ [8195%N]) = lit "a".
Proof. reflexivity. Qed.
Example join_words : Str.join (lit " ") [lit "a"; lit "b"; lit "c"] = lit "a b c".
Proof. reflexivity. Qed.
Example isidentifier_underscore : Str.isidentifier (lit "_a1") = true.
Proof. reflexivity. Qed.
Example isidentifier_digit_first : Str.isidentifier (lit "1a") = false.
Proof. reflexivity. Qed.
Example casefold_sharp_s : Str.casefold (lit "Stra" ++ sharp_s ++ lit "e") = lit "strasse".
Proof. reflexivity. Qed.
Example format_key_words : _format_key (lit "  Hello   World ") = Return (lit "hello_world").
Proof. reflexivity. Qed.
Example format_key_underscore : _format_key (lit "_a") = Return (lit "__a").
Proof. reflexivity. Qed.
Example format_key_blank : _format_key (lit "   ") = Raise (ValueError (Some (lit "   "))).
Proof. reflexivity. Qed.
Example format_key_e_acute : _format_key E_acute = Return e_acute.
Proof. reflexivity. Qed.
(** An uppercase letter without case folding is stored as it is. *)
Example format_key_double_struck_N : _format_key double_struck_N = Return double_struck_N.
Proof. reflexivity. Qed.

(** C2 as stated fails: ["a b"] is not an identifier, and the mapping
    takes it for the key ["a_b"]. *)
Lemma non_identifier_key_is_accepted :
  let d0 : composed nat := Composed ∅ in
  let d1 : composed nat := Composed {[ lit "a_b" := 7 ]} in
  Str.isidentifier (lit "a b") = false /\
  __setitem__ d0 (lit "a b") 7 = Return d1 /\
  __getitem__ d1 (lit "a b") = Return 7 /\
  get d1 (lit "a b") None = Return (Some 7) /\
  __delitem__ d1 (lit "a b") = Return d0.
Proof. vm_compute. done. Qed.

Lemma unformattable_key_is_rejected_witness :
  Str.isidentifier (normalized_spec (lit "a-b")) = false /\
  raises (__setitem__ (Composed (∅ : gmap str nat)) (lit "a-b") 7).
Proof.
  split; [reflexivity |].
  apply (unformattable_key_is_rejected (Composed ∅) (lit "a-b") 7 None
           latin_casefold_no_whitespace).
  reflexivity.
Defined.

Lemma ValueError_iff_not_formattable_witness :
  raises_ValueError (__setitem__ (Composed (∅ : gmap str nat)) (lit "a-b") 7) /\
  __setitem__ (Composed (∅ : gmap str nat)) (lit " Hello  World") 7 =
    Return (Composed {[ lit "hello_world" := 7 ]}) /\
  __setitem__ (Composed (∅ : gmap str nat)) E_acute 7 = Return (Composed {[ e_acute := 7 ]}).
Proof.
  split; [| split].
  - apply (ValueError_iff_not_formattable (Composed ∅) (lit "a-b") 7 None
             latin_casefold_no_whitespace).
    reflexivity.
  - apply (ValueError_iff_not_formattable (Composed ∅) (lit " Hello  World") 7 None
             latin_casefold_no_whitespace).
    simpl. discriminate.
  - apply (ValueError_iff_not_formattable (Composed ∅) E_acute 7 None
             latin_casefold_no_whitespace).
    simpl. discriminate.
Defined.

(** C4 as stated fails beyond the letters [A] to [Z]: the dotless i
    (U+0131) and [I] differ only in case, [I] being the uppercase form
    of both, yet they are folded to different keys, and a value stored
    under the one is not found under the other. *)
Lemma uppercase_forms_are_distinct_keys :
  let d0 : composed nat := Composed ∅ in
  let d1 : composed nat := Composed {[ dotless_i := 7 ]} in
  Str.upper dotless_i = lit "I" /\ Str.upper (lit "I") = lit "I" /\
  _format_key dotless_i = Return dotless_i /\
  _format_key (lit "I") = Return (lit "i") /\
  __setitem__ d0 dotless_i 7 = Return d1 /\
  __getitem__ d1 (lit "I") = Raise (KeyError (lit "I")).
Proof. vm_compute. done. Qed.

Lemma lookup_is_case_insensitive_witness :
  same_up_to_case (lit "Max Size") (lit "mAX size") /\
  _format_key (lit "mAX size") = Return (lit "max_size") /\
  exists d', __setitem__ (Composed (∅ : gmap str nat)) (lit "Max Size") 7 = Return d' /\
             __getitem__ d' (lit "mAX size") = Return 7.
Proof.
  assert (same_up_to_case (lit "Max Size") (lit "mAX size")) as H.
  { repeat constructor; unfold same_char_up_to_case; vm_compute; tauto. }
  pose proof (lookup_is_case_insensitive (Composed (∅ : gmap str nat))
                (lit "Max Size") (lit "mAX size") 7) as [Hget Hfmt].
  pose proof (Hfmt H (lit "max_size") eq_refl) as Hk.
  exact (conj H (conj Hk (Hget (lit "max_size") eq_refl Hk))).
Defined.

(** C9 as stated fails for a key that is itself stored: ["_a"] is stored
    as ["__a"], so ["__a"], whose normalised form is ["___a"], is a
    member after [d["__a"] = 2]. *)
Lemma unformatted_key_is_member :
  exists d1 d2 : composed nat,
    __setitem__ (Composed ∅) (lit "_a") 1 = Return d1 /\
    _format_key (lit "__a") = Return (lit "___a") /\
    __setitem__ d1 (lit "__a") 2 = Return d2 /\
    __getitem__ d2 (lit "__a") = Return 2 /\
    __contains__ d2 (lit "__a") = true.
Proof.
  exists (Composed {[ lit "__a" := 1 ]}),
         (Composed (<[ lit "___a" := 2 ]> {[ lit "__a" := 1 ]})).
  vm_compute. done.
Qed.

Lemma membership_is_not_formatted_witness :
  let d : composed nat := (IdentifierDict.__init__ (Some [(lit "x", 1)]) []).1 in
  exists d', __setitem__ d (lit "Foo") 7 = Return d' /\
             __contains__ d' (lit "Foo") = false /\ __getitem__ d' (lit "Foo") = Return 7.
Proof.
  intros d.
  pose proof (membership_is_not_formatted d (lit "Foo") 7) as (_ & Hset & Hup).
  destruct (Hup latin_casefold_no_capitals (built_init (Some [(lit "x", 1)]) []) eq_refl
              (lit "foo") eq_refl) as [Hne Hnot].
  exact (Hset (lit "foo") eq_refl Hne Hnot).
Defined.
End CollectionsSpec.


Module SubscriptionSpec.
Import Subscription.

Section Proofs.
Context {value : Type}.
Context (__event_fields__ : list (string * Z)).
Context (call : callback -> cache (value:=value) -> string -> Z ->
                option ((unit + exn) * cache (value:=value))).
Context (fuel : nat).

Local Abbreviation M := (M (value:=value)).
Local Abbreviation cache := (cache (value:=value)).
Local Abbreviation event := (event (value:=value)).
Local Abbreviation outcome := (outcome (value:=value)).
Local Abbreviation queues_nodup := (queues_nodup (value:=value)).
Local Abbreviation declared_keys := (Subscription.declared_keys __event_fields__).
Local Abbreviation new_queue_events :=
  (Subscription.new_queue_events (value:=value) __event_fields__).
Local Abbreviation stable := (Subscription.stable call).
Local Abbreviation run_method := (Subscription.run_method __event_fields__ call fuel).
Local Abbreviation reachable := (Subscription.reachable __event_fields__ call fuel).

Lemma bind_run {A B} (m : M A) (f : A -> M B) c :
  (m ≫= f) c =
    match m c with
    | None => None
    | Some (Outcome t (inr e) c') => Some (Outcome t (inr e) c')
    | Some (Outcome t (inl a) c') => prepend t (f a c')
    end.
Proof.
  unfold mbind, M_bind, prepend.
  destruct (m c) as [[t [a|e] c']|]; [| done | done].
  by destruct (f a c') as [[]|].
Qed.

Lemma prepend_nil {A} (o : option (outcome A)) : prepend [] o = o.
Proof. by destruct o as [[]|]. Qed.

Lemma prepend_prepend {A} t1 t2 (o : option (outcome A)) :
  prepend t1 (prepend t2 o) = prepend (t1 ++ t2) o.
Proof. destruct o as [[]|]; [| done]. simpl. by rewrite app_assoc. Qed.

Lemma prepend_Some {A} t (o : option (outcome A)) out :
  prepend t o = Some out ->
  exists out', o = Some out' /\ trace out = t ++ trace out' /\
               result out = result out' /\ final out = final out'.
Proof. destruct o as [out'|]; [| done]. intros [= <-]. by exists out'. Qed.

Lemma seq_run {A B} (m : M A) (k : M B) c :
  (m ;; k) c =
    match m c with
    | None => None
    | Some (Outcome t (inr e) c') => Some (Outcome t (inr e) c')
    | Some (Outcome t (inl a) c') => prepend t (k c')
    end.
Proof. apply bind_run. Qed.

Lemma for_each_cons {A} (x : A) xs (body : A -> M unit) :
  for_each (x :: xs) body = (body x;; for_each xs body).
Proof. done. Qed.

(** A loop whose body always returns. *)
Lemma for_each_total {A} (xs : list A) (body : A -> M unit)
    (tr : A -> list event) (upd : A -> cache -> cache) c :
  (forall x c, body x c = Some (Outcome (tr x) (inl tt) (upd x c))) ->
  for_each xs body c =
    Some (Outcome (xs ≫= tr) (inl tt) (foldl (fun c x => upd x c) c xs)).
Proof.
  intros Hbody. revert c. induction xs as [|x xs IH]; intros c; [done |].
  simpl. rewrite seq_run, Hbody, IH. done.
Qed.

(** *** The lock and the registry *)

Lemma empty_queues_app keys1 keys2 r :
  empty_queues (keys1 ++ keys2) r = empty_queues keys2 (empty_queues keys1 r).
Proof. apply foldl_app. Qed.

Lemma lookup_empty_queues keys r key :
  empty_queues keys r !! key = if decide (key ∈ keys) then Some [] else r !! key.
Proof.
  revert r. induction keys as [|k keys IH]; intros r; [done |].
  change (empty_queues (k :: keys) r) with (empty_queues keys (<[k := []]> r)).
  rewrite IH. destruct (decide (key ∈ keys)) as [Hin|Hin].
  - rewrite decide_True; [done | by right].
  - destruct (decide (key = k)) as [->|Hne].
    + rewrite decide_True; [| by left]. apply lookup_insert_eq.
    + rewrite decide_False; [by apply lookup_insert_ne |].
      intros [?|?]%elem_of_cons; done.
Qed.

Lemma set_events_set_events r1 r2 (c : cache) :
  set_events r2 (set_events r1 c) = set_events r2 c.
Proof. done. Qed.

Lemma new_queues_run field flags (c : cache) r :
  cache_events c = Some r ->
  new_queues (field, flags) c =
    Some (Outcome ((fun flag => NewQueue field flag) <$> declared_flags flags) (inl tt)
            (set_events
               (Some (empty_queues ((fun flag => (field, flag)) <$> declared_flags flags) r))
               c)).
Proof.
  intros Hr. unfold new_queues, declared_flags.
  assert (c = set_events (Some r) c) as Hc by (by destruct c; simpl in *; subst).
  rewrite Hc at 1. clear Hr Hc. revert r.
  induction EventFlag as [|flag flags' IH]; intros r; [done |].
  simpl for_each. rewrite seq_run, filter_cons.
  destruct (has_flag flags flag) eqn:Hf.
  - rewrite decide_True by done. unfold mbind, M_bind, write, emit; simpl.
    unfold set_queue, registry_of; simpl. rewrite set_events_set_events, IH.
    done.
  - rewrite decide_False by done. unfold mret, M_ret. rewrite prepend_nil.
    apply IH.
Qed.

Lemma new_queues_all items (c : cache) r :
  cache_events c = Some r ->
  for_each items new_queues c =
    Some (Outcome
            (('(field, flags) ← items; (fun flag => NewQueue field flag) <$> declared_flags flags))
            (inl tt)
            (set_events
               (Some (empty_queues
                        ('(field, flags) ← items;
                         (fun flag => (field, flag)) <$> declared_flags flags) r))
               c)).
Proof.
  revert c r. induction items as [|[field flags] items IH]; intros c r Hr.
  - simpl. unfold mret, M_ret. do 2 f_equal. by destruct c; simpl in *; subst.
  - rewrite for_each_cons, seq_run, (new_queues_run _ _ _ r Hr).
    erewrite IH by done. simpl. rewrite empty_queues_app. done.
Qed.

Lemma new_registry_run (c : cache) :
  new_registry __event_fields__ c =
    Some (Outcome (NewRegistry :: new_queue_events) (inl tt)
            (set_events (Some (empty_queues declared_keys ∅)) c)).
Proof.
  unfold new_registry. rewrite seq_run. unfold write at 1.
  rewrite seq_run. unfold emit at 1.
  rewrite (new_queues_all _ _ ∅) by done. done.
Qed.

Lemma mutex_run (c : cache) :
  __mutex__ c =
    Some (Outcome (lock_events c) (inl tt)
            (set_mutex (Some (default false (cache_mutex c))) c)).
Proof.
  unfold __mutex__, lock_events. rewrite bind_run. unfold read.
  by destruct c as [[held|] r m f].
Qed.

Lemma with_mutex_run {A} (body : M A) (c : cache) :
  cache_mutex c <> Some true ->
  with_mutex body c =
    match body (set_mutex (Some true) c) with
    | None => None
    | Some (Outcome t r c') =>
        Some (Outcome (Acquire :: t ++ [Release]) r (set_mutex (Some false) c'))
    end.
Proof.
  intros Hfree. unfold with_mutex. rewrite seq_run. unfold acquire.
  destruct (cache_mutex c) as [[]|] eqn:Hm; try done.
  all: unfold try_finally, release, prepend, mbind, M_bind, write, emit; simpl.
  all: by destruct (body _) as [[t r c']|].
Qed.

Lemma events_built (c : cache) r :
  cache_events c = Some r -> __events__ __event_fields__ c = Some (Outcome [] (inl r) c).
Proof. intros Hr. unfold __events__. rewrite bind_run. unfold read. by rewrite Hr. Qed.

Lemma events_first (c : cache) :
  cache_events c = None -> cache_mutex c <> Some true ->
  __events__ __event_fields__ c =
    Some (Outcome (lock_events c ++ Acquire :: (NewRegistry :: new_queue_events) ++ [Release])
            (inl (empty_queues declared_keys ∅))
            (set_mutex (Some false) (set_events (Some (empty_queues declared_keys ∅)) c))).
Proof.
  intros Hr Hfree. unfold __events__. rewrite bind_run. unfold read. rewrite Hr.
  rewrite seq_run, mutex_run, seq_run, with_mutex_run, new_registry_run.
  - simpl. by rewrite app_nil_r.
  - simpl. by destruct (cache_mutex c) as [[]|].
Qed.

Lemma elem_of_declared_keys field flag :
  (field, flag) ∈ declared_keys <->
  exists flags, (field, flags) ∈ __event_fields__ /\ flag ∈ EventFlag /\
                has_flag flags flag = true.
Proof.
  unfold declared_keys. rewrite list_elem_of_bind. split.
  - intros ([f flags] & Hin & Hdecl). apply list_elem_of_fmap in Hin as (fl & [= -> ->] & Hfl).
    apply list_elem_of_filter in Hfl as [Hhas Hfl]. eauto.
  - intros (flags & Hdecl & Hfl & Hhas). exists (field, flags). split; [| done].
    apply list_elem_of_fmap. exists flag. split; [done |].
    by apply list_elem_of_filter.
Qed.


(** *** Notification *)

Lemma calls_app (t1 t2 : list event) : calls (t1 ++ t2) = calls t1 ++ calls t2.
Proof. apply omap_app. Qed.

Lemma invoke_run cb field event_flags (c : cache) r c' :
  call cb c field event_flags = Some (r, c') ->
  invoke call cb field event_flags c = Some (Outcome [Call cb c field event_flags] r c').
Proof. intros H. unfold invoke. by rewrite H. Qed.

Lemma run_queue_S n key i field event_flags (c : cache) :
  run_queue call (S n) key i field event_flags c =
    match registry_of c !! key ≫= (.!! i) with
    | None => Some (Outcome [] (inl tt) c)
    | Some cb =>
        (invoke call cb field event_flags;;
         run_queue call n key (S i) field event_flags) c
    end.
Proof.
  simpl. rewrite bind_run. unfold read.
  destruct (registry_of c !! key ≫= (.!! i)); by rewrite prepend_nil.
Qed.

(** A queue that the callbacks leave as it is, and whose callbacks
    return, is called from its first to its last callback. *)
Lemma run_queue_calls (P : cache -> Prop) key queue field event_flags :
  (forall c, P c -> registry_of c !! key = Some queue) ->
  (forall cb c, cb ∈ queue -> P c ->
     exists c', call cb c field event_flags = Some (inl tt, c') /\ P c') ->
  forall n i (c : cache),
    P c -> length queue - i < n ->
    exists t c',
      run_queue call n key i field event_flags c = Some (Outcome t (inl tt) c') /\
      P c' /\
      calls t = (fun cb => (cb, field, event_flags)) <$> drop i queue /\
      Forall (called_with P) t.
Proof.
  intros Hqueue Hcall. induction n as [|n IH]; intros i c Hc Hfuel.
  - lia.
  - rewrite run_queue_S, (Hqueue c Hc). simpl.
    destruct (queue !! i) as [cb|] eqn:Hi.
    + destruct (Hcall cb c) as (c1 & Hcb & Hc1); [by eapply list_elem_of_lookup_2 | done |].
      rewrite seq_run, (invoke_run _ _ _ _ _ _ Hcb).
      apply lookup_lt_Some in Hi as Hlt.
      destruct (IH (S i) c1 Hc1) as (t & c' & -> & Hc' & Hcalls & Ht); [lia |].
      eexists _, c'. split; [done |]. split; [done |]. simpl. split.
      * rewrite Hcalls. by rewrite (drop_S _ _ _ Hi).
      * by constructor.
    + exists [], c. rewrite drop_ge by (by apply lookup_ge_None). done.
Qed.

Lemma matched_queues_cons r field event_flags flag flags :
  matched_queues r field event_flags (flag :: flags) =
    (if has_flag event_flags flag then default [] (r !! (field, flag)) else [])
    ++ matched_queues r field event_flags flags.
Proof.
  unfold matched_queues. rewrite filter_cons.
  destruct (has_flag event_flags flag); [by rewrite decide_True | by rewrite decide_False].
Qed.

Lemma notify_flags_calls (P : cache -> Prop) r field event_flags flags :
  (forall c flag, P c -> flag ∈ flags -> has_flag event_flags flag = true ->
     registry_of c !! (field, flag) = r !! (field, flag)) ->
  (forall flag, flag ∈ flags -> has_flag event_flags flag = true ->
     exists queue, r !! (field, flag) = Some queue /\ length queue < fuel) ->
  (forall cb c, cb ∈ matched_queues r field event_flags flags -> P c ->
     exists c', call cb c field event_flags = Some (inl tt, c') /\ P c') ->
  forall c : cache,
    P c ->
    exists t c',
      for_each flags (notify_flag call fuel field event_flags) c =
        Some (Outcome t (inl tt) c') /\
      P c' /\
      calls t = (fun cb => (cb, field, event_flags)) <$>
                  matched_queues r field event_flags flags /\
      Forall (called_with P) t.
Proof.
  induction flags as [|flag flags IH]; intros Hreg Hsup Hcall c Hc.
  - exists [], c. done.
  - rewrite for_each_cons, seq_run, matched_queues_cons.
    assert (exists t c1,
              notify_flag call fuel field event_flags flag c = Some (Outcome t (inl tt) c1) /\
              P c1 /\
              calls t = (fun cb => (cb, field, event_flags)) <$>
                          (if has_flag event_flags flag
                           then default [] (r !! (field, flag)) else []) /\
              Forall (called_with P) t) as (t1 & c1 & -> & Hc1 & Hcalls1 & Ht1).
    { unfold notify_flag. destruct (has_flag event_flags flag) eqn:Hflag.
      - destruct (Hsup flag) as (queue & Hqueue & Hfuel); [by left | done |].
        rewrite bind_run. unfold read.
        rewrite (Hreg c flag Hc), Hqueue, prepend_nil by (done || by left).
        destruct (run_queue_calls
                    (fun c => P c /\ registry_of c !! (field, flag) = Some queue)
                    (field, flag) queue field event_flags) with (n := fuel) (i := 0) (c := c)
          as (t & c1 & Hrun & [Hc1 _] & Hcalls & Ht).
        + by intros ? [_ ?].
        + intros cb c0 Hcb [Hc0 _].
          destruct (Hcall cb c0) as (c' & Hcb' & Hc'); [| done |].
          { rewrite matched_queues_cons, Hflag, Hqueue. simpl.
            apply elem_of_app. by left. }
          exists c'. split; [done |]. split; [done |].
          rewrite (Hreg c' flag Hc'); [done | by left | done].
        + split; [done |]. rewrite (Hreg c flag Hc); [done | by left | done].
        + lia.
        + exists t, c1. split; [done |]. split; [done |]. split; [done |].
          eapply Forall_impl; [exact Ht |]. by intros [] ?; simpl in *; try tauto.
      - exists [], c. done. }
    destruct (IH) with (c := c1) as (t2 & c2 & -> & Hc2 & Hcalls2 & Ht2).
    + intros c0 flag0 ? ? ?. apply Hreg; [done | by right | done].
    + intros flag0 ? ?. apply Hsup; [by right | done].
    + intros cb c0 Hcb ?. apply Hcall; [| done].
      rewrite matched_queues_cons. apply elem_of_app. by right.
    + done.
    + exists (t1 ++ t2), c2. split; [done |]. split; [done |]. split.
      * by rewrite calls_app, Hcalls1, Hcalls2, fmap_app.
      * by apply Forall_app.
Qed.

Lemma is_muted_run (c : cache) :
  is_muted c =
    Some (Outcome [] (inl (default false (cache_is_muted c)))
            (set_is_muted (Some (default false (cache_is_muted c))) c)).
Proof.
  unfold is_muted. rewrite bind_run. unfold read.
  by destruct c as [? ? [|] ?].
Qed.

Lemma notify_run field event_flags (c : cache) :
  notify __event_fields__ call fuel field event_flags c =
    if default false (cache_is_muted c) then Some (Outcome [] (inl tt) c)
    else _notify __event_fields__ call fuel field event_flags
           (set_is_muted (Some false) c).
Proof.
  unfold notify. rewrite bind_run, is_muted_run.
  destruct c as [? ? [[]|] ?]; simpl; by rewrite ?prepend_nil.
Qed.

Lemma notify_built field event_flags (c : cache) :
  is_Some (cache_events c) ->
  _notify __event_fields__ call fuel field event_flags c =
    for_each EventFlag (notify_flag call fuel field event_flags) c.
Proof.
  intros [r Hr]. unfold _notify. rewrite seq_run, (events_built c r Hr).
  apply prepend_nil.
Qed.

(** *** Registration *)

Lemma subscribe_key_run field cb key (c : cache) queue :
  registry_of c !! key = Some queue -> cache_mutex c <> Some true ->
  subscribe_key field cb key c =
    Some (Outcome [Acquire; Release] (inl tt)
            (set_mutex (Some false)
               (set_events (Some (alter (register cb) key (registry_of c))) c))).
Proof.
  intros Hq Hfree. unfold subscribe_key. rewrite bind_run. unfold read.
  rewrite Hq, prepend_nil, with_mutex_run, bind_run by done. unfold read.
  change (registry_of (set_mutex (Some true) c)) with (registry_of c).
  rewrite Hq. simpl default.
  assert (alter (register cb) key (registry_of c) =
          <[key := register cb queue]> (registry_of c)) as ->.
  { apply map_eq. intros k. rewrite lookup_alter, lookup_insert.
    destruct (decide (key = k)) as [<-|]; [by rewrite Hq | done]. }
  unfold register. destruct (decide (cb ∈ queue)) as [Hin|Hin].
  - rewrite !(bool_decide_eq_true_2 _ Hin), insert_id by done.
    unfold mret, M_ret. simpl. do 2 f_equal.
    unfold registry_of in Hq. destruct c as [? [r|] ? ?]; simpl in *; [done |].
    by rewrite lookup_empty in Hq.
  - rewrite !(bool_decide_eq_false_2 _ Hin). done.
Qed.

Lemma registry_of_set_events r (c : cache) : registry_of (set_events (Some r) c) = r.
Proof. done. Qed.

Lemma set_mutex_id (c : cache) m : cache_mutex c = m -> set_mutex m c = c.
Proof. intros <-. by destruct c. Qed.

Lemma set_events_id (c : cache) r : cache_events c = r -> set_events r c = c.
Proof. intros <-. by destruct c. Qed.

Lemma registry_of_Some (c : cache) r : cache_events c = Some r -> registry_of c = r.
Proof. unfold registry_of. by intros ->. Qed.

Lemma registry_of_lookup_Some (c : cache) key queue :
  registry_of c !! key = Some queue ->
  exists r, cache_events c = Some r /\ r !! key = Some queue.
Proof.
  unfold registry_of. destruct (cache_events c) as [r|]; simpl; [by eauto |].
  by rewrite lookup_empty.
Qed.

Lemma subscribe_keys_run field cb keys (c : cache) r :
  cache_events c = Some r -> cache_mutex c = Some false ->
  (forall key, key ∈ keys -> is_Some (r !! key)) ->
  for_each keys (subscribe_key field cb) c =
    Some (Outcome (keys ≫= (fun _ => [Acquire; Release])) (inl tt)
            (set_events (Some (registered cb keys r)) c)).
Proof.
  revert c r. induction keys as [|key keys IH]; intros c r Hr Hfree Hsup.
  - simpl. unfold mret, M_ret. by rewrite set_events_id.
  - destruct (Hsup key) as [queue Hqueue]; [by left |].
    rewrite for_each_cons, seq_run.
    rewrite (subscribe_key_run field cb key c queue), (registry_of_Some c r Hr);
      [| by rewrite (registry_of_Some c r Hr) | by rewrite Hfree].
    rewrite (set_mutex_id _ (Some false)) by done.
    rewrite (IH _ (alter (register cb) key r)); [done | done | done |].
    intros k Hk. rewrite lookup_alter.
    destruct (decide (key = k)) as [<-|]; [by rewrite Hqueue | apply Hsup; by right].
Qed.

Lemma subscribe_run field event_flags cb (c : cache) r :
  cache_mutex c <> Some true -> cache_events c = Some r ->
  (forall key, key ∈ _iter_queue_keys field event_flags -> is_Some (r !! key)) ->
  subscribe __event_fields__ field event_flags cb c =
    Some (Outcome
            (lock_events c ++
             (_iter_queue_keys field event_flags ≫= (fun _ => [Acquire; Release])))
            (inl cb)
            (set_events (Some (registered cb (_iter_queue_keys field event_flags) r))
               (set_mutex (Some false) c))).
Proof.
  intros Hfree Hr Hsup. unfold subscribe.
  rewrite seq_run, mutex_run, seq_run, (events_built _ r) by done.
  rewrite prepend_nil, bind_run.
  assert (default false (cache_mutex c) = false) as ->.
  { by destruct (cache_mutex c) as [[]|]. }
  rewrite (subscribe_keys_run _ _ _ _ r) by done.
  simpl. unfold mret, M_ret. simpl. by rewrite !app_nil_r.
Qed.

Lemma register_elem cb queue : cb ∈ register cb queue.
Proof.
  unfold register. case_bool_decide; [done |].
  apply elem_of_app. right. by apply list_elem_of_singleton.
Qed.

Lemma register_registered cb queue : cb ∈ queue -> register cb queue = queue.
Proof. intros Hin. unfold register. by rewrite bool_decide_eq_true_2. Qed.

Lemma register_NoDup cb queue : NoDup queue -> NoDup (register cb queue).
Proof.
  intros Hq. unfold register. case_bool_decide as Hin; [done |].
  apply NoDup_app. split; [done |]. split; [| apply NoDup_singleton].
  intros x Hx ->%list_elem_of_singleton. done.
Qed.

Lemma registered_lookup cb keys r key :
  registered cb keys r !! key =
    (if decide (key ∈ keys) then register cb else id) <$> r !! key.
Proof.
  revert r. induction keys as [|k keys IH]; intros r.
  - destruct (decide (key ∈ [])) as [[]%elem_of_nil|]. simpl. by rewrite option_fmap_id.
  - change (registered cb (k :: keys) r) with (registered cb keys (alter (register cb) k r)).
    rewrite IH, lookup_alter. destruct (decide (k = key)) as [->|Hne].
    + rewrite (decide_True (P := key ∈ key :: keys)) by (by left).
      destruct (r !! key) as [queue|]; [| done]. simpl. f_equal.
      destruct (decide (key ∈ keys)); [| done].
      apply register_registered, register_elem.
    + destruct (decide (key ∈ keys)) as [Hin|Hin].
      * rewrite decide_True; [done | by right].
      * rewrite decide_False; [done |]. intros [?|?]%elem_of_cons; done.
Qed.

Lemma elem_of_iter_queue_keys field event_flags key :
  key ∈ _iter_queue_keys field event_flags <->
  key.1 = field /\ key.2 ∈ EventFlag /\ has_flag event_flags key.2 = true.
Proof.
  unfold _iter_queue_keys, __EVENT_FLAGS. rewrite list_elem_of_fmap. split.
  - intros (flag & -> & [? ?]%list_elem_of_filter). done.
  - destruct key as [f flag]. simpl. intros (-> & ? & ?). exists flag.
    split; [done |]. by apply list_elem_of_filter.
Qed.

(** A single event flag selects its own queue only. *)
Lemma iter_queue_keys_single field flag :
  flag ∈ EventFlag -> _iter_queue_keys field flag = [(field, flag)].
Proof.
  unfold EventFlag. rewrite !elem_of_cons, elem_of_nil.
  intros [->|[->|[->|[->|[]]]]]; reflexivity.
Qed.

Lemma matched_queues_single r field flag :
  flag ∈ EventFlag ->
  matched_queues r field flag EventFlag = default [] (r !! (field, flag)).
Proof.
  unfold EventFlag. rewrite !elem_of_cons, elem_of_nil.
  intros [->|[->|[->|[->|[]]]]]; unfold matched_queues; simpl; by rewrite app_nil_r.
Qed.

Lemma has_flag_single flag flag' :
  flag ∈ EventFlag -> flag' ∈ EventFlag -> has_flag flag flag' = true -> flag' = flag.
Proof.
  unfold EventFlag. rewrite !elem_of_cons, !elem_of_nil.
  intros [->|[->|[->|[->|[]]]]] [->|[->|[->|[->|[]]]]]; vm_compute; congruence.
Qed.

Lemma notify_single_flag (c : cache) (field : string) (flag : Z) (queue : list callback) :
  flag ∈ EventFlag ->
  registry_of c !! (field, flag) = Some queue ->
  cache_is_muted c <> Some true ->
  (forall cb c, cb ∈ queue -> registry_of c !! (field, flag) = Some queue ->
     exists c', call cb c field flag = Some (inl tt, c') /\
                registry_of c' !! (field, flag) = Some queue) ->
  length queue < fuel ->
  exists t c',
    notify __event_fields__ call fuel field flag c = Some (Outcome t (inl tt) c') /\
    calls t = (fun cb => (cb, field, flag)) <$> queue /\
    Forall (called_with (fun self => registry_of self !! (field, flag) = Some queue)) t.
Proof.
  intros Hflag Hqueue Hmuted Hcall Hfuel.
  destruct (registry_of_lookup_Some c _ _ Hqueue) as (r & Hr & Hqueue').
  clear Hqueue. rename Hqueue' into Hqueue.
  rewrite notify_run.
  assert (default false (cache_is_muted c) = false) as ->.
  { by destruct (cache_is_muted c) as [[]|]. }
  rewrite notify_built by (simpl; by rewrite Hr).
  destruct (notify_flags_calls
              (fun c => registry_of c !! (field, flag) = Some queue)
              r field flag EventFlag) with (c := set_is_muted (Some false) c)
    as (t & c' & Hrun & _ & Hcalls & Ht).
  - intros c0 flag' Hc0 Hflag' Hhas.
    rewrite (has_flag_single flag flag') by done. by rewrite Hc0.
  - intros flag' Hflag' Hhas. rewrite (has_flag_single flag flag') by done. eauto.
  - intros cb c0. rewrite matched_queues_single, Hqueue by done. apply Hcall.
  - unfold registry_of. simpl. by rewrite Hr.
  - exists t, c'. rewrite matched_queues_single, Hqueue in Hcalls by done. done.
Qed.

Lemma subscribe_single_flag (c : cache) (field : string) (flag : Z) queue cb :
  flag ∈ EventFlag ->
  registry_of c !! (field, flag) = Some queue ->
  cache_mutex c <> Some true ->
  exists t c',
    subscribe __event_fields__ field flag cb c = Some (Outcome t (inl cb) c') /\
    registry_of c' !! (field, flag) =
      Some (if bool_decide (cb ∈ queue) then queue else queue ++ [cb]) /\
    forall key, key <> (field, flag) -> registry_of c' !! key = registry_of c !! key.
Proof.
  intros Hflag Hqueue Hfree.
  destruct (registry_of_lookup_Some c _ _ Hqueue) as (r & Hr & Hqueue').
  clear Hqueue. rename Hqueue' into Hqueue.
  rewrite (subscribe_run _ _ _ _ r), iter_queue_keys_single by
    (done || (rewrite iter_queue_keys_single by done;
              intros ? ->%list_elem_of_singleton; by rewrite Hqueue)).
  do 2 eexists. split; [done |]. rewrite registry_of_set_events. split.
  - rewrite registered_lookup, decide_True, Hqueue by (by left). done.
  - intros key Hkey. rewrite registered_lookup, decide_False.
    + unfold registry_of. simpl. rewrite Hr. by rewrite option_fmap_id.
    + by intros ->%list_elem_of_singleton.
Qed.


(** *** Properties that every step of a method maintains *)

Lemma maintains_ret {A} (P : cache -> Prop) (a : A) : maintains P (mret a).
Proof. intros c out [= <-] Hc. by split. Qed.

Lemma maintains_raise {A} (P : cache -> Prop) e : maintains P (raise (A := A) e).
Proof. intros c out [= <-] Hc. by split. Qed.

Lemma maintains_never {A} (P : cache -> Prop) : maintains P (fun _ => None : option (outcome A)).
Proof. by intros c out ?. Qed.

Lemma maintains_write (P : cache -> Prop) g : (forall c, P c -> P (g c)) -> maintains P (write g).
Proof. intros Hg c out [= <-] Hc. split; [by apply Hg | done]. Qed.

Lemma maintains_emit (P : cache -> Prop) (ev : event) : self_satisfies (fun _ => False) ev -> maintains P (emit ev).
Proof.
  intros Hev c out [= <-] Hc. split; [done |].
  constructor; [| done]. by destruct ev.
Qed.

Lemma maintains_bind {A B} (P : cache -> Prop) (m : M A) (f : A -> M B) :
  maintains P m -> (forall a, maintains P (f a)) -> maintains P (m ≫= f).
Proof.
  intros Hm Hf c out. rewrite bind_run.
  destruct (m c) as [[t [a|e] c']|] eqn:Hmc; [| | done].
  - intros (out' & Hfa & -> & _ & ->)%prepend_Some Hc.
    destruct (Hm c _ Hmc Hc) as [Hc' Ht]. simpl in *.
    destruct (Hf a c' out' Hfa Hc') as [Hout' Ht'].
    split; [done | by apply Forall_app].
  - intros [= <-] Hc. apply (Hm c _ Hmc Hc).
Qed.

Lemma maintains_read {A} (P : cache -> Prop) (f : cache -> M A) :
  (forall c, P c -> maintains P (f c)) -> maintains P (read ≫= f).
Proof.
  intros Hf c out. rewrite bind_run. unfold read. rewrite prepend_nil.
  intros Hout Hc. by apply (Hf c Hc c out).
Qed.

Lemma maintains_for_each {A} (P : cache -> Prop) (xs : list A) (body : A -> M unit) :
  (forall x, x ∈ xs -> maintains P (body x)) -> maintains P (for_each xs body).
Proof.
  induction xs as [|x xs IH]; intros Hbody; [apply maintains_ret |].
  rewrite for_each_cons. apply maintains_bind; [apply Hbody; by left |].
  intros _. apply IH. intros y Hy. apply Hbody. by right.
Qed.

Lemma maintains_try_finally {A} (P : cache -> Prop) (body : M A) (cleanup : M unit) :
  maintains P body -> maintains P cleanup -> maintains P (try_finally body cleanup).
Proof.
  intros Hbody Hcleanup c out. unfold try_finally.
  destruct (body c) as [[t r c']|] eqn:Hb; [| done].
  destruct (cleanup c') as [[t' r' c'']|] eqn:Hc'; [| done].
  intros Hout Hc. destruct (Hbody c _ Hb Hc) as [Hc1 Ht]. simpl in *.
  destruct (Hcleanup c' _ Hc' Hc1) as [Hc2 Ht']. simpl in *.
  destruct r'; injection Hout as <-; (split; [done | by apply Forall_app]).
Qed.

Section Stable.
Context (P : cache -> Prop) (HP : stable P).

Lemma maintains_mutex : maintains P __mutex__.
Proof.
  apply maintains_read. intros c _. destruct (cache_mutex c); [apply maintains_ret |].
  apply maintains_bind; [| intros _; by apply maintains_emit].
  apply maintains_write. intros ?. apply HP.
Qed.

Lemma maintains_with_mutex {A} (body : M A) :
  maintains P body -> maintains P (with_mutex body).
Proof.
  intros Hbody. apply maintains_bind.
  - intros c out. unfold acquire. destruct (cache_mutex c) as [[]|]; [done | |];
      intros [= <-] Hc; (split; [by apply HP | by repeat constructor]).
  - intros _. apply maintains_try_finally; [done |].
    apply maintains_bind; [| intros _; by apply maintains_emit].
    apply maintains_write. intros ?. apply HP.
Qed.

Lemma maintains_events : maintains P (__events__ __event_fields__).
Proof.
  apply maintains_read. intros c _. destruct (cache_events c); [apply maintains_ret |].
  apply maintains_bind; [apply maintains_mutex |]. intros _.
  apply maintains_bind.
  - apply maintains_with_mutex. unfold new_registry.
    apply maintains_bind; [apply maintains_write; intros ?; apply HP |]. intros _.
    apply maintains_bind; [by apply maintains_emit |]. intros _.
    apply maintains_for_each. intros [field flags] _. unfold new_queues.
    apply maintains_for_each. intros flag _.
    destruct (has_flag flags flag); [| apply maintains_ret].
    apply maintains_bind; [| intros _; by apply maintains_emit].
    apply maintains_write. intros ?. apply HP.
  - intros _. apply maintains_read. intros ? _. apply maintains_ret.
Qed.

Lemma maintains_invoke cb field event_flags :
  maintains P (invoke call cb field event_flags).
Proof.
  intros c out. unfold invoke.
  destruct (call cb c field event_flags) as [[r c']|] eqn:Hcall; [| done].
  intros [= <-] Hc. split; [by eapply HP | by repeat constructor].
Qed.

Lemma maintains_run_queue n key i field event_flags :
  maintains P (run_queue call n key i field event_flags).
Proof.
  revert i. induction n as [|n IH]; intros i; [apply maintains_never |].
  simpl. apply maintains_read. intros c _.
  destruct (registry_of c !! key ≫= (.!! i)); [| apply maintains_ret].
  apply maintains_bind; [apply maintains_invoke | intros _; apply IH].
Qed.

Lemma maintains_notify field event_flags :
  maintains P (_notify __event_fields__ call fuel field event_flags).
Proof.
  apply maintains_bind; [apply maintains_events |]. intros _.
  apply maintains_for_each. intros flag _. unfold notify_flag.
  destruct (has_flag event_flags flag); [| apply maintains_ret].
  apply maintains_read. intros c _.
  destruct (registry_of c !! (field, flag)); [| apply maintains_raise].
  apply maintains_run_queue.
Qed.
End Stable.

(** *** Muting *)

Lemma notify_once_run field event_flags (c : cache) :
  notify_once __event_fields__ call fuel field event_flags c =
    if default false (cache_is_muted c) then Some (Outcome [] (inl tt) c)
    else
      match _notify __event_fields__ call fuel field event_flags
              (set_is_muted (Some true) c) with
      | None => None
      | Some (Outcome t r c') => Some (Outcome t r (set_is_muted (Some false) c'))
      end.
Proof.
  unfold notify_once. rewrite bind_run, is_muted_run.
  destruct (default false (cache_is_muted c)) eqn:Hm.
  - simpl. unfold mret, M_ret. simpl. do 2 f_equal.
    destruct c as [? ? [[]|] ?]; done.
  - cbn [negb]. rewrite prepend_nil. unfold suppressed.
    rewrite bind_run. unfold read. cbn [cache_is_muted set_is_muted]. rewrite prepend_nil.
    unfold try_finally. rewrite seq_run. unfold write. rewrite prepend_nil.
    cbn [cache_is_muted set_is_muted cache_events cache_mutex cache_fields].
    change (Cache (cache_mutex c) (cache_events c) (Some true) (cache_fields c))
      with (set_is_muted (Some true) c).
    destruct (_notify _ _ _ _ _ _) as [[t r c']|]; [| done].
    by rewrite app_nil_r.
Qed.


(** *** No callback twice in a queue *)

Lemma list_remove_NoDup cb queue queue' :
  list_remove cb queue = Some queue' -> NoDup queue -> NoDup queue'.
Proof.
  revert queue'. induction queue as [|x queue IH]; intros queue'; [done |]. simpl.
  destruct (decide (x = cb)) as [->|Hne].
  - intros [= <-] Hq. by apply NoDup_cons in Hq as [_ ?].
  - destruct (list_remove cb queue) as [q|] eqn:Hrem; [| done].
    intros [= <-] [Hx Hq]%NoDup_cons. apply NoDup_cons. split; [| by apply IH].
    intros Hin. apply Hx. clear -Hrem Hin. revert q Hrem Hin.
    induction queue as [|y queue IH]; intros q; [done |]. simpl.
    destruct (decide (y = cb)) as [->|].
    + intros [= <-] ?. by right.
    + destruct (list_remove cb queue) as [q'|]; [| done]. intros [= <-].
      intros [->|?]%elem_of_cons; [by left | right; by eapply IH].
Qed.

Lemma queues_nodup_set_queue (c : cache) key queue :
  NoDup queue -> queues_nodup c -> queues_nodup (set_queue key queue c).
Proof.
  intros Hq Hc k q. unfold set_queue. rewrite registry_of_set_events, lookup_insert.
  destruct (decide (key = k)); [by intros [= <-] | apply Hc].
Qed.

Section NoDup.
Context (Hcall : forall cb c field event_flags r c',
            call cb c field event_flags = Some (r, c') ->
            queues_nodup c -> queues_nodup c').

Lemma stable_queues_nodup : stable queues_nodup.
Proof.
  split.
  - intros c m Hc. exact Hc.
  - intros c Hc key queue. rewrite registry_of_set_events, lookup_empty. done.
  - intros c key Hc. apply queues_nodup_set_queue; [constructor | done].
  - exact Hcall.
Qed.

Lemma maintains_write_same (g : cache -> cache) :
  (forall c, registry_of (g c) = registry_of c) -> maintains queues_nodup (write g).
Proof. intros Hg. apply maintains_write. intros c Hc key queue. rewrite Hg. apply Hc. Qed.

Lemma maintains_subscribe_key field cb key :
  maintains queues_nodup (subscribe_key field cb key).
Proof.
  apply maintains_read. intros c _.
  destruct (registry_of c !! key); [| apply maintains_raise].
  apply maintains_with_mutex; [apply stable_queues_nodup |].
  apply maintains_read. intros c' Hc'. simpl.
  case_bool_decide as Hin; [apply maintains_ret |].
  apply maintains_write. intros c0. apply queues_nodup_set_queue.
  apply NoDup_app. split; [| split; [| apply NoDup_singleton]].
  - destruct (registry_of c' !! key) as [q|] eqn:Hq; [by eapply Hc' | constructor].
  - intros x Hx ->%list_elem_of_singleton. done.
Qed.

Lemma maintains_unsubscribe_key field cb key :
  maintains queues_nodup (unsubscribe_key field cb key).
Proof.
  apply maintains_read. intros c _.
  destruct (registry_of c !! key); [| apply maintains_raise].
  apply maintains_with_mutex; [apply stable_queues_nodup |].
  apply maintains_read. intros c' Hc'. simpl.
  destruct (list_remove cb _) as [queue'|] eqn:Hrem; [| apply maintains_ret].
  apply maintains_write. intros c0. apply queues_nodup_set_queue.
  eapply list_remove_NoDup; [done |].
  destruct (registry_of c' !! key) as [q|] eqn:Hq; [by eapply Hc' | constructor].
Qed.

Lemma maintains_clear_queue key : maintains queues_nodup (clear_queue key).
Proof.
  apply maintains_with_mutex; [apply stable_queues_nodup |].
  apply maintains_write. intros c. apply queues_nodup_set_queue. constructor.
Qed.

Lemma maintains_run_method m : maintains queues_nodup (run_method m).
Proof.
  pose proof stable_queues_nodup as HP.
  destruct m as [field event_flags cb | field event_flags cb | field event_flags
                | field event_flags | field event_flags | | | | name flag_set v]; simpl.
  - apply maintains_bind; [| intros _; apply maintains_ret]. unfold subscribe.
    apply maintains_bind; [by apply maintains_mutex |]. intros _.
    apply maintains_bind; [by apply maintains_events |]. intros _.
    apply maintains_bind; [| intros _; apply maintains_ret].
    apply maintains_for_each. intros key _. apply maintains_subscribe_key.
  - unfold unsubscribe.
    apply maintains_bind; [by apply maintains_mutex |]. intros _.
    apply maintains_bind; [by apply maintains_events |]. intros _.
    apply maintains_for_each. intros key _. apply maintains_unsubscribe_key.
  - unfold unsubscribe_all.
    apply maintains_bind; [by apply maintains_mutex |]. intros _.
    apply maintains_bind; [by apply maintains_events |]. intros events.
    destruct (_ && _).
    + apply maintains_for_each. intros key _. apply maintains_clear_queue.
    + apply maintains_for_each. intros key _. unfold clear_selected.
      destruct (bool_decide _); [| apply maintains_ret].
      destruct (_ || _); [apply maintains_clear_queue | apply maintains_ret].
  - unfold notify. apply maintains_bind.
    + unfold is_muted. apply maintains_read. intros c _.
      destruct (cache_is_muted c); [apply maintains_ret |].
      apply maintains_bind; [by apply maintains_write_same | intros _; apply maintains_ret].
    + intros []; [apply maintains_ret | by apply maintains_notify].
  - unfold notify_once. apply maintains_bind.
    + unfold is_muted. apply maintains_read. intros c _.
      destruct (cache_is_muted c); [apply maintains_ret |].
      apply maintains_bind; [by apply maintains_write_same | intros _; apply maintains_ret].
    + intros []; [apply maintains_ret |]. simpl. unfold suppressed.
      apply maintains_read. intros c _.
      destruct (cache_is_muted c); [| apply maintains_raise].
      apply maintains_try_finally; [| by apply maintains_write_same].
      apply maintains_bind; [by apply maintains_write_same |]. intros _.
      by apply maintains_notify.
  - by apply maintains_write_same.
  - by apply maintains_write_same.
  - apply maintains_bind; [| intros _; apply maintains_ret].
    unfold is_muted. apply maintains_read. intros c _.
    destruct (cache_is_muted c); [apply maintains_ret |].
    apply maintains_bind; [by apply maintains_write_same | intros _; apply maintains_ret].
  - unfold subscribable_field_fset.
    apply maintains_bind; [by apply maintains_write_same |]. intros _.
    destruct (negb _); [| apply maintains_ret].
    unfold notify. apply maintains_bind.
    + unfold is_muted. apply maintains_read. intros c _.
      destruct (cache_is_muted c); [apply maintains_ret |].
      apply maintains_bind; [by apply maintains_write_same | intros _; apply maintains_ret].
    + intros []; [apply maintains_ret | by apply maintains_notify].
Qed.

Lemma reachable_queues_nodup c : reachable c -> queues_nodup c.
Proof.
  induction 1 as [c Hc | c m out _ IH Hrun].
  - intros key queue. unfold registry_of. rewrite Hc. simpl. by rewrite lookup_empty.
  - by destruct (maintains_run_method m c out Hrun IH).
Qed.
End NoDup.

Lemma count_app {A} `{EqDecision A} (x : A) l1 l2 :
  count x (l1 ++ l2) = count x l1 + count x l2.
Proof. unfold count. by rewrite filter_app, length_app. Qed.

Lemma count_not_elem {A} `{EqDecision A} (x : A) l : x ∉ l -> count x l = 0.
Proof.
  unfold count. induction l as [|y l IH]; [done |].
  intros [Hne Hl]%not_elem_of_cons. rewrite filter_cons, decide_False by done. by apply IH.
Qed.

Lemma count_NoDup {A} `{EqDecision A} (x : A) l :
  NoDup l -> count x l = if decide (x ∈ l) then 1 else 0.
Proof.
  induction l as [|y l IH]; intros Hl.
  - by destruct (decide (x ∈ [])) as [?%elem_of_nil|].
  - apply NoDup_cons in Hl as [Hy Hl]. change (y :: l) with ([y] ++ l) at 1.
    rewrite count_app. destruct (decide (y = x)) as [->|Hne].
    + rewrite (count_not_elem x l Hy), decide_True by (by left).
      unfold count. by rewrite filter_cons, decide_True.
    + rewrite (IH Hl). unfold count at 1. rewrite filter_cons, decide_False by done. simpl.
      destruct (decide (x ∈ l)) as [Hin|Hin].
      * rewrite decide_True; [done | by right].
      * rewrite decide_False; [done |]. intros [?|?]%elem_of_cons; done.
Qed.

Lemma count_fmap_call (cb : callback) (field : string) (event_flags : Z) (l : list callback) :
  count (cb, field, event_flags) ((fun cb => (cb, field, event_flags)) <$> l) = count cb l.
Proof.
  unfold count. induction l as [|x l IH]; [done |].
  rewrite fmap_cons, !filter_cons. destruct (decide (x = cb)) as [->|Hne].
  - rewrite decide_True by done. simpl. by rewrite IH.
  - rewrite decide_False by congruence. done.
Qed.

Lemma count_matched_queues r field event_flags flags cb :
  (forall flag queue, r !! (field, flag) = Some queue -> NoDup queue) ->
  count cb (matched_queues r field event_flags flags) =
    length (filter (fun flag => has_flag event_flags flag = true /\
                                cb ∈ default [] (r !! (field, flag))) flags).
Proof.
  intros Hr. induction flags as [|flag flags IH]; [done |].
  rewrite matched_queues_cons, count_app, IH, filter_cons.
  destruct (has_flag event_flags flag).
  - rewrite count_NoDup.
    + destruct (decide (cb ∈ default [] (r !! (field, flag)))).
      * by rewrite decide_True.
      * rewrite decide_False; [done | by intros [_ ?]].
    + destruct (r !! (field, flag)) eqn:Hq; [by eapply Hr | constructor].
  - rewrite decide_False; [done | by intros [? _]].
Qed.

Lemma registered_id cb keys r :
  (forall key, key ∈ keys -> exists queue, r !! key = Some queue /\ cb ∈ queue) ->
  registered cb keys r = r.
Proof.
  intros Hkeys. apply map_eq. intros key. rewrite registered_lookup.
  destruct (decide (key ∈ keys)) as [Hin|]; [| by rewrite option_fmap_id].
  destruct (Hkeys key Hin) as (queue & -> & Hcb). simpl.
  by rewrite register_registered.
Qed.


(** *** Assignment to a subscribable field *)

(** The class declares what [__set_name__] registers. *)
Lemma set_subscribable_member_declares (event_fields : list (string * Z)) name flags :
  (name, flags) ∈ _set_subscribable_member event_fields name flags.
Proof.
  unfold _set_subscribable_member.
  induction event_fields as [|[k v] event_fields IH]; simpl; [by left |].
  destruct (decide (k = name)) as [->|]; [by left | by right].
Qed.

End Proofs.

(** *** Worked cases *)
Import Samples.

Lemma returning_keeps_queue (queue : list callback) cb (c : cache (value := nat)) :
  cb ∈ queue -> registry_of c !! ("x", ON_SET) = Some queue ->
  exists c', returning cb c "x" ON_SET = Some (inl tt, c') /\
             registry_of c' !! ("x", ON_SET) = Some queue.
Proof. intros _ Hc. by exists c. Defined.







End SubscriptionSpec.


Module SharedSpec.
Import Shared.

Lemma getitem_setitem {V} (d : list (string * V)) key value k :
  Dict.getitem (Dict.setitem d key value) k =
    if decide (key = k) then Some value else Dict.getitem d k.
Proof.
  induction d as [|[k0 v0] d IH]; simpl.
  - by destruct (decide (key = k)).
  - destruct (decide (k0 = key)) as [->|Hne]; simpl.
    + by destruct (decide (key = k)).
    + rewrite IH. destruct (decide (k0 = k)) as [->|]; [| done].
      by rewrite decide_False by done.
Qed.

Lemma getitem_fmap {V W} (f : V -> W) (d : list (string * V)) k :
  Dict.getitem (prod_map id f <$> d) k = f <$> Dict.getitem d k.
Proof.
  induction d as [|[k0 v0] d IH]; [done |]. simpl.
  by destruct (decide (k0 = k)).
Qed.

Section CreateFunction.
Context {value : Type}.
Context (builtins : value) (sys_modules : gmap string loc) (default_module : loc).
Context (compile : string -> option (list string)).
Context (defines : string -> list (string * value) -> loc ->
                   gmap loc (list (string * value)) -> bool).

Local Abbreviation create_function :=
  (create_function builtins sys_modules default_module compile defines).
Local Abbreviation resolved_globals := (resolved_globals sys_modules default_module).

End CreateFunction.

(** *** Worked cases *)
Import Samples.


End SharedSpec.


Module CollectionsMore.
Import Collections Collections.IdentifierDict CollectionsSpec.

Local Abbreviation str := Str.str.
Local Abbreviation lit := Str.of_ascii.

Section Proofs.
Context {U : Str.unicode}.

(** *** Keys that are stored *)

Lemma join_nonspace sep ws : nonspace sep -> Forall nonspace ws -> nonspace (Str.join sep ws).
Proof.
  intros Hsep. induction 1 as [|w ws Hw Hws IH]; [constructor |].
  destruct ws as [|w' ws]; [done |].
  change (Str.join sep (w :: w' :: ws)) with (w ++ sep ++ Str.join sep (w' :: ws)).
  unfold nonspace in *. rewrite !Forall_app. done.
Qed.

(** The key [_format_key] computes has no whitespace. *)
Lemma formatted_nonspace s :
  Str.casefold_no_whitespace ->
  nonspace (Str.replace (Str.ord " ") (Str.ord "_")
              (Str.casefold (Str.join (lit " ") (Str.split s)))).
Proof.
  intros HU. rewrite (formatted_words _ HU). apply (casefold_nonspace _ HU).
  apply join_nonspace; [by repeat constructor | apply split_words_nonspace].
Qed.

Lemma casefold_fixed s :
  Forall (fun x => Str.casefold_char x = [x]) s -> Str.casefold s = s.
Proof.
  induction 1 as [|c s Hc _ IH]; [done |].
  by rewrite casefold_cons, Hc, IH.
Qed.

(** The key [_format_key] computes is its own case folding. *)
Lemma formatted_folded s :
  Str.casefold_folded ->
  Forall (fun x => Str.casefold_char x = [x])
    (Str.replace (Str.ord " ") (Str.ord "_") (Str.casefold s)).
Proof.
  intros HU. unfold Str.replace. apply Forall_fmap, Forall_forall.
  intros x (c & _ & Hx)%casefold_elem. simpl.
  case_decide; [reflexivity |].
  specialize (HU c). by eapply Forall_forall in HU.
Qed.

Lemma lstrip_nonspace s : nonspace s -> Str.lstrip s = s.
Proof. destruct 1 as [|c s Hc _]; simpl; [done |]. by rewrite Hc. Qed.

Lemma rstrip_nonspace s : nonspace s -> Str.rstrip s = s.
Proof.
  induction 1 as [|c s Hc _ IH]; simpl; [done |].
  rewrite IH, Hc. by destruct s.
Qed.

Lemma split_nonspace c s : nonspace (c :: s) -> Str.split (c :: s) = [c :: s].
Proof.
  revert c. induction s as [|c' s IH]; intros c [Hc Hs]%Forall_cons.
  - simpl. by rewrite Hc.
  - specialize (IH c' Hs). apply Forall_cons in Hs as [Hc' _].
    change (Str.split (c :: c' :: s))
      with (let words := Str.split (c' :: s) in
            if Str.isspace_char c then words
            else if Str.starts_word (c' :: s) then
              match words with
              | w :: ws => (c :: w) :: ws
              | [] => [[c]]
              end
            else [c] :: words).
    rewrite IH. simpl. by rewrite Hc, Hc'.
Qed.

Lemma formatted_key_shape key k :
  _format_key key = Return k ->
  Str.isidentifier k = true /\
  exists c k0,
    c :: k0 = Str.replace (Str.ord " ") (Str.ord "_")
                (Str.casefold (Str.join (lit " ") (Str.split (Str.strip key)))) /\
    k = (if Str.isalpha_char c then c :: k0 else Str.ord "_" :: c :: k0).
Proof. intros (Hid & c & k0 & Hk0 & ->)%format_key_Return. by eauto. Qed.

(** X1: whatever calls built the dictionary, each of its keys is a
    valid identifier; it has none of the letters [A] to [Z], which case
    folding does not produce, and no whitespace, which it does not
    produce of other characters. *)
Theorem stored_keys_are_identifiers {V} (d : composed V) (k : str) :
  built d -> is_Some (_object_value_ d !! k) ->
  Str.isidentifier k = true /\
  (Str.casefold_no_capitals -> Forall (fun c => Str.isupper_ascii c = false) k) /\
  (Str.casefold_no_whitespace -> Forall (fun c => Str.isspace_char c = false) k).
Proof.
  intros Hd Hk. destruct (built_keys_formatted d Hd k Hk) as [key Hkey].
  split; [by apply format_key_Return in Hkey as [? _] |].
  split; [intros HU; by apply (format_key_no_upper key k HU) |].
  intros HU. apply formatted_key_shape in Hkey as (_ & c & k0 & Hk0 & ->).
  pose proof (formatted_nonspace (Str.strip key) HU) as Hns. rewrite <- Hk0 in Hns.
  destruct (Str.isalpha_char c); [done | by constructor].
Qed.

(** A key without whitespace that is its own case folding is tested
    as it is. *)
Lemma format_key_fixed k :
  nonspace k -> Forall (fun x => Str.casefold_char x = [x]) k ->
  _format_key k = accept k k.
Proof.
  intros Hns Hfolded. rewrite format_key_accept. unfold Str.strip.
  rewrite (lstrip_nonspace _ Hns), (rstrip_nonspace _ Hns).
  destruct k as [|c s]; [done |].
  rewrite (split_nonspace c s Hns).
  change (Str.join (lit " ") [c :: s]) with (c :: s).
  by rewrite (casefold_fixed _ Hfolded), (replace_absent _ _ _ (nonspace_no_space _ Hns)).
Qed.

(** X2: a key that [_format_key] returns is accepted in its turn, and
    formatted to itself when it begins with a letter, to itself after
    one more underscore when it begins with an underscore.  This
    rests on two properties of case folding: it yields whitespace of
    whitespace only, and what it yields is folded. *)
Theorem formatted_key_is_formatted_again (key k : str) :
  Str.casefold_no_whitespace -> Str.casefold_folded ->
  _format_key key = Return k ->
  exists c s, k = c :: s /\
    _format_key k = Return (if Str.isalpha_char c then k else Str.ord "_" :: k).
Proof.
  intros Hws Hfold (Hid & c & k0 & Hk0 & Hk)%formatted_key_shape.
  pose proof (formatted_nonspace (Str.strip key) Hws) as Hns.
  pose proof (formatted_folded (Str.join (lit " ") (Str.split (Str.strip key))) Hfold)
    as Hfolded.
  rewrite <- Hk0 in Hns, Hfolded. clear Hk0.
  assert (exists c' s, k = c' :: s /\ nonspace k /\
            Forall (fun x => Str.casefold_char x = [x]) k /\
            (if Str.isalpha_char c then c' = c else c' = Str.ord "_"))
    as (c' & s & Hcs & Hns' & Hfolded' & Hc').
  { destruct (Str.isalpha_char c) eqn:Hc; subst k.
    - by exists c, k0.
    - exists (Str.ord "_"), (c :: k0).
      repeat split; [by constructor | by constructor]. }
  exists c', s. split; [done |].
  rewrite (format_key_fixed k Hns' Hfolded'). clear Hns Hfolded Hns' Hfolded'.
  destruct (Str.isalpha_char c) eqn:Hc; subst c' k; injection Hcs as <-; unfold accept.
  - by rewrite Hc, Hid.
  - change (Str.isalpha_char (Str.ord "_")) with false. cbv iota zeta.
    simpl in Hid |- *. by rewrite Hid.
Qed.

(** *** [update] *)

Lemma update_from_app {V} (d : composed V) (m1 m2 : list (str * V)) :
  update_from d (m1 ++ m2) =
    match (update_from d m1).2 with
    | Return _ => update_from (update_from d m1).1 m2
    | Raise e => update_from d m1
    end.
Proof.
  revert d. induction m1 as [|[k v] m1 IH]; intros d; [done |]. simpl.
  destruct (_format_key k); [| done]. apply IH.
Qed.

Lemma update_from_accepted {V} (d : composed V) (m : list (str * V)) (ks : list str) :
  Forall2 (fun kv k => _format_key kv.1 = Return k) m ks ->
  update_from d m =
    (Composed (foldl (fun o kv => <[kv.1 := kv.2]> o) (_object_value_ d) (zip ks m.*2)),
     Return tt).
Proof.
  intros H. revert d. induction H as [|[k0 v] k m ks Hk _ IH]; intros d; [by destruct d |].
  simpl in *. rewrite Hk. by rewrite IH.
Qed.

Lemma update_from_other {V} (d : composed V) (m : list (str * V)) (k : str) :
  Forall (fun kv => _format_key kv.1 <> Return k) m ->
  _object_value_ (update_from d m).1 !! k = _object_value_ d !! k.
Proof.
  intros H. revert d. induction H as [|[k0 v] m Hk _ IH]; intros d; [done |]. simpl in *.
  destruct (_format_key k0) as [k'|e] eqn:Hk0; [| done].
  rewrite IH. simpl. apply lookup_insert_ne. congruence.
Qed.

(** X3: [update] is not all-or-nothing.  It makes one dictionary of
    its arguments, [dict(m, **kwargs)], whose items are then stored one
    by one in their order; at the first key that cannot be formatted
    it raises [ValueError] about that key, and the items before it stay
    stored while the ones after it are not looked at.  The constructor
    behaves alike, since it calls [update] on an empty dictionary. *)
Theorem update_keeps_the_items_before_a_bad_key
    {V} (d : composed V) (m : option (list (str * V))) (kwargs m1 m2 : list (str * V))
    (ks : list str) (key : str) (value : V) :
  match m with None => kwargs | Some m => dict m kwargs end = m1 ++ (key, value) :: m2 ->
  Forall2 (fun kv k => _format_key kv.1 = Return k) m1 ks ->
  raises (_format_key key) ->
  let stored := foldl (fun o kv => <[kv.1 := kv.2]> o) in
  update d m kwargs =
    (Composed (stored (_object_value_ d) (zip ks m1.*2)), Raise (ValueError (Some key))) /\
  __init__ m kwargs =
    (Composed (stored ∅ (zip ks m1.*2)), Raise (ValueError (Some key))).
Proof.
  intros Hitems Hm1 Hkey stored.
  assert (forall d : composed V,
            update d m kwargs =
              (Composed (stored (_object_value_ d) (zip ks m1.*2)),
               Raise (ValueError (Some key)))) as H.
  { intros d0. unfold update. rewrite Hitems, update_from_app.
    rewrite (update_from_accepted d0 m1 ks Hm1). simpl.
    destruct (_format_key key) as [k|e] eqn:Hk; [done |].
    by rewrite (format_key_Raise _ _ Hk). }
  split; [apply H | apply (H (Composed ∅))].
Qed.

(** X4: when several items of the dictionary [update] makes of its
    arguments have keys with the same normalised form (keys that
    differ in case, say), the value of the last of them is the one
    stored. *)
Theorem update_later_item_wins
    {V} (d : composed V) (m : option (list (str * V))) (kwargs m1 m2 : list (str * V))
    (k1 k2 k : str) (v : V) :
  match m with None => kwargs | Some m => dict m kwargs end = m1 ++ (k2, v) :: m2 ->
  (update d m kwargs).2 = Return tt ->
  _format_key k2 = Return k -> _format_key k1 = Return k ->
  Forall (fun kv => _format_key kv.1 <> Return k) m2 ->
  get (update d m kwargs).1 k1 None = Return (Some v).
Proof.
  unfold update. intros -> Hok Hk2 Hk1 Hlater.
  rewrite update_from_app in Hok |- *.
  destruct (update_from d m1) as [d1 [[]|e]] eqn:Hm1; [| done]. simpl in *.
  rewrite Hk2 in Hok |- *. unfold get. simpl. rewrite Hk1.
  rewrite (update_from_other _ m2 k Hlater). simpl. by rewrite lookup_insert_eq.
Qed.

(** X5: an accepted key that is set can be read and popped under the
    same key, and is then gone: membership of its stored form is
    false, [get] returns the default, the subscript and [del] raise
    [KeyError] with the key as given, and [pop] without default raises
    [KeyError] with the formatted key. *)
Theorem item_is_set_read_and_popped
    {V} (d : composed V) (key k : str) (v : V) :
  _format_key key = Return k ->
  exists d1 d2 : composed V,
    __setitem__ d key v = Return d1 /\
    __getitem__ d1 key = Return v /\
    __contains__ d1 k = true /\
    pop d1 key None = Return (v, d2) /\
    _object_value_ d2 = delete k (_object_value_ d) /\
    __contains__ d2 k = false /\
    (forall default, get d2 key default = Return default) /\
    __getitem__ d2 key = Raise (KeyError key) /\
    __delitem__ d2 key = Raise (KeyError key) /\
    pop d2 key None = Raise (KeyError k).
Proof.
  intros Hid.
  exists (Composed (<[k := v]> (_object_value_ d))), (Composed (delete k (_object_value_ d))).
  destruct (operations_return (Composed (<[k := v]> (_object_value_ d))) key v None k Hid)
    as (Hget1 & _ & _ & _ & Hpop1).
  destruct (operations_return (Composed (delete k (_object_value_ d))) key v None k Hid)
    as (Hget2 & _ & _ & Hdel2 & Hpop2).
  destruct (operations_return d key v None k Hid) as (_ & _ & Hset & _).
  simpl in *.
  rewrite lookup_insert_eq in Hget1, Hpop1. rewrite lookup_delete_eq in Hget2, Hdel2, Hpop2.
  rewrite delete_insert_eq in Hpop1.
  split; [done |]. split; [done |].
  split; [unfold __contains__; simpl; by rewrite lookup_insert_eq, bool_decide_eq_true |].
  split; [done |]. split; [done |].
  split; [unfold __contains__; simpl; rewrite lookup_delete_eq, bool_decide_eq_false;
          by intros [? ?] |].
  split; [| done].
  intros default.
  destruct (operations_return (Composed (delete k (_object_value_ d))) key v default k Hid)
    as (_ & Hget & _).
  simpl in Hget. by rewrite lookup_delete_eq in Hget.
Qed.

End Proofs.

(** *** Worked cases *)
Import Latin.

Lemma stored_keys_are_identifiers_witness :
  Str.isidentifier (lit "max_size") = true /\
  Forall (fun c => Str.isupper_ascii c = false) (lit "max_size") /\
  Forall (fun c => Str.isspace_char c = false) (lit "max_size").
Proof.
  destruct (stored_keys_are_identifiers
              (__init__ (Some [(lit " Max  Size", 7)]) []).1 (lit "max_size"))
    as (Hid & Hup & Hsp).
  - apply built_init.
  - vm_compute. by eexists.
  - exact (conj Hid (conj (Hup latin_casefold_no_capitals)
                          (Hsp latin_casefold_no_whitespace))).
Defined.

Lemma formatted_key_is_formatted_again_witness :
  _format_key (lit "Max Size") = Return (lit "max_size") /\
  _format_key (lit "max_size") = Return (lit "max_size") /\
  _format_key (lit "_a") = Return (lit "__a") /\
  _format_key (lit "__a") = Return (lit "___a") /\
  _format_key sharp_s = Return (lit "ss") /\
  _format_key (lit "ss") = Return (lit "ss").
Proof.
  destruct (formatted_key_is_formatted_again (lit "Max Size") (lit "max_size")
              latin_casefold_no_whitespace latin_casefold_folded eq_refl)
    as (c & s & [= <- <-] & H1).
  destruct (formatted_key_is_formatted_again (lit "_a") (lit "__a")
              latin_casefold_no_whitespace latin_casefold_folded eq_refl)
    as (c' & s' & [= <- <-] & H2).
  destruct (formatted_key_is_formatted_again sharp_s (lit "ss")
              latin_casefold_no_whitespace latin_casefold_folded eq_refl)
    as (c'' & s'' & [= <- <-] & H3).
  exact (conj eq_refl (conj H1 (conj eq_refl (conj H2 (conj eq_refl H3))))).
Defined.

(** The items [("a", 1), ("b-c", 2), ("a", 3), ("e", 4)] make the
    dictionary [{"a": 3, "b-c": 2, "e": 4}]: the value stored under
    ["a"] before ["b-c"] is rejected is 3. *)
Lemma update_keeps_the_items_before_a_bad_key_witness :
  update (Composed (∅ : gmap str nat))
    (Some [(lit "a", 1); (lit "b-c", 2); (lit "a", 3); (lit "e", 4)]) [] =
    (Composed {[ lit "a" := 3 ]}, Raise (ValueError (Some (lit "b-c")))).
Proof.
  pose proof (update_keeps_the_items_before_a_bad_key (Composed (∅ : gmap str nat))
                (Some [(lit "a", 1); (lit "b-c", 2); (lit "a", 3); (lit "e", 4)]) []
                [(lit "a", 3)] [(lit "e", 4)] [lit "a"] (lit "b-c") 2) as H.
  destruct H as [H _].
  - reflexivity.
  - repeat constructor.
  - exact I.
  - exact H.
Defined.

(** The items [("x", 1), ("X", 2), ("x", 3)] make the dictionary
    [{"x": 3, "X": 2}], whose last item with the normalised key ["x"]
    has the value 2. *)
Lemma update_later_item_wins_witness :
  get (update (Composed (∅ : gmap str nat))
         (Some [(lit "x", 1); (lit "X", 2); (lit "x", 3)]) []).1
      (lit "x") None = Return (Some 2).
Proof.
  apply (update_later_item_wins (Composed ∅)
           (Some [(lit "x", 1); (lit "X", 2); (lit "x", 3)]) []
           [(lit "x", 3)] [] (lit "x") (lit "X") (lit "x") 2).
  - reflexivity.
  - reflexivity.
  - reflexivity.
  - reflexivity.
  - constructor.
Defined.

Lemma item_is_set_read_and_popped_witness :
  exists d1 d2 : composed nat,
    __setitem__ (Composed {[ lit "b" := 1 ]}) (lit "Max Size") 7 = Return d1 /\
    pop d1 (lit "max  size") None = Return (7, d2) /\
    __getitem__ d2 (lit "Max Size") = Raise (KeyError (lit "Max Size")) /\
    pop d2 (lit "Max Size") None = Raise (KeyError (lit "max_size")).
Proof.
  destruct (item_is_set_read_and_popped (Composed ({[ lit "b" := 1 ]} : gmap str nat))
              (lit "Max Size") (lit "max_size") 7 eq_refl)
    as (d1 & d2 & Hset & _ & _ & Hpop & Hd2 & _ & _ & Hget & _ & Hpop2).
  exists d1, d2. split; [exact Hset |]. split; [| by split].
  injection Hset as <-. destruct d2 as [o2]. simpl in Hd2. subst o2. reflexivity.
Defined.

End CollectionsMore.

Module ChainMapSpec.
Import ChainMaps.

Section Proofs.
Context {A : Type}.
Local Abbreviation value := (value A).
Local Abbreviation heap := (heap A).
Local Abbreviation dict := (list (string * value)).

(** *** Dictionaries *)

Lemma getitem_is_Some (d : dict) k : is_Some (Dict.getitem d k) <-> k ∈ Dict.keys d.
Proof.
  unfold Dict.keys. induction d as [|[k0 v0] d IH]; simpl.
  - split; [by intros [? ?] | by intros ?%elem_of_nil].
  - rewrite elem_of_cons. destruct (decide (k0 = k)) as [->|Hne].
    + split; [by left | by eexists].
    + rewrite IH. split; [by right | by intros [?|?]].
Qed.

Lemma getitem_None (d : dict) k : Dict.getitem d k = None <-> k ∉ Dict.keys d.
Proof. rewrite <- getitem_is_Some, eq_None_not_Some. done. Qed.

Lemma keys_setitem (d : dict) key v k :
  k ∈ Dict.keys (Dict.setitem d key v) <-> k = key \/ k ∈ Dict.keys d.
Proof.
  rewrite <- !getitem_is_Some, SharedSpec.getitem_setitem.
  destruct (decide (key = k)) as [->|Hne].
  - split; [by left | by eexists].
  - split; [by right | by intros [?|?]].
Qed.

Lemma NoDup_keys_setitem (d : dict) key v :
  NoDup (Dict.keys d) -> NoDup (Dict.keys (Dict.setitem d key v)).
Proof.
  unfold Dict.keys. induction d as [|[k0 v0] d IH]; simpl.
  - intros _. apply NoDup_singleton.
  - intros [Hk0 Hd]%NoDup_cons. destruct (decide (k0 = key)) as [->|Hne]; simpl.
    + by apply NoDup_cons.
    + apply NoDup_cons. split; [| by apply IH].
      intros Hin. apply (keys_setitem d key v k0) in Hin as [?|?]; done.
Qed.

Lemma keys_dict_update (d items : dict) k :
  k ∈ Dict.keys (dict_update d items) <-> k ∈ Dict.keys d \/ k ∈ Dict.keys items.
Proof.
  unfold dict_update. revert d. induction items as [|[k0 v0] items IH]; intros d; simpl.
  - change (Dict.keys (V := value) []) with (@nil string). rewrite elem_of_nil. tauto.
  - rewrite IH, keys_setitem.
    change (Dict.keys ((k0, v0) :: items)) with (k0 :: Dict.keys items).
    rewrite elem_of_cons. tauto.
Qed.

Lemma NoDup_keys_dict_update (d items : dict) :
  NoDup (Dict.keys d) -> NoDup (Dict.keys (dict_update d items)).
Proof.
  unfold dict_update. revert d. induction items as [|[k0 v0] items IH]; intros d Hd; [done |].
  simpl. by apply IH, NoDup_keys_setitem.
Qed.

Lemma getitem_dict_update (d items : dict) k :
  NoDup (Dict.keys items) ->
  Dict.getitem (dict_update d items) k =
    match Dict.getitem items k with
    | Some v => Some v
    | None => Dict.getitem d k
    end.
Proof.
  unfold dict_update. revert d. induction items as [|[k0 v0] items IH]; intros d; [done |].
  unfold Dict.keys. simpl. intros [Hk0 Hitems]%NoDup_cons.
  rewrite (IH _ Hitems), SharedSpec.getitem_setitem.
  destruct (decide (k0 = k)) as [->|Hne]; [| done].
  by apply getitem_None in Hk0 as ->.
Qed.

Lemma getitem_dict_del (d : dict) key k :
  Dict.getitem (dict_del d key) k =
    if decide (k = key) then None else Dict.getitem d k.
Proof.
  unfold dict_del. induction d as [|[k0 v0] d IH]; simpl.
  - by destruct (decide (k = key)).
  - rewrite filter_cons. simpl. destruct (decide (k0 <> key)) as [Hne|Heq%dec_stable]; simpl.
    + rewrite IH. destruct (decide (k0 = k)) as [->|]; [| done].
      by rewrite decide_False.
    + subst k0. rewrite IH. destruct (decide (k = key)) as [->|Hne]; [done |].
      by rewrite decide_False.
Qed.

Lemma NoDup_keys_from_items (items : dict) : NoDup (Dict.keys (Dict.from_items items)).
Proof. apply (NoDup_keys_dict_update [] items). constructor. Qed.

(** *** The heap *)

Lemma alloc_fresh (d : dict) (h : heap) : (alloc d h).1 ∉ dom h.
Proof. apply is_fresh. Qed.

Lemma deref_alloc (d : dict) (h : heap) : deref (alloc d h).2 (alloc d h).1 = d.
Proof. unfold deref, alloc. cbv zeta. simpl. by rewrite lookup_insert_eq. Qed.

Lemma deref_alloc_ne (d : dict) (h : heap) l :
  l ∈ dom h -> deref (alloc d h).2 l = deref h l.
Proof.
  intros Hl. unfold deref, alloc. cbv zeta. simpl. rewrite lookup_insert_ne; [done |].
  intros <-. by apply (is_fresh (dom h)).
Qed.

Lemma dom_alloc (d : dict) (h : heap) l : l ∈ dom h -> l ∈ dom (alloc d h).2.
Proof. unfold alloc. cbv zeta. simpl. set_solver. Qed.

Lemma deref_insert (h : heap) l d : deref (<[l := d]> h) l = d.
Proof. unfold deref. by rewrite lookup_insert_eq. Qed.

Lemma deref_insert_ne (h : heap) l l' d : l <> l' -> deref (<[l := d]> h) l' = deref h l'.
Proof. intros. unfold deref. by rewrite lookup_insert_ne. Qed.

Lemma first_holding_ext (h h' : heap) maps key :
  (forall l, l ∈ maps ->
     Dict.getitem (deref h l) key = Dict.getitem (deref h' l) key) ->
  first_holding h maps key = first_holding h' maps key.
Proof.
  induction maps as [|l ls IH]; intros Hsame; [done |]. simpl.
  rewrite (Hsame l) by (by left). rewrite IH; [done |].
  intros l' Hl'. apply Hsame. by right.
Qed.

Lemma getitem_ext (h h' : heap) maps key :
  (forall l, l ∈ maps ->
     Dict.getitem (deref h l) key = Dict.getitem (deref h' l) key) ->
  __getitem__ maps key h = __getitem__ maps key h'.
Proof. intros H. unfold __getitem__. by rewrite (first_holding_ext h h'). Qed.

Lemma as_mappings_Mapping (ls : list loc) (h : heap) :
  as_mappings (Mapping <$> ls) h = (ls, h).
Proof.
  induction ls as [|l ls IH]; [done |].
  rewrite fmap_cons. cbn [as_mappings as_mapping]. by rewrite IH.
Qed.

Lemma init_Mapping l (ls : list loc) (h : heap) :
  __init__ (Mapping l :: (Mapping <$> ls)) h = (l :: ls, h).
Proof. unfold __init__. cbn [as_mappings as_mapping]. by rewrite as_mappings_Mapping. Qed.

(** *** Iteration *)

Lemma keys_merged (h : heap) (maps : list loc) (d : dict) k :
  k ∈ Dict.keys (foldl (fun d l => dict_update d (deref h l)) d maps) <->
  k ∈ Dict.keys d \/ exists l, l ∈ maps /\ k ∈ Dict.keys (deref h l).
Proof.
  revert d. induction maps as [|l ls IH]; intros d; simpl.
  - split; [by left | intros [?|(? & ?%elem_of_nil & _)]; done].
  - rewrite IH, keys_dict_update. split.
    + intros [[?|?]|(l' & ? & ?)]; [by left | right; exists l | right; exists l'];
        (split; [| done]); by (left || right).
    + intros [?|(l' & [->|?]%elem_of_cons & ?)]; [by left; left | by left; right |].
      right. by exists l'.
Qed.

Lemma NoDup_merged (h : heap) (maps : list loc) (d : dict) :
  NoDup (Dict.keys d) ->
  NoDup (Dict.keys (foldl (fun d l => dict_update d (deref h l)) d maps)).
Proof.
  revert d. induction maps as [|l ls IH]; intros d Hd; [done |].
  simpl. by apply IH, NoDup_keys_dict_update.
Qed.

Lemma contains_spec (self : list loc) key (h : heap) :
  __contains__ self key h = true <->
  exists l, l ∈ self /\ key ∈ Dict.keys (deref h l).
Proof.
  unfold __contains__. induction self as [|l ls IH]; simpl.
  - split; [done | by intros (? & ?%elem_of_nil & _)].
  - rewrite orb_true_iff, IH, bool_decide_eq_true, getitem_is_Some. split.
    + intros [?|(l' & ? & ?)]; [exists l | exists l']; (split; [| done]); by (left || right).
    + intros (l' & [->|?]%elem_of_cons & ?); [by left | right; by exists l'].
Qed.

Lemma first_holding_is_Some (h : heap) (maps : list loc) key :
  is_Some (first_holding h maps key) <->
  exists l, l ∈ maps /\ key ∈ Dict.keys (deref h l).
Proof.
  induction maps as [|l ls IH]; simpl.
  - split; [by intros [? ?] | by intros (? & ?%elem_of_nil & _)].
  - destruct (Dict.getitem (deref h l) key) as [v|] eqn:Hl.
    + split; [| by eexists]. intros _. exists l. split; [by left |].
      apply getitem_is_Some. by eexists.
    + rewrite IH. apply getitem_None in Hl. split.
      * intros (l' & ? & ?). exists l'. split; [by right | done].
      * intros (l' & [->|?]%elem_of_cons & ?); [done | by exists l'].
Qed.

(** X6: iterating over a chain map yields each of its keys once,
    whatever number of mappings hold it; the keys it yields are those
    for which [in] is true, which are those a subscript finds; and
    [len] is their number. *)
Theorem iteration_yields_each_key_once (self : list loc) (h : heap) :
  NoDup (__iter__ self h) /\
  (forall key, key ∈ __iter__ self h <-> __contains__ self key h = true) /\
  (forall key, __contains__ self key h = true <->
               exists v, __getitem__ self key h = inl v) /\
  length (__iter__ self h) = __len__ self h.
Proof.
  assert (forall key, key ∈ __iter__ self h <->
            exists l, l ∈ self /\ key ∈ Dict.keys (deref h l)) as Hiter.
  { intros key. unfold __iter__. rewrite keys_merged. split.
    - intros [Hnil|(l & Hl & ?)]; [by inversion Hnil |].
      rewrite elem_of_reverse in Hl. by exists l.
    - intros (l & ? & ?). right. exists l. by rewrite elem_of_reverse. }
  assert (NoDup (__iter__ self h)) as Hnodup.
  { apply NoDup_merged. constructor. }
  split; [done |]. split; [| split].
  - intros key. by rewrite Hiter, contains_spec.
  - intros key. rewrite contains_spec, <- first_holding_is_Some.
    unfold __getitem__, __missing__.
    destruct (first_holding h self key) as [v|]; split; intros H;
      first [by exists v | by destruct H | by eexists].
  - unfold __len__. rewrite <- (size_list_to_set (C := gset string)) by done.
    f_equal. apply set_eq. intros key.
    rewrite elem_of_list_to_set, Hiter, elem_of_union_list. split.
    + intros (l & Hl & Hkey). exists (list_to_set (Dict.keys (deref h l))).
      split; [apply list_elem_of_fmap; by exists l |].
      by apply elem_of_list_to_set.
    + intros (X & (l & -> & Hl)%list_elem_of_fmap & Hkey).
      exists l. split; [done |]. by apply elem_of_list_to_set in Hkey.
Qed.

(** *** Children and copies *)

Lemma merged_ext (h h' : heap) (maps : list loc) (d : dict) :
  (forall l, l ∈ maps -> deref h l = deref h' l) ->
  foldl (fun d l => dict_update d (deref h l)) d maps =
  foldl (fun d l => dict_update d (deref h' l)) d maps.
Proof.
  revert d. induction maps as [|l ls IH]; intros d Hsame; [done |]. simpl.
  rewrite (Hsame l) by (by left). apply IH. intros l' Hl'. apply Hsame. by right.
Qed.

(** X7: [new_child] puts one mapping before those of the chain, which
    become the [parents] of the child.  A key is looked up in the new
    mapping first ([m] updated with the keyword arguments, or the
    keyword arguments alone) and in the chain otherwise.  When [m] is
    not given the new mapping is a new dictionary: the chain sees no
    change, then or when the child is written to. *)
Theorem new_child_shadows_its_parents
    (self : list loc) (m : option loc) (kwargs : list (string * value)) (h : heap) :
  Forall (fun l => l ∈ dom h) self ->
  exists child h',
    new_child self m kwargs h = (child, h') /\
    parents child = self /\
    (forall key,
       __getitem__ child key h' =
         match Dict.getitem (Dict.from_items kwargs) key with
         | Some v => inl v
         | None => __getitem__ (from_option (fun l => l :: self) self m) key h
         end) /\
    (m = None ->
       (forall key, __getitem__ self key h' = __getitem__ self key h) /\
       (forall key v, exists h'',
          __setitem__ child key v h' = (inl tt, h'') /\
          __getitem__ child key h'' = inl v /\
          forall k, __getitem__ self k h'' = __getitem__ self k h)).
Proof.
  intros Hself. rewrite Forall_forall in Hself.
  destruct m as [l|]; unfold new_child.
  - rewrite init_Mapping. do 2 eexists. split; [done |]. split; [done |].
    split; [| done]. intros key. unfold __getitem__. simpl.
    rewrite deref_insert, getitem_dict_update by apply NoDup_keys_from_items.
    destruct (Dict.getitem (Dict.from_items kwargs) key) as [v|] eqn:Hkw; [done |].
    destruct (Dict.getitem (deref h l) key) as [v|]; [done |].
    rewrite (first_holding_ext _ h); [done |].
    intros l' _. destruct (decide (l = l')) as [<-|Hne]; [| by rewrite deref_insert_ne].
    by rewrite deref_insert, getitem_dict_update, Hkw by apply NoDup_keys_from_items.
  - destruct (alloc (Dict.from_items kwargs) h) as [l h'] eqn:Halloc.
    rewrite init_Mapping.
    assert (l ∉ dom h) as Hfresh.
    { pose proof (alloc_fresh (Dict.from_items kwargs) h) as H. by rewrite Halloc in H. }
    assert (deref h' l = Dict.from_items kwargs) as Hl.
    { pose proof (deref_alloc (Dict.from_items kwargs) h) as H. by rewrite Halloc in H. }
    assert (forall l', l' ∈ self -> l <> l') as Hne.
    { intros l' Hl' <-. by apply Hfresh, Hself. }
    assert (forall l', l' ∈ self -> deref h' l' = deref h l') as Hold.
    { intros l' Hl'. pose proof (deref_alloc_ne (Dict.from_items kwargs) h l') as H.
      rewrite Halloc in H. by apply H, Hself. }
    assert (forall key, __getitem__ self key h' = __getitem__ self key h) as Hparent.
    { intros key. apply getitem_ext. intros l' Hl'. by rewrite Hold. }
    exists (l :: self), h'. split; [done |]. split; [done |]. split; [| intros _; split].
    + intros key. specialize (Hparent key). unfold __getitem__ in *. simpl. rewrite Hl.
      by destruct (Dict.getitem (Dict.from_items kwargs) key).
    + done.
    + intros key v. eexists. split; [done |]. split.
      * unfold __getitem__. simpl.
        by rewrite deref_insert, SharedSpec.getitem_setitem, decide_True.
      * intros k. rewrite <- Hparent. apply getitem_ext.
        intros l' Hl'. by rewrite deref_insert_ne by by apply Hne.
Qed.

(** X8: [copy] gives a chain with the same contents whose first
    mapping is a new dictionary: writing to the copy changes nothing
    in the chain it was made from.  The other mappings are the same
    objects in both.  A chain without mappings cannot be copied. *)
Theorem copy_has_its_own_first_mapping (l : loc) (ls : list loc) (h : heap) :
  Forall (fun l => l ∈ dom h) (l :: ls) ->
  copy (A := A) [] h = (inr IndexError, h) /\
  exists l' h',
    copy (l :: ls) h = (inl (l' :: ls), h') /\
    (l' ∉ dom h) /\
    (forall key, __getitem__ (l' :: ls) key h' = __getitem__ (l :: ls) key h) /\
    __iter__ (l' :: ls) h' = __iter__ (l :: ls) h /\
    (forall key v, exists h'',
       __setitem__ (l' :: ls) key v h' = (inl tt, h'') /\
       __getitem__ (l' :: ls) key h'' = inl v /\
       forall k, __getitem__ (l :: ls) k h'' = __getitem__ (l :: ls) k h).
Proof.
  intros Hself. rewrite Forall_forall in Hself. split; [done |].
  unfold copy. destruct (alloc (deref h l) h) as [l' h'] eqn:Halloc.
  assert (l' ∉ dom h) as Hfresh.
  { pose proof (alloc_fresh (deref h l) h) as H. by rewrite Halloc in H. }
  assert (deref h' l' = deref h l) as Hl'.
  { pose proof (deref_alloc (deref h l) h) as H. by rewrite Halloc in H. }
  assert (forall l0, l0 ∈ l :: ls -> l' <> l0) as Hne.
  { intros l0 Hl0 <-. by apply Hfresh, Hself. }
  assert (forall l0, l0 ∈ l :: ls -> deref h' l0 = deref h l0) as Hold.
  { intros l0 Hl0. pose proof (deref_alloc_ne (deref h l) h l0) as H.
    rewrite Halloc in H. by apply H, Hself. }
  exists l', h'. split; [done |]. split; [done |]. split; [| split].
  - intros key. unfold __getitem__. simpl. rewrite Hl'.
    rewrite (first_holding_ext h' h ls); [done |].
    intros l0 Hl0. rewrite Hold; [done | by right].
  - unfold __iter__. rewrite !reverse_cons, !foldl_app. simpl. rewrite Hl'.
    rewrite (merged_ext h' h); [done |]. intros l0 Hl0. rewrite elem_of_reverse in Hl0.
    rewrite Hold; [done | by right].
  - intros key v. eexists. split; [done |]. split.
    + unfold __getitem__. simpl.
      by rewrite deref_insert, SharedSpec.getitem_setitem, decide_True.
    + intros k. apply getitem_ext. intros l0 Hl0.
      by rewrite deref_insert_ne, Hold by by (apply Hne || idtac).
Qed.

(** *** Removing *)

(** X9: [pop], [popitem] and [clear] act on the first mapping
    alone.  A key popped from it is looked up in the parents
    afterwards, where the value it shadowed shows again; a key that
    only a parent holds is not popped, although the chain contains it:
    [pop] raises [KeyError], or returns the default, and [popitem]
    raises [KeyError] when the first mapping is empty.  After [clear]
    the chain reads as its parents do.  On a chain without mappings
    the three raise [IndexError]. *)
Theorem removals_act_on_the_first_mapping
    (l : loc) (ls : list loc) (key : string) (h : heap) :
  l ∉ ls ->
  (forall v default, Dict.getitem (deref h l) key = Some v ->
     exists h',
       pop (l :: ls) key default h = (inl v, h') /\
       __getitem__ (l :: ls) key h' = __getitem__ ls key h /\
       forall k, k <> key -> __getitem__ (l :: ls) k h' = __getitem__ (l :: ls) k h) /\
  (Dict.getitem (deref h l) key = None ->
     pop (l :: ls) key None h = (inr (KeyError key), h) /\
     forall v, pop (l :: ls) key (Some v) h = (inl v, h)) /\
  (exists h',
     clear (l :: ls) h = (inl tt, h') /\
     forall k, __getitem__ (l :: ls) k h' = __getitem__ ls k h) /\
  (forall k v, last (deref h l) = Some (k, v) ->
     exists h',
       popitem (l :: ls) h = (inl (k, v), h') /\
       __getitem__ (l :: ls) k h' = __getitem__ ls k h) /\
  (deref h l = [] -> popitem (l :: ls) h = (inr KeyErrorEmpty, h)) /\
  pop [] key None h = (inr IndexError, h) /\
  clear (A := A) [] h = (inr IndexError, h) /\
  popitem (A := A) [] h = (inr IndexError, h).
Proof.
  intros Hl.
  assert (forall d k, first_holding (<[l := d]> h) ls k = first_holding h ls k) as Hls.
  { intros d k. apply first_holding_ext. intros l' Hl'.
    rewrite deref_insert_ne; [done | by intros <-]. }
  split; [| split; [| split; [| split; [| split; [| done]]]]].
  - intros v default Hv. unfold pop. rewrite Hv. eexists. split; [done |].
    unfold __getitem__. simpl. rewrite deref_insert, !Hls. split.
    + by rewrite getitem_dict_del, decide_True.
    + intros k Hk. by rewrite getitem_dict_del, decide_False, Hls.
  - intros Hnone. unfold pop. by rewrite Hnone.
  - eexists. split; [done |]. intros k. unfold __getitem__. simpl.
    by rewrite deref_insert, Hls.
  - intros k v Hlast. unfold popitem. rewrite Hlast. eexists. split; [done |].
    unfold __getitem__. simpl. by rewrite deref_insert, Hls, getitem_dict_del, decide_True.
  - intros Hempty. unfold popitem. by rewrite Hempty.
Qed.

(** *** Union *)

Lemma getitem_merged (h : heap) (maps : list loc) (d : dict) key :
  Forall (fun l => NoDup (Dict.keys (deref h l))) maps ->
  Dict.getitem (foldl (fun d l => dict_update d (deref h l)) d (reverse maps)) key =
    match first_holding h maps key with
    | Some v => Some v
    | None => Dict.getitem d key
    end.
Proof.
  induction maps as [|l ls IH]; intros Hwf; [done |].
  apply Forall_cons in Hwf as [Hl Hls].
  rewrite reverse_cons, foldl_app. simpl.
  rewrite getitem_dict_update by done.
  destruct (Dict.getitem (deref h l) key); [done |]. by apply IH.
Qed.

(** X10: in a union the right operand wins.  [chain | other] is a
    copy of the chain in whose first mapping the items of the other
    mapping are stored: a key is read from the other mapping if it
    holds it, from the chain otherwise, and the chain itself is left
    as it was.  [other | chain] is a chain of one new dictionary in
    which a key is read from the chain if it holds it, from the other
    mapping otherwise.  An operand that is not a mapping gives
    [NotImplemented]. *)
Theorem union_prefers_the_right_operand
    (l : loc) (ls : list loc) (o : loc) (h : heap) :
  Forall (fun l => l ∈ dom h) (o :: l :: ls) ->
  Forall (fun l => NoDup (Dict.keys (deref h l))) (o :: l :: ls) ->
  (exists new h',
     __or__ (l :: ls) (Mapping o) h = (Returned new, h') /\
     (forall key,
        __getitem__ new key h' =
          match Dict.getitem (deref h o) key with
          | Some v => inl v
          | None => __getitem__ (l :: ls) key h
          end) /\
     (forall key, __getitem__ (l :: ls) key h' = __getitem__ (l :: ls) key h) /\
     deref h' o = deref h o) /\
  (exists new h',
     __ror__ (l :: ls) (Mapping o) h = (Returned [new], h') /\
     (forall key,
        __getitem__ [new] key h' =
          match first_holding h (l :: ls) key with
          | Some v => inl v
          | None => __getitem__ [o] key h
          end) /\
     (forall key, __getitem__ (l :: ls) key h' = __getitem__ (l :: ls) key h) /\
     deref h' o = deref h o) /\
  (forall items,
     __or__ (l :: ls) (Items items) h = (NotImplemented, h) /\
     __ror__ (l :: ls) (Items items) h = (NotImplemented, h)).
Proof.
  intros Hdom Hwf. rewrite Forall_forall in Hdom.
  apply Forall_cons in Hwf as [Ho Hself].
  split; [| split; [| done]].
  - unfold __or__, copy. destruct (alloc (deref h l) h) as [l' h'] eqn:Halloc.
    assert (l' ∉ dom h) as Hfresh.
    { pose proof (alloc_fresh (deref h l) h) as H. by rewrite Halloc in H. }
    assert (deref h' l' = deref h l) as Hl'.
    { pose proof (deref_alloc (deref h l) h) as H. by rewrite Halloc in H. }
    assert (forall l0, l0 ∈ o :: l :: ls -> l' <> l0) as Hne.
    { intros l0 Hl0 <-. by apply Hfresh, Hdom. }
    assert (forall l0, l0 ∈ o :: l :: ls -> deref h' l0 = deref h l0) as Hold'.
    { intros l0 Hl0. pose proof (deref_alloc_ne (deref h l) h l0) as H.
      rewrite Halloc in H. by apply H, Hdom. }
    assert (forall l0 d, l0 ∈ o :: l :: ls -> deref (<[l' := d]> h') l0 = deref h l0) as Hold.
    { intros l0 d Hl0. rewrite deref_insert_ne by by apply Hne. by apply Hold'. }
    do 2 eexists. split; [done |]. split; [| split].
    + intros key. unfold __getitem__. simpl.
      rewrite deref_insert, Hl', (Hold' o) by (by left).
      rewrite getitem_dict_update by done.
      destruct (Dict.getitem (deref h o) key); [done |].
      rewrite (first_holding_ext _ h ls); [done |].
      intros l0 Hl0. rewrite Hold; [done | by do 2 right].
    + intros key. apply getitem_ext. intros l0 Hl0. rewrite Hold; [done | by right].
    + apply Hold. by left.
  - unfold __ror__.
    set (m := foldl _ _ _).
    destruct (alloc m h) as [l' h'] eqn:Halloc.
    assert (deref h' l' = m) as Hl'.
    { pose proof (deref_alloc m h) as H. by rewrite Halloc in H. }
    assert (forall l0, l0 ∈ o :: l :: ls -> deref h' l0 = deref h l0) as Hold.
    { intros l0 Hl0. pose proof (deref_alloc_ne m h l0) as H.
      rewrite Halloc in H. by apply H, Hdom. }
    do 2 eexists. split; [done |]. split; [| split].
    + intros key. unfold __getitem__.
      assert (first_holding h' [l'] key = Dict.getitem m key) as ->.
      { simpl. rewrite Hl'. by destruct (Dict.getitem m key). }
      unfold m. rewrite getitem_merged by done.
      destruct (first_holding h (l :: ls) key); [done |].
      change (Dict.from_items (deref h o)) with (dict_update [] (deref h o)).
      rewrite getitem_dict_update by done. simpl.
      by destruct (Dict.getitem (deref h o) key).
    + intros key. apply getitem_ext. intros l0 Hl0. rewrite Hold; [done | by right].
    + apply Hold. by left.
Qed.

(** *** Chains of nested mappings *)

Lemma alloc_spec (d : dict) (h0 : heap) n h1 :
  alloc d h0 = (n, h1) ->
  (n ∉ dom h0) /\ h1 !! n = Some d /\ forall l, l ∈ dom h0 -> h1 !! l = h0 !! l.
Proof.
  unfold alloc. intros [= <- <-]. split; [apply is_fresh |].
  split; [by rewrite lookup_insert_eq |].
  intros l Hl. rewrite lookup_insert_ne; [done |]. intros <-. by apply (is_fresh (dom h0)).
Qed.

Lemma agree_dom (h h0 : heap) l :
  (forall l, l ∈ dom h -> h0 !! l = h !! l) -> l ∈ dom h -> l ∈ dom h0.
Proof.
  intros Hagree Hl. apply elem_of_dom. rewrite Hagree by done. by apply elem_of_dom.
Qed.

Lemma chainmap_from_maps_spec (h : heap) (key : string) (maps : list loc) :
  forall (i : nat) (h0 : heap),
    (forall l, l ∈ dom h -> h0 !! l = h !! l) ->
    Forall (fun m => m ∈ dom h) maps ->
    Forall (fun m => forall a, Dict.getitem (deref h m) key <> Some (VOther a)) maps ->
    exists new h',
      chainmap_from_maps maps i key h0 = (inl new, h') /\
      Forall2 (fun m n =>
                 match Dict.getitem (deref h m) key with
                 | Some (VMapping l) => n = l
                 | _ => (n ∉ dom h) /\ h' !! n = Some []
                 end) maps new /\
      forall l, l ∈ dom h0 -> h' !! l = h0 !! l.
Proof.
  induction maps as [|m maps IH]; intros i h0 Hagree Hdom Hok.
  { exists [], h0. split; [done |]. split; [constructor | done]. }
  apply Forall_cons in Hdom as [Hm Hdom]. apply Forall_cons in Hok as [Hvm Hok].
  cbn [chainmap_from_maps].
  assert (deref h0 m = deref h m) as -> by (unfold deref; by rewrite Hagree).
  assert (forall n h1, alloc [] h0 = (n, h1) ->
            exists new h',
              match chainmap_from_maps maps (S i) key h1 with
              | (inl ls, h) => (inl (n :: ls), h)
              | (inr e, h) => (inr e, h)
              end = (inl new, h') /\
              Forall2 (fun m n =>
                 match Dict.getitem (deref h m) key with
                 | Some (VMapping l) => n = l
                 | _ => (n ∉ dom h) /\ h' !! n = Some []
                 end) maps (tail new) /\
              head new = Some n /\ (n ∉ dom h) /\ h' !! n = Some [] /\
              forall l, l ∈ dom h0 -> h' !! l = h0 !! l) as Hnew.
  { intros n h1 (Hfresh & Hn & Hold)%alloc_spec.
    destruct (IH (S i) h1) as (new & h' & -> & Hall & Hsame); [| done | done |].
    { intros l Hl. rewrite Hold by by eapply agree_dom. by apply Hagree. }
    exists (n :: new), h'. split; [done |]. split; [done |]. split; [done |].
    split; [intros Hin; by apply Hfresh, (agree_dom h) |].
    split.
    - rewrite Hsame; [done |]. apply elem_of_dom. by rewrite Hn.
    - intros l Hl. rewrite Hsame, Hold; [done | done |].
      apply elem_of_dom. rewrite Hold by done. by apply elem_of_dom. }
  destruct (alloc [] h0) as [n h1] eqn:Halloc.
  destruct (Dict.getitem (deref h m) key) as [[|l|a]|] eqn:Hkey; simpl.
  - destruct (Hnew n h1 eq_refl) as (new & h' & Heq & Hall & Hhd & ? & ? & ?).
    destruct new as [|n' new]; [done |]. injection Hhd as ->.
    exists (n :: new), h'. split; [exact Heq |]. split; [| done].
    constructor; [by rewrite Hkey | done].
  - destruct (IH (S i) h0) as (new & h' & -> & Hall & Hsame); [done ..|].
    exists (l :: new), h'. split; [done |]. split; [| done].
    constructor; [by rewrite Hkey | done].
  - by destruct (Hvm a).
  - destruct (Hnew n h1 eq_refl) as (new & h' & Heq & Hall & Hhd & ? & ? & ?).
    destruct new as [|n' new]; [done |]. injection Hhd as ->.
    exists (n :: new), h'. split; [exact Heq |]. split; [| done].
    constructor; [by rewrite Hkey | done].
Qed.

Lemma chainmap_from_maps_TypeError (h : heap) (key : string) (before : list loc) :
  forall (i : nat) (h0 : heap) m after a,
    (forall l, l ∈ dom h -> h0 !! l = h !! l) ->
    Forall (fun m => m ∈ dom h) (before ++ [m]) ->
    Forall (fun m => forall a, Dict.getitem (deref h m) key <> Some (VOther a)) before ->
    Dict.getitem (deref h m) key = Some (VOther a) ->
    (chainmap_from_maps (before ++ m :: after) i key h0).1
    = inr (TypeError key (i + length before)).
Proof.
  induction before as [|m0 before IH]; intros i h0 m after a Hagree Hdom Hok Hm.
  - apply Forall_cons in Hdom as [Hdom _]. simpl.
    assert (deref h0 m = deref h m) as -> by (unfold deref; by rewrite Hagree).
    rewrite Hm. simpl. f_equal. f_equal. lia.
  - apply Forall_cons in Hdom as [Hm0 Hdom]. apply Forall_cons in Hok as [Hvm Hok].
    cbn [chainmap_from_maps app].
    assert (deref h0 m0 = deref h m0) as -> by (unfold deref; by rewrite Hagree).
    assert (forall h1, (forall l, l ∈ dom h -> h1 !! l = h !! l) ->
              forall n,
              (match chainmap_from_maps (before ++ m :: after) (S i) key h1 with
               | (inl ls, h) => (inl (n :: ls), h)
               | (inr e, h) => (inr e, h)
               end).1 = inr (TypeError key (i + length (m0 :: before)))) as Hrest.
    { intros h1 Hagree1 n. specialize (IH (S i) h1 m after a Hagree1 Hdom Hok Hm).
      destruct (chainmap_from_maps (before ++ m :: after) (S i) key h1) as [[ls|e] h2];
        simpl in *; [done |]. rewrite IH. f_equal. f_equal. lia. }
    destruct (alloc [] h0) as [n h1] eqn:Halloc.
    apply alloc_spec in Halloc as (_ & _ & Hold).
    assert (forall l, l ∈ dom h -> h1 !! l = h !! l) as Hagree1.
    { intros l Hl. rewrite Hold by by eapply agree_dom. by apply Hagree. }
    destruct (Dict.getitem (deref h m0) key) as [[|l|a0]|] eqn:Hkey; simpl.
    + by apply Hrest.
    + by apply Hrest.
    + by destruct (Hvm a0).
    + by apply Hrest.
Qed.

(** X11: [chainmap_from(key)] makes a chain with one mapping for each
    mapping of this chain, in the same order: the mapping stored under
    [key] there, as the same object, or a new empty dictionary when
    the key is missing or set to [None].  The dictionaries there were
    are left as they are: a new dictionary is not stored under the key
    it stands for.  A value that is neither raises [TypeError] with
    the position of its mapping. *)
Theorem chainmap_from_shares_the_nested_mappings
    (self : list loc) (key : string) (h : heap) :
  self <> [] ->
  Forall (fun m => m ∈ dom h) self ->
  (Forall (fun m => forall a, Dict.getitem (deref h m) key <> Some (VOther a)) self ->
   exists new h',
     chainmap_from self key h = (inl new, h') /\
     Forall2 (fun m n =>
                match Dict.getitem (deref h m) key with
                | Some (VMapping l) => n = l
                | _ => (n ∉ dom h) /\ h' !! n = Some []
                end) self new /\
     forall l, l ∈ dom h -> h' !! l = h !! l) /\
  (forall before m after a,
     self = before ++ m :: after ->
     Forall (fun m => forall a, Dict.getitem (deref h m) key <> Some (VOther a)) before ->
     Dict.getitem (deref h m) key = Some (VOther a) ->
     (chainmap_from self key h).1 = inr (TypeError key (length before))).
Proof.
  intros Hself Hdom. split.
  - intros Hok. unfold chainmap_from.
    destruct (chainmap_from_maps_spec h key self 0 h) as (new & h' & -> & Hall & Hsame);
      [done ..|].
    destruct new as [|n new]; [apply Forall2_nil_inv_r in Hall; done |].
    rewrite fmap_cons, init_Mapping. by exists (n :: new), h'.
  - intros before m after a -> Hok Hm. unfold chainmap_from.
    pose proof (chainmap_from_maps_TypeError h key before 0 h m after a) as H.
    destruct (chainmap_from_maps (before ++ m :: after) 0 key h) as [[ls|e] h'];
      simpl in *.
    + discriminate H; try done.
      apply Forall_app in Hdom as [? [? _]%Forall_cons]. apply Forall_app. by split; [| constructor].
    + apply H; try done.
      apply Forall_app in Hdom as [? [? _]%Forall_cons]. apply Forall_app. by split; [| constructor].
Qed.

End Proofs.

(** *** Worked cases *)
Import ChainSamples.

Lemma two_maps_dom l : l ∈ [0; 1] -> l ∈ dom two_maps.
Proof.
  intros Hl. apply elem_of_dom.
  apply elem_of_cons in Hl as [->|Hl]; [by eexists |].
  apply elem_of_cons in Hl as [->|Hl]; [by eexists | by apply elem_of_nil in Hl].
Defined.

Lemma new_child_shadows_its_parents_witness :
  exists child h',
    new_child [0; 1] None [("b", VOther 9)] two_maps = (child, h') /\
    parents child = [0; 1] /\
    __getitem__ child "b" h' = inl (VOther 9) /\
    __getitem__ child "a" h' = inl (VOther 1) /\
    __getitem__ [0; 1] "b" h' = inl (VOther 3).
Proof.
  destruct (new_child_shadows_its_parents [0; 1] None [("b", VOther 9)] two_maps)
    as (child & h' & Hrun & Hparents & Hget & Hsame).
  { apply Forall_forall, two_maps_dom. }
  exists child, h'. split; [exact Hrun |]. split; [exact Hparents |].
  split; [exact (Hget "b") |]. split; [exact (Hget "a") |].
  destruct (Hsame eq_refl) as [Hself _]. exact (Hself "b").
Defined.

Lemma copy_has_its_own_first_mapping_witness :
  exists l' h' h'',
    copy [0; 1] two_maps = (inl [l'; 1], h') /\
    __setitem__ [l'; 1] "a" (VOther 9) h' = (inl tt, h'') /\
    __getitem__ [l'; 1] "a" h'' = inl (VOther 9) /\
    __getitem__ [0; 1] "a" h'' = inl (VOther 1).
Proof.
  destruct (copy_has_its_own_first_mapping 0 [1] two_maps)
    as (_ & l' & h' & Hcopy & _ & _ & _ & Hset).
  { apply Forall_forall, two_maps_dom. }
  destruct (Hset "a" (VOther 9)) as (h'' & Hrun & Hnew & Hold).
  exists l', h', h''. split; [exact Hcopy |]. split; [exact Hrun |].
  split; [exact Hnew | exact (Hold "a")].
Defined.

Lemma removals_act_on_the_first_mapping_witness :
  (exists h',
     pop [0; 1] "a" None two_maps = (inl (VOther 1), h') /\
     __getitem__ [0; 1] "a" h' = inl (VOther 2)) /\
  __contains__ [0; 1] "b" two_maps = true /\
  pop [0; 1] "b" None two_maps = (inr (KeyError "b"), two_maps).
Proof.
  assert (0 ∉ [1]) as Hne by (intros H; by apply list_elem_of_singleton in H).
  destruct (removals_act_on_the_first_mapping 0 [1] "a" two_maps Hne)
    as (Hpop & _).
  destruct (removals_act_on_the_first_mapping 0 [1] "b" two_maps Hne)
    as (_ & Hmissing & _).
  destruct (Hpop (VOther 1) None eq_refl) as (h' & Hrun & Hget & _).
  split; [exists h'; split; [exact Hrun | exact Hget] |].
  split; [reflexivity |]. exact (proj1 (Hmissing eq_refl)).
Defined.

Lemma two_maps_NoDup l : l ∈ [0; 1] -> NoDup (Dict.keys (ChainMaps.deref two_maps l)).
Proof.
  intros Hl.
  apply elem_of_cons in Hl as [->|Hl]; [by apply (bool_decide_unpack _) |].
  apply elem_of_cons in Hl as [->|Hl]; [by apply (bool_decide_unpack _) |].
  by apply elem_of_nil in Hl.
Defined.

Lemma union_prefers_the_right_operand_witness :
  (exists new h',
     __or__ [0] (Mapping 1) two_maps = (Returned new, h') /\
     __getitem__ new "a" h' = inl (VOther 2) /\
     __getitem__ [0] "a" h' = inl (VOther 1)) /\
  (exists new h',
     __ror__ [0] (Mapping 1) two_maps = (Returned [new], h') /\
     __getitem__ [new] "a" h' = inl (VOther 1) /\
     __getitem__ [new] "b" h' = inl (VOther 3)).
Proof.
  destruct (union_prefers_the_right_operand 0 [] 1 two_maps)
    as ((new & h' & Hor & Hget & Hself & _) & (new' & h'' & Hror & Hget' & _) & _).
  { apply Forall_forall. intros l Hl. apply two_maps_dom.
    apply elem_of_cons in Hl as [->|Hl]; [by right; left |].
    apply elem_of_cons in Hl as [->|Hl]; [by left | by apply elem_of_nil in Hl]. }
  { apply Forall_forall. intros l Hl. apply two_maps_NoDup.
    apply elem_of_cons in Hl as [->|Hl]; [by right; left |].
    apply elem_of_cons in Hl as [->|Hl]; [by left | by apply elem_of_nil in Hl]. }
  split.
  - exists new, h'. split; [exact Hor |]. split; [exact (Hget "a") | exact (Hself "a")].
  - exists new', h''. split; [exact Hror |]. split; [exact (Hget' "a") | exact (Hget' "b")].
Defined.

Lemma chainmap_from_shares_the_nested_mappings_witness :
  (exists n h',
     chainmap_from [0; 1] "cfg" nested_maps = (inl [2; n], h') /\
     (n ∉ dom nested_maps) /\ h' !! n = Some [] /\
     h' !! 1 = Some [("cfg", VNone)]) /\
  (chainmap_from [0; 1] "cfg" badly_nested_maps).1 = inr (TypeError "cfg" 1).
Proof.
  assert (forall h : heap nat, is_Some (h !! 0) -> is_Some (h !! 1) ->
            Forall (fun m => m ∈ dom h) [0; 1]) as Hdom.
  { intros h H0 H1. repeat constructor; by apply elem_of_dom. }
  split.
  - destruct (chainmap_from_shares_the_nested_mappings [0; 1] "cfg" nested_maps)
      as ((new & h' & Hrun & Hall & Hsame) & _).
    + discriminate.
    + apply Hdom; by eexists.
    + repeat constructor; vm_compute; discriminate.
    + apply Forall2_cons_inv_l in Hall as (n0 & new0 & Hn0 & Hall & ->).
      apply Forall2_cons_inv_l in Hall as (n & new1 & Hn & Hall & ->).
      apply Forall2_nil_inv_l in Hall as ->.
      change (n0 = 2) in Hn0. subst n0. destruct Hn as [Hfresh Hempty].
      exists n, h'. split; [exact Hrun |]. split; [exact Hfresh |]. split; [exact Hempty |].
      apply Hsame. apply elem_of_dom. by eexists.
  - destruct (chainmap_from_shares_the_nested_mappings [0; 1] "cfg" badly_nested_maps)
      as (_ & Herr).
    + discriminate.
    + apply Hdom; by eexists.
    + apply (Herr [0] 1 [] 5 eq_refl); [| reflexivity].
      repeat constructor. vm_compute. discriminate.
Defined.

End ChainMapSpec.

Module SubscriptionMore.
Import Subscription SubscriptionSpec.

Section Proofs.
Context {value : Type}.
Context (__event_fields__ : list (string * Z)).
Context (call : callback -> cache (value:=value) -> string -> Z ->
                option ((unit + exn) * cache (value:=value))).
Context (fuel : nat).

Local Abbreviation M := (M (value:=value)).
Local Abbreviation cache := (cache (value:=value)).
Local Abbreviation event := (event (value:=value)).
Local Abbreviation outcome := (outcome (value:=value)).
Local Abbreviation queues_nodup := (queues_nodup (value:=value)).

(** *** Loops *)

Lemma for_each_app {A} (xs ys : list A) (body : A -> M unit) (c : cache) :
  for_each (xs ++ ys) body c = (for_each xs body;; for_each ys body) c.
Proof.
  revert c. induction xs as [|x xs IH]; intros c.
  - simpl. rewrite seq_run. unfold mret, M_ret. by rewrite prepend_nil.
  - simpl. rewrite !seq_run. destruct (body x c) as [[t [[]|e] c1]|]; [| done | done].
    rewrite IH, seq_run. destruct (for_each xs body c1) as [[t' [[]|e] c2]|]; simpl; try done.
    by rewrite prepend_prepend.
Qed.

Lemma for_each_ext {A} (xs : list A) (body body' : A -> M unit) (c : cache) :
  (forall x c, x ∈ xs -> body x c = body' x c) ->
  for_each xs body c = for_each xs body' c.
Proof.
  revert c. induction xs as [|x xs IH]; intros c Hbody; [done |].
  simpl. rewrite !seq_run, Hbody by (by left).
  destruct (body' x c) as [[t [[]|e] c1]|]; [| done | done].
  rewrite IH; [done |]. intros y c' Hy. apply Hbody. by right.
Qed.

Lemma iter_queue_keys_NoDup field event_flags : NoDup (_iter_queue_keys field event_flags).
Proof.
  unfold _iter_queue_keys. apply NoDup_fmap_2; [by intros ? ? [= ->] |].
  apply NoDup_filter. unfold __EVENT_FLAGS, EventFlag.
  by apply (bool_decide_unpack _).
Qed.

Lemma lookup_altered {V} (f : V -> V) (keys : list (string * Z)) (r : gmap (string * Z) V) key :
  NoDup keys ->
  foldl (fun r key => alter f key r) r keys !! key =
    (if decide (key ∈ keys) then f else id) <$> r !! key.
Proof.
  revert r. induction keys as [|k keys IH]; intros r Hkeys.
  - destruct (decide (key ∈ [])) as [[]%elem_of_nil|]. simpl. by rewrite option_fmap_id.
  - apply NoDup_cons in Hkeys as [Hk Hkeys]. simpl. rewrite IH, lookup_alter by done.
    destruct (decide (k = key)) as [->|Hne].
    + rewrite decide_False by done. rewrite (decide_True (P := key ∈ key :: keys)) by (by left).
      by rewrite option_fmap_id.
    + destruct (decide (key ∈ keys)) as [Hin|Hin].
      * rewrite decide_True; [done | by right].
      * rewrite decide_False; [done |]. intros [?|?]%elem_of_cons; done.
Qed.

(** *** [unsubscribe] *)

Lemma filter_all {A} (P : A -> Prop) `{forall x, Decision (P x)} (l : list A) :
  Forall P l -> filter P l = l.
Proof.
  induction 1 as [|x l Hx _ IH]; [done |].
  by rewrite filter_cons, decide_True, IH.
Qed.

(** The queue after [try: queue.remove(callback) except ValueError: pass]. *)
Lemma list_remove_filter (cb : callback) (queue : list callback) :
  NoDup queue ->
  default queue (list_remove cb queue) = filter (fun x => x <> cb) queue.
Proof.
  induction queue as [|x queue IH]; [done |].
  intros [Hx Hq]%NoDup_cons. simpl. rewrite filter_cons.
  destruct (decide (x = cb)) as [->|Hne].
  - rewrite decide_False by (by intros ?). simpl. symmetry.
    apply filter_all, Forall_forall. by intros y Hy ->.
  - rewrite decide_True by done. specialize (IH Hq).
    destruct (list_remove cb queue) as [q|]; simpl in *; by f_equal.
Qed.

Lemma list_remove_appended (cb : callback) (queue : list callback) :
  cb ∉ queue -> list_remove cb (queue ++ [cb]) = Some queue.
Proof.
  induction queue as [|x queue IH]; intros Hin; simpl.
  - by rewrite decide_True.
  - apply not_elem_of_cons in Hin as [Hne Hin].
    rewrite decide_False by done. by rewrite IH.
Qed.

Lemma unsubscribe_key_run field cb key (c : cache) queue :
  registry_of c !! key = Some queue -> cache_mutex c <> Some true ->
  unsubscribe_key field cb key c =
    Some (Outcome [Acquire; Release] (inl tt)
            (set_mutex (Some false)
               (set_events
                  (Some (alter (fun q => default q (list_remove cb q)) key (registry_of c)))
                  c))).
Proof.
  intros Hq Hfree. unfold unsubscribe_key. rewrite bind_run. unfold read.
  rewrite Hq, prepend_nil, with_mutex_run, bind_run by done. unfold read.
  change (registry_of (set_mutex (Some true) c)) with (registry_of c).
  rewrite Hq. change (default [] (Some queue)) with queue.
  assert (alter (fun q => default q (list_remove cb q)) key (registry_of c) =
          <[key := default queue (list_remove cb queue)]> (registry_of c)) as ->.
  { apply map_eq. intros k. rewrite lookup_alter, lookup_insert.
    destruct (decide (key = k)) as [<-|]; [by rewrite Hq | done]. }
  destruct (list_remove cb queue) as [queue'|]; [done |].
  simpl. rewrite insert_id by done.
  unfold mret, M_ret. simpl. do 2 f_equal.
  unfold registry_of in Hq. destruct c as [? [r|] ? ?]; simpl in *; [done |].
  by rewrite lookup_empty in Hq.
Qed.

Lemma unsubscribe_keys_run field cb keys (c : cache) r :
  cache_events c = Some r -> cache_mutex c = Some false ->
  (forall key, key ∈ keys -> is_Some (r !! key)) ->
  for_each keys (unsubscribe_key field cb) c =
    Some (Outcome (keys ≫= (fun _ => [Acquire; Release])) (inl tt)
            (set_events
               (Some (foldl (fun r key => alter (fun q => default q (list_remove cb q)) key r)
                        r keys)) c)).
Proof.
  revert c r. induction keys as [|key keys IH]; intros c r Hr Hfree Hsup.
  - simpl. unfold mret, M_ret. by rewrite set_events_id.
  - destruct (Hsup key) as [queue Hqueue]; [by left |].
    rewrite for_each_cons, seq_run.
    rewrite (unsubscribe_key_run field cb key c queue), (registry_of_Some c r Hr);
      [| by rewrite (registry_of_Some c r Hr) | by rewrite Hfree].
    rewrite (set_mutex_id _ (Some false)) by done.
    rewrite (IH _ (alter (fun q => default q (list_remove cb q)) key r)); [done | done | done |].
    intros k Hk. rewrite lookup_alter.
    destruct (decide (key = k)) as [<-|]; [by rewrite Hqueue | apply Hsup; by right].
Qed.

Lemma unsubscribe_run field event_flags cb (c : cache) r :
  cache_mutex c <> Some true -> cache_events c = Some r ->
  (forall key, key ∈ _iter_queue_keys field event_flags -> is_Some (r !! key)) ->
  unsubscribe __event_fields__ field event_flags cb c =
    Some (Outcome
            (lock_events c ++
             (_iter_queue_keys field event_flags ≫= (fun _ => [Acquire; Release])))
            (inl tt)
            (set_events
               (Some (foldl (fun r key => alter (fun q => default q (list_remove cb q)) key r)
                        r (_iter_queue_keys field event_flags)))
               (set_mutex (Some false) c))).
Proof.
  intros Hfree Hr Hsup. unfold unsubscribe.
  rewrite seq_run, mutex_run, seq_run, (events_built _ _ r) by done.
  rewrite prepend_nil.
  assert (default false (cache_mutex c) = false) as ->.
  { by destruct (cache_mutex c) as [[]|]. }
  rewrite (unsubscribe_keys_run _ _ _ _ r) by done. done.
Qed.

Lemma calls_locks (keys : list (string * Z)) (c : cache) :
  calls (lock_events c ++ (keys ≫= (fun _ => [Acquire; Release]))) = [].
Proof.
  rewrite calls_app. unfold lock_events.
  assert (calls (value := value) (keys ≫= (fun _ => [Acquire; Release])) = []) as ->.
  { induction keys as [|k keys IH]; [done |]. by rewrite bind_cons, calls_app, IH. }
  by destruct (cache_mutex c).
Qed.

(** X12: [unsubscribe] takes the callback out of the queue of every
    selected event of the field, keeps the other callbacks in their
    order, and leaves the other queues alone.  It calls no callback,
    and for a callback that is not registered it changes nothing and
    raises nothing. *)
Theorem unsubscribe_removes_the_callback
    (c : cache) r (field : string) (event_flags : Z) (cb : callback) :
  cache_mutex c <> Some true -> cache_events c = Some r -> queues_nodup c ->
  (forall key, key ∈ _iter_queue_keys field event_flags -> is_Some (r !! key)) ->
  exists t c',
    unsubscribe __event_fields__ field event_flags cb c = Some (Outcome t (inl tt) c') /\
    calls t = [] /\
    (forall key,
       registry_of c' !! key =
         (if decide (key ∈ _iter_queue_keys field event_flags)
          then filter (fun x => x <> cb) else id) <$> r !! key) /\
    ((forall key queue, key ∈ _iter_queue_keys field event_flags ->
        r !! key = Some queue -> cb ∉ queue) ->
     cache_events c' = Some r).
Proof.
  intros Hfree Hr Hnodup Hsup. rewrite (unsubscribe_run _ _ _ _ r) by done.
  do 2 eexists. split; [done |]. split; [apply calls_locks |].
  assert (forall key,
            foldl (fun r key => alter (fun q => default q (list_remove cb q)) key r)
              r (_iter_queue_keys field event_flags) !! key =
            (if decide (key ∈ _iter_queue_keys field event_flags)
             then filter (fun x => x <> cb) else id) <$> r !! key) as Hlookup.
  { intros key. rewrite lookup_altered by apply iter_queue_keys_NoDup.
    destruct (decide (key ∈ _)); [| done].
    destruct (r !! key) as [queue|] eqn:Hqueue; [| done]. simpl. f_equal.
    apply list_remove_filter. apply (Hnodup key). by rewrite (registry_of_Some c r Hr). }
  split; [intros key; by rewrite registry_of_set_events |].
  intros Hout. simpl. f_equal. apply map_eq. intros key. rewrite Hlookup.
  destruct (decide (key ∈ _)) as [Hin|]; [| by rewrite option_fmap_id].
  destruct (r !! key) as [queue|] eqn:Hqueue; [| done]. simpl. f_equal.
  apply filter_all, Forall_forall. intros x Hx ->. by apply (Hout key queue).
Qed.

(** X13: [unsubscribe] undoes [subscribe].  Registering a callback
    that none of the selected queues holds, and removing it with the
    same field and event flags, leaves the registry as it was. *)
Theorem unsubscribe_undoes_subscribe
    (c : cache) r (field : string) (event_flags : Z) (cb : callback) :
  cache_mutex c <> Some true -> cache_events c = Some r ->
  (forall key, key ∈ _iter_queue_keys field event_flags ->
     exists queue, r !! key = Some queue /\ cb ∉ queue) ->
  exists t1 c1 t2 c2,
    subscribe __event_fields__ field event_flags cb c = Some (Outcome t1 (inl cb) c1) /\
    (forall key queue, key ∈ _iter_queue_keys field event_flags ->
       r !! key = Some queue -> registry_of c1 !! key = Some (queue ++ [cb])) /\
    unsubscribe __event_fields__ field event_flags cb c1 = Some (Outcome t2 (inl tt) c2) /\
    cache_events c2 = Some r.
Proof.
  intros Hfree Hr Hsup.
  rewrite (subscribe_run _ _ _ _ _ r) by
    (done || (intros key Hkey; destruct (Hsup key Hkey) as (? & -> & _); by eexists)).
  set (keys := _iter_queue_keys field event_flags) in *.
  assert (forall key queue, key ∈ keys -> r !! key = Some queue ->
            registered cb keys r !! key = Some (queue ++ [cb])) as Hreg.
  { intros key queue Hkey Hqueue. rewrite registered_lookup, decide_True, Hqueue by done.
    simpl. unfold register. destruct (Hsup key Hkey) as (q & Hq & Hin).
    rewrite Hqueue in Hq. injection Hq as <-. by rewrite bool_decide_eq_false_2. }
  eexists _, _, _, _. split; [reflexivity |].
  split; [intros key queue Hkey Hqueue; rewrite registry_of_set_events; by apply Hreg |].
  rewrite (unsubscribe_run _ _ _ _ (registered cb keys r)); [| simpl; discriminate | done |].
  - split; [reflexivity |].
    simpl. f_equal. apply map_eq. intros key.
    rewrite lookup_altered, registered_lookup by apply iter_queue_keys_NoDup. fold keys.
    destruct (decide (key ∈ keys)) as [Hkey|]; [| by rewrite !option_fmap_id].
    destruct (Hsup key Hkey) as (queue & -> & Hin). simpl. f_equal.
    unfold register. rewrite bool_decide_eq_false_2 by done.
    by rewrite list_remove_appended.
  - intros key Hkey. destruct (Hsup key Hkey) as (queue & Hqueue & _).
    fold keys in Hkey. rewrite (Hreg key queue) by done. by eexists.
Qed.

(** *** Events that a field does not support *)

Lemma subscribe_key_unsupported field cb key (c : cache) :
  registry_of c !! key = None ->
  subscribe_key field cb key c = Some (Outcome [] (inr (ValueError field key.2)) c).
Proof. intros Hq. unfold subscribe_key. rewrite bind_run. unfold read. by rewrite Hq. Qed.

(** X14: [subscribe] is not all-or-nothing.  The selected events are
    taken in the order of the flags; at the first one that the field
    does not support it raises [ValueError] for that flag, and the
    callback stays registered for the events before it. *)
Theorem subscribe_stops_at_an_unsupported_flag
    (c : cache) r (field : string) (event_flags : Z) (cb : callback)
    (before after : list (string * Z)) (flag : Z) :
  cache_mutex c <> Some true -> cache_events c = Some r ->
  _iter_queue_keys field event_flags = before ++ (field, flag) :: after ->
  (forall key, key ∈ before -> is_Some (r !! key)) ->
  r !! (field, flag) = None ->
  exists t c',
    subscribe __event_fields__ field event_flags cb c =
      Some (Outcome t (inr (ValueError field flag)) c') /\
    (forall key,
       registry_of c' !! key =
         (if decide (key ∈ before) then register cb else id) <$> r !! key).
Proof.
  intros Hfree Hr Hkeys Hsup Hflag. unfold subscribe.
  rewrite seq_run, mutex_run, seq_run, (events_built _ _ r) by done.
  rewrite prepend_nil, bind_run, Hkeys, for_each_app, seq_run.
  assert (default false (cache_mutex c) = false) as ->.
  { by destruct (cache_mutex c) as [[]|]. }
  rewrite (subscribe_keys_run _ _ _ _ r) by done.
  rewrite for_each_cons, seq_run, subscribe_key_unsupported.
  - do 2 eexists. split; [done |]. intros key. simpl.
    by rewrite registry_of_set_events, registered_lookup.
  - rewrite registry_of_set_events, registered_lookup, Hflag. done.
Qed.

Lemma notify_flags_unsupported (field : string) (flag : Z) (c : cache) :
  flag ∈ EventFlag -> registry_of c !! (field, flag) = None ->
  for_each EventFlag (notify_flag call fuel field flag) c =
    Some (Outcome [] (inr (ValueError field flag)) c).
Proof.
  intros Hflag Hnone.
  assert (forall flag', flag' ∈ EventFlag ->
            notify_flag call fuel field flag flag' c =
              if decide (flag' = flag)
              then Some (Outcome [] (inr (ValueError field flag)) c)
              else Some (Outcome [] (inl tt) c)) as Hone.
  { intros flag' Hflag'. unfold notify_flag.
    destruct (has_flag flag flag') eqn:Hhas.
    - rewrite (has_flag_single flag flag') by done. rewrite decide_True by done.
      rewrite bind_run. unfold read. by rewrite Hnone.
    - rewrite decide_False; [done |]. intros ->. revert Hhas. clear -Hflag.
      unfold EventFlag in Hflag. rewrite !elem_of_cons, elem_of_nil in Hflag.
      by destruct Hflag as [->|[->|[->|[->|[]]]]]. }
  unfold EventFlag in *. rewrite !elem_of_cons, elem_of_nil in Hflag.
  destruct Hflag as [->|[->|[->|[->|[]]]]]; simpl; rewrite !seq_run;
    repeat (rewrite Hone by (rewrite !elem_of_cons; tauto); simpl; rewrite ?seq_run);
    done.
Qed.

(** X15: on an instance that is not muted, [notify] and
    [notify_once] for an event that the field does not support (or
    for a name that is no subscribable field) raise [ValueError], and
    [notify_once] leaves the instance unmuted as it found it; on a
    muted instance both return without looking at the registry. *)
Theorem notify_of_an_unsupported_event_raises
    (c : cache) r (field : string) (flag : Z) :
  flag ∈ EventFlag -> cache_events c = Some r -> r !! (field, flag) = None ->
  (cache_is_muted c <> Some true ->
     notify __event_fields__ call fuel field flag c =
       Some (Outcome [] (inr (ValueError field flag)) (set_is_muted (Some false) c)) /\
     notify_once __event_fields__ call fuel field flag c =
       Some (Outcome [] (inr (ValueError field flag)) (set_is_muted (Some false) c))) /\
  (cache_is_muted c = Some true ->
     notify __event_fields__ call fuel field flag c = Some (Outcome [] (inl tt) c) /\
     notify_once __event_fields__ call fuel field flag c = Some (Outcome [] (inl tt) c)).
Proof.
  intros Hflag Hr Hnone. rewrite notify_run, notify_once_run. split.
  - intros Hmuted.
    assert (default false (cache_is_muted c) = false) as ->.
    { by destruct (cache_is_muted c) as [[]|]. }
    rewrite !notify_built by (simpl; by rewrite Hr).
    rewrite !notify_flags_unsupported; try done.
    all: unfold registry_of; simpl; by rewrite Hr.
  - by intros ->.
Qed.

(** *** [unsubscribe_all] *)

Lemma clear_queue_run key (c : cache) :
  cache_mutex c <> Some true ->
  clear_queue key c =
    Some (Outcome [Acquire; Release] (inl tt) (set_mutex (Some false) (set_queue key [] c))).
Proof. intros Hfree. unfold clear_queue. by rewrite with_mutex_run. Qed.

Lemma clear_loop_run (sel : string * Z -> bool) (keys : list (string * Z)) (c : cache) r :
  cache_events c = Some r -> cache_mutex c = Some false ->
  exists t,
    for_each keys (fun key => if sel key then clear_queue key else mret tt) c =
      Some (Outcome t (inl tt)
              (set_events
                 (Some (foldl (fun r key => if sel key then <[key := []]> r else r) r keys))
                 c)) /\
    calls t = [].
Proof.
  revert c r. induction keys as [|key keys IH]; intros c r Hr Hfree.
  - exists []. simpl. unfold mret, M_ret. by rewrite set_events_id.
  - rewrite for_each_cons, seq_run. simpl. destruct (sel key).
    + rewrite clear_queue_run by (by rewrite Hfree).
      destruct (IH (set_mutex (Some false) (set_queue key [] c)) (<[key := []]> r))
        as (t & -> & Ht); [| done |].
      { unfold set_queue. simpl. by rewrite (registry_of_Some c r Hr). }
      exists (Acquire :: Release :: t). split; [| done].
      simpl. do 2 f_equal. destruct c. simpl in *. by subst.
    + destruct (IH c r Hr Hfree) as (t & Hrun & Ht). exists t. split; [| done].
      etrans; [| exact Hrun]. unfold mret at 1, M_ret at 1. apply prepend_nil.
Qed.

Lemma lookup_cleared (sel : string * Z -> bool) (keys : list (string * Z))
    (r : gmap (string * Z) (list callback)) key :
  foldl (fun r key => if sel key then <[key := []]> r else r) r keys !! key =
    if bool_decide (key ∈ keys) && sel key then Some [] else r !! key.
Proof.
  revert r. induction keys as [|k keys IH]; intros r; [done |]. simpl. rewrite IH.
  destruct (decide (key ∈ keys)) as [Hin|Hin].
  - rewrite !bool_decide_eq_true_2 by (done || by right). simpl.
    destruct (sel key) eqn:Hsel; [done |]. destruct (sel k) eqn:Hk; [| done].
    rewrite lookup_insert_ne; [done |]. intros ->. congruence.
  - rewrite (bool_decide_eq_false_2 _ Hin). simpl.
    destruct (decide (k = key)) as [->|Hne].
    + rewrite bool_decide_eq_true_2 by (by left). simpl.
      destruct (sel key); [by rewrite lookup_insert_eq | done].
    + rewrite bool_decide_eq_false_2 by (intros [?|?]%elem_of_cons; done). simpl.
      destruct (sel k); [by rewrite lookup_insert_ne | done].
Qed.


(** *** [suppressed] *)

(** X17: [suppressed] reads the mute flag from the cache without a
    default: on an instance whose flag was never set it raises
    [KeyError] and the body of the [with] statement does not run.
    Otherwise the body runs on the muted instance, and when it returns
    or raises the flag is set back to what it was (a muted instance
    stays muted).  After [is_muted] has been read once, as [notify_once]
    does first, the flag is set and [suppressed] does not fail. *)
Theorem suppressed_reads_the_mute_flag {A} (body : M A) (c : cache) :
  (cache_is_muted c = None ->
     suppressed body c = Some (Outcome [] (inr (KeyError "_is_muted")) c)) /\
  (forall muted, cache_is_muted c = Some muted ->
     suppressed body c =
       match body (set_is_muted (Some true) c) with
       | None => None
       | Some (Outcome t r c') => Some (Outcome t r (set_is_muted (Some muted) c'))
       end) /\
  (is_muted;; suppressed body) c =
    match body (set_is_muted (Some true) c) with
    | None => None
    | Some (Outcome t r c') =>
        Some (Outcome t r (set_is_muted (Some (default false (cache_is_muted c))) c'))
    end.
Proof.
  assert (forall (c : cache) muted, cache_is_muted c = Some muted ->
            suppressed body c =
              match body (set_is_muted (Some true) c) with
              | None => None
              | Some (Outcome t r c') => Some (Outcome t r (set_is_muted (Some muted) c'))
              end) as Hset.
  { intros c0 muted Hm. unfold suppressed. rewrite bind_run. unfold read.
    rewrite Hm, prepend_nil. unfold try_finally. rewrite seq_run. unfold write.
    rewrite prepend_nil.
    change (set_is_muted (Some true) c0) with
      (Cache (cache_mutex c0) (cache_events c0) (Some true) (cache_fields c0)).
    destruct (body _) as [[t r c']|]; [| done]. simpl. by rewrite app_nil_r. }
  split; [| split; [apply Hset |]].
  - intros Hm. unfold suppressed. rewrite bind_run. unfold read. by rewrite Hm.
  - rewrite seq_run, is_muted_run, prepend_nil.
    rewrite (Hset _ (default false (cache_is_muted c))) by done.
    by destruct c as [? ? [[]|] ?].
Qed.

(** *** The value of a field *)

Lemma maintains_public_notify (P : cache -> Prop) field event_flags :
  stable call P -> (forall c m, P c -> P (set_is_muted m c)) ->
  maintains P (notify __event_fields__ call fuel field event_flags).
Proof.
  intros HP Hmuted. unfold notify. apply maintains_bind.
  - unfold is_muted. apply maintains_read. intros c _.
    destruct (cache_is_muted c); [apply maintains_ret |].
    apply maintains_bind; [| intros _; apply maintains_ret].
    apply maintains_write. intros c0. apply Hmuted.
  - intros []; [apply maintains_ret | by apply maintains_notify].
Qed.

(** X18: the setter made for a field without accessors stores the
    value before it notifies: every callback of the assignment is
    called on an instance that holds the new value, and the value stays
    stored and is what the getter returns afterwards, whether the
    notification returns or raises.  The getter of a field that was
    never assigned raises [AttributeError].  The callbacks are taken
    not to assign the field themselves. *)
Theorem field_holds_the_assigned_value
    (name : string) (flag_set : Z) (v : value) (c : cache) (out : outcome unit) :
  (forall cb c0 f e r c',
     call cb c0 f e = Some (r, c') -> cache_fields c' !! name = cache_fields c0 !! name) ->
  subscribable_field_fset __event_fields__ call fuel name flag_set v c = Some out ->
  Forall (self_satisfies (fun self => cache_fields self !! name = Some v)) (trace out) /\
  subscribable_field_fget name (final out) = Some (Outcome [] (inl v) (final out)) /\
  (forall c0 : cache, cache_fields c0 !! name = None ->
     subscribable_field_fget name c0 = Some (Outcome [] (inr (AttributeError name)) c0)).
Proof.
  intros Hcall Hrun.
  assert (forall c0 : cache,
            subscribable_field_fget name c0 =
              Some (Outcome [] (match cache_fields c0 !! name with
                                | Some v => inl v
                                | None => inr (AttributeError name)
                                end) c0)) as Hget.
  { intros c0. unfold subscribable_field_fget. rewrite bind_run. unfold read.
    by destruct (cache_fields c0 !! name). }
  set (P := fun self : cache => cache_fields self !! name = Some v).
  revert Hrun. unfold subscribable_field_fset. rewrite seq_run. unfold write.
  set (c1 := set_fields _ c).
  assert (P c1) as Hc1 by (unfold P, c1; simpl; by rewrite lookup_insert_eq).
  intros (out' & Hrest & -> & _ & ->)%prepend_Some. simpl.
  assert (maintains P (if negb (flag_set =? 0)%Z
                       then notify __event_fields__ call fuel name flag_set
                       else mret tt)) as Hrest'.
  { destruct (negb _); [| apply maintains_ret]. apply maintains_public_notify; [| done].
    split; try done. intros cb c2 f e r c2' Hc2. unfold P. by rewrite (Hcall _ _ _ _ _ _ Hc2). }
  destruct (Hrest' c1 out' Hrest Hc1) as [Hfinal Htrace].
  split; [done |]. split.
  - rewrite Hget. unfold P in Hfinal. by rewrite Hfinal.
  - intros c0 Hc0. by rewrite Hget, Hc0.
Qed.

(** *** Several events at once *)

(** X19: [notify] with several flags set goes through the events in
    the order of their flags ([ON_SET], [ON_DEL], [ON_CALL],
    [ON_PRE_CALL]) and calls the queue of each selected event from its
    first callback to its last; every callback is passed the whole
    flag mask it was called for, not the flag of its own queue.  The
    field is taken to support the selected events, and the callbacks
    to return and to leave the registry as it is. *)
Theorem notify_runs_the_queues_in_flag_order
    (c : cache) r (field : string) (event_flags : Z) :
  cache_events c = Some r -> cache_is_muted c <> Some true ->
  (forall flag, flag ∈ EventFlag -> has_flag event_flags flag = true ->
     exists queue, r !! (field, flag) = Some queue /\ length queue < fuel) ->
  (forall cb c0, cb ∈ matched_queues r field event_flags EventFlag ->
     cache_events c0 = Some r ->
     exists c', call cb c0 field event_flags = Some (inl tt, c') /\
                cache_events c' = Some r) ->
  exists t c',
    notify __event_fields__ call fuel field event_flags c = Some (Outcome t (inl tt) c') /\
    calls t =
      (fun cb => (cb, field, event_flags)) <$>
        (flag ← filter (fun flag => has_flag event_flags flag = true)
                  [ON_SET; ON_DEL; ON_CALL; ON_PRE_CALL];
         default [] (r !! (field, flag))).
Proof.
  intros Hr Hmuted Hsup Hcall. rewrite notify_run.
  assert (default false (cache_is_muted c) = false) as ->.
  { by destruct (cache_is_muted c) as [[]|]. }
  rewrite notify_built by (simpl; by rewrite Hr).
  destruct (notify_flags_calls call fuel (fun c => cache_events c = Some r)
              r field event_flags EventFlag) with (c := set_is_muted (Some false) c)
    as (t & c' & Hrun & _ & Hcalls & _).
  - intros c0 flag Hc0 _ _. by rewrite (registry_of_Some c0 r Hc0).
  - done.
  - done.
  - done.
  - by exists t, c'.
Qed.

(** *** Installing a field *)

(** X22: what [__set_name__] does with a subscribable field.  A
    field without accessors and without events is deleted from the
    class; a field with an accessor and an event whose accessor is
    missing cannot be installed: [ValueError] about the setter when
    [on_set] is set and no setter is given, otherwise about the deleter
    when [on_del] is set and no deleter is given.  A field that is
    registered is registered with the flags of its events, of which it
    has one at least. *)
Theorem set_name_needs_the_accessors_of_the_events
    (self : _SubscribableField (value := value)) (name : string) :
  let given := is_Some (_fget self) \/ is_Some (_fset self) \/ is_Some (_fdel self) in
  let setter_missing := _on_set self = true /\ _fset self = None in
  let deleter_missing := _on_del self = true /\ _fdel self = None in
  (forall e,
     __set_name__ __event_fields__ call fuel self name = Raised e <->
     given /\ (setter_missing /\ e = MissingAccessor name ON_SET \/
               ~ setter_missing /\ deleter_missing /\ e = MissingAccessor name ON_DEL)) /\
  (__set_name__ __event_fields__ call fuel self name = Deleted <->
   ~ given /\ _on_set self = false /\ _on_del self = false) /\
  (forall prop flags,
     __set_name__ __event_fields__ call fuel self name = Registered prop flags ->
     flags = Z.lor (if _on_set self then ON_SET else 0) (if _on_del self then ON_DEL else 0) /\
     (_on_set self = true \/ _on_del self = true)).
Proof.
  destruct self as [fget fset fdel on_set on_del]. simpl.
  split; [| split].
  - intros e. unfold __set_name__. simpl.
    destruct fget, fset, fdel, on_set, on_del; simpl; split;
      try (intros [= <-]); try done;
      try (split; [eauto 6 using mk_is_Some |]); try tauto;
      try (right; split; [intros [? ?]; done |]; done);
      try (left; done);
      intros (Hgiven & [((? & ?) & ->) | (? & (? & ?) & ->)]); try done;
      try (destruct Hgiven as [[? ?]|[[? ?]|[? ?]]]; done);
      exfalso; tauto.
  - unfold __set_name__. simpl.
    destruct fget, fset, fdel, on_set, on_del; simpl; split; try done;
      try (intros _; split; [| done]; intros [[? ?]|[[? ?]|[? ?]]]; done);
      intros (Hgiven & ? & ?); try done; exfalso; apply Hgiven; eauto using mk_is_Some.
  - intros prop flags. unfold __set_name__. simpl.
    destruct fget, fset, fdel, on_set, on_del; simpl; intros [= <- <-] || intros [=];
      (split; [done | tauto]).
Qed.

End Proofs.
End SubscriptionMore.

Module SubscriptionMethodsSpec.
Import Subscription SubscriptionSpec SubscriptionMore SubscriptionMethods.

Section Proofs.
Context {value : Type}.
Context (__event_fields__ : list (string * Z)).
Context (call : callback -> cache (value:=value) -> string -> Z ->
                option ((unit + exn) * cache (value:=value))).
Context (fuel : nat).

Local Abbreviation M := (M (value:=value)).
Local Abbreviation cache := (cache (value:=value)).
Local Abbreviation function := (function (value:=value)).
Local Abbreviation notify := (notify __event_fields__ call fuel).



End Proofs.
End SubscriptionMethodsSpec.

(** *** Worked cases *)
Module SubscriptionCases.
Import Subscription SubscriptionSpec SubscriptionMore SubscriptionMethodsSpec.
Import Samples.

Lemma two_subscribers_nodup : queues_nodup two_subscribers.
Proof.
  intros key queue. change (registry_of two_subscribers) with
    ({[ ("x", ON_SET) := [1; 2] ]} : gmap (string * Z) (list callback)).
  intros [_ <-]%lookup_singleton_Some. by apply (bool_decide_unpack _).
Defined.

Lemma two_subscribers_supports key :
  key ∈ _iter_queue_keys "x" ON_SET ->
  is_Some (({[ ("x", ON_SET) := [1; 2] ]} : gmap (string * Z) (list callback)) !! key).
Proof. intros ->%list_elem_of_singleton. by eexists. Defined.

Lemma unsubscribe_removes_the_callback_witness :
  exists t c',
    unsubscribe fields "x" ON_SET 1 two_subscribers = Some (Outcome t (inl tt) c') /\
    registry_of c' !! ("x", ON_SET) = Some [2].
Proof.
  destruct (unsubscribe_removes_the_callback fields two_subscribers
              {[ ("x", ON_SET) := [1; 2] ]} "x" ON_SET 1)
    as (t & c' & Hrun & _ & Hreg & _).
  - discriminate.
  - reflexivity.
  - apply two_subscribers_nodup.
  - apply two_subscribers_supports.
  - exists t, c'. split; [exact Hrun |]. rewrite Hreg. reflexivity.
Defined.

Lemma unsubscribe_undoes_subscribe_witness :
  exists t1 c1 t2 c2,
    subscribe fields "x" ON_SET 3 two_subscribers = Some (Outcome t1 (inl 3) c1) /\
    registry_of c1 !! ("x", ON_SET) = Some [1; 2; 3] /\
    unsubscribe fields "x" ON_SET 3 c1 = Some (Outcome t2 (inl tt) c2) /\
    cache_events c2 = cache_events two_subscribers.
Proof.
  destruct (unsubscribe_undoes_subscribe fields two_subscribers
              {[ ("x", ON_SET) := [1; 2] ]} "x" ON_SET 3)
    as (t1 & c1 & t2 & c2 & Hsub & Hreg & Hunsub & Hback).
  - discriminate.
  - reflexivity.
  - intros key ->%list_elem_of_singleton. exists [1; 2]. split; [reflexivity |].
    by apply (bool_decide_unpack _).
  - exists t1, c1, t2, c2. split; [exact Hsub |]. split; [| by split].
    apply (Hreg ("x", ON_SET) [1; 2]); [by left | reflexivity].
Defined.

Lemma subscribe_stops_at_an_unsupported_flag_witness :
  exists t c',
    subscribe fields "x" (Z.lor ON_SET ON_DEL) 3 two_subscribers =
      Some (Outcome t (inr (ValueError "x" ON_DEL)) c') /\
    registry_of c' !! ("x", ON_SET) = Some [1; 2; 3].
Proof.
  destruct (subscribe_stops_at_an_unsupported_flag fields two_subscribers
              {[ ("x", ON_SET) := [1; 2] ]} "x" (Z.lor ON_SET ON_DEL) 3
              [("x", ON_SET)] [] ON_DEL)
    as (t & c' & Hrun & Hreg).
  - discriminate.
  - reflexivity.
  - reflexivity.
  - intros key ->%list_elem_of_singleton. by eexists.
  - reflexivity.
  - exists t, c'. split; [exact Hrun |]. rewrite Hreg. reflexivity.
Defined.

Lemma notify_of_an_unsupported_event_raises_witness :
  notify fields returning 3 "x" ON_DEL two_subscribers =
    Some (Outcome [] (inr (ValueError "x" ON_DEL)) (set_is_muted (Some false) two_subscribers)) /\
  notify fields returning 3 "x" ON_DEL muted_subscribers =
    Some (Outcome [] (inl tt) muted_subscribers).
Proof.
  destruct (notify_of_an_unsupported_event_raises fields returning 3 two_subscribers
              {[ ("x", ON_SET) := [1; 2] ]} "x" ON_DEL) as [Hraise _];
    [by right; left | reflexivity | reflexivity |].
  destruct (notify_of_an_unsupported_event_raises fields returning 3 muted_subscribers
              {[ ("x", ON_SET) := [1; 2] ]} "x" ON_DEL) as [_ Hmuted];
    [by right; left | reflexivity | reflexivity |].
  split; [apply Hraise; discriminate | apply Hmuted; reflexivity].
Defined.


Lemma suppressed_reads_the_mute_flag_witness :
  suppressed (notify fields returning 3 "x" ON_SET) (empty_cache (value := nat)) =
    Some (Outcome [] (inr (KeyError "_is_muted")) empty_cache) /\
  (is_muted;; suppressed (raise (A := unit) (Exception 1))) two_subscribers =
    Some (Outcome [] (inr (Exception 1)) (set_is_muted (Some false) two_subscribers)).
Proof.
  destruct (suppressed_reads_the_mute_flag (notify fields returning 3 "x" ON_SET)
              (empty_cache (value := nat))) as (Hnone & _).
  destruct (suppressed_reads_the_mute_flag (raise (A := unit) (Exception 1))
              two_subscribers) as (_ & _ & Hread).
  split; [exact (Hnone eq_refl) | exact Hread].
Defined.

Lemma field_holds_the_assigned_value_witness :
  exists out,
    subscribable_field_fset fields raising 3 "x" ON_SET 7 two_subscribers = Some out /\
    result out = inr (Exception 1) /\
    subscribable_field_fget "x" (final out) = Some (Outcome [] (inl 7) (final out)).
Proof.
  destruct (subscribable_field_fset fields raising 3 "x" ON_SET 7 two_subscribers)
    as [out|] eqn:Hrun; [| vm_compute in Hrun; discriminate].
  destruct (field_holds_the_assigned_value fields raising 3 "x" ON_SET 7
              two_subscribers out) as (_ & Hget & _).
  - intros cb c0 f e r c'. unfold raising. destruct (decide (cb = 1)); by intros [= _ <-].
  - exact Hrun.
  - exists out. split; [reflexivity |]. split; [| exact Hget].
    vm_compute in Hrun. injection Hrun as <-. reflexivity.
Defined.

Lemma notify_runs_the_queues_in_flag_order_witness :
  exists t c',
    notify MoreSamples.fields returning 3 "x" (Z.lor ON_SET ON_DEL) MoreSamples.subscribers
      = Some (Outcome t (inl tt) c') /\
    calls t = [(1, "x", 12%Z); (2, "x", 12%Z); (3, "x", 12%Z)].
Proof.
  destruct (notify_runs_the_queues_in_flag_order MoreSamples.fields returning 3
              MoreSamples.subscribers MoreSamples.registry "x" (Z.lor ON_SET ON_DEL) eq_refl)
    as (t & c' & Hrun & Hcalls).
  - discriminate.
  - unfold EventFlag. intros flag. rewrite !elem_of_cons, elem_of_nil.
    intros [->|[->|[->|[->|[]]]]]; try discriminate; intros _; eexists;
      (split; [reflexivity | simpl; lia]).
  - intros cb c0 _ Hc0. by exists c0.
  - exists t, c'. split; [exact Hrun |]. rewrite Hcalls. reflexivity.
Defined.

Lemma set_name_needs_the_accessors_of_the_events_witness :
  __set_name__ fields returning 3 MoreSamples.read_only "x"
    = Raised (MissingAccessor "x" ON_SET) /\
  __set_name__ fields returning 3 field_x "x" <> Deleted.
Proof.
  destruct (set_name_needs_the_accessors_of_the_events fields returning 3
              MoreSamples.read_only "x") as (Hraise & _).
  destruct (set_name_needs_the_accessors_of_the_events fields returning 3
              field_x "x") as (_ & Hdeleted & _).
  split.
  - apply Hraise. split; [left; by eexists |]. left. by repeat split.
  - intros (_ & Hoff & _)%Hdeleted. discriminate Hoff.
Defined.



End SubscriptionCases.

Module SharedMore.

Section CreateModule.
Import Modules.
Context {A : Type}.
Local Abbreviation value := (value A).
Local Abbreviation mappable := (mappable A).

Lemma getitem_stored (m items : list (string * value)) k :
  Dict.getitem (foldl (fun m kv => Dict.setitem m kv.1 kv.2) m items) k =
    match Dict.getitem (reverse items) k with
    | Some v => Some v
    | None => Dict.getitem m k
    end.
Proof.
  revert m. induction items as [|[k0 v0] items IH] using rev_ind; intros m; [done |].
  rewrite foldl_app, reverse_app. simpl. rewrite SharedSpec.getitem_setitem, IH.
  by destruct (decide (k0 = k)).
Qed.

Lemma set_attrs_pairs (m : list (string * value)) (pairs : list (string * value)) :
  Forall (fun kv => kv.1 <> "__dict__" /\ kv.1 <> "__class__") pairs ->
  set_attrs m (inl <$> pairs) = inl (foldl (fun m kv => Dict.setitem m kv.1 kv.2) m pairs).
Proof.
  revert m. induction pairs as [|[k v] pairs IH]; intros m Hpairs; [done |].
  apply Forall_cons in Hpairs as [[Hdict Hclass] Hpairs]. simpl in *.
  unfold setattr. by rewrite !decide_False, IH by done.
Qed.

Lemma unpack_name key k v : unpack (A := A) key = inl (k, v) -> String.length k = 1.
Proof. destruct key as [|c1 [|c2 [|c3 key]]]; try done. by intros [= <- <-]. Qed.

Lemma set_attrs_bad_key (m : list (string * value)) (keys : list string) key :
  key ∈ keys -> String.length key <> 2 ->
  set_attrs m (unpack <$> keys) = inr ValueError.
Proof.
  revert m. induction keys as [|k keys IH]; intros m Hkey Hlen;
    [by apply elem_of_nil in Hkey |].
  rewrite fmap_cons. cbn [set_attrs].
  destruct (unpack k) as [[k0 v0]|e] eqn:Hk.
  - apply unpack_name in Hk as Hlen0. unfold setattr.
    destruct (decide (k0 = "__dict__")) as [->|_]; [simpl in Hlen0; discriminate |].
    destruct (decide (k0 = "__class__")) as [->|_]; [simpl in Hlen0; discriminate |].
    apply IH; [| done]. apply elem_of_cons in Hkey as [->|?]; [| done].
    by destruct k as [|c1 [|c2 [|c3 s]]].
  - destruct k as [|c1 [|c2 [|c3 s]]]; simpl in Hk; by simplify_eq.
Qed.


End CreateModule.

Section AmmendClosure.
Import Closures.
Context {A : Type}.
Local Abbreviation object := (object A).
Local Abbreviation cells := (gmap loc object).

Lemma rebound_rebound (cls : class) (contents : object) :
  rebound cls (rebound cls contents) = rebound cls contents.
Proof.
  destruct contents as [c|a]; simpl; [| done].
  destruct (decide (__name__ c = __name__ cls)); simpl; [by rewrite decide_True |].
  by rewrite decide_False.
Qed.

Lemma ammend_cell_lookup (cls : class) (h : cells) (cell l : loc) :
  ammend_cell cls h cell !! l =
    if decide (l = cell) then rebound cls <$> h !! l else h !! l.
Proof.
  unfold ammend_cell. destruct (decide (l = cell)) as [->|Hne].
  - destruct (h !! cell) as [[c|a]|] eqn:Hcell; simpl; rewrite ?Hcell; try done.
    destruct (decide (__name__ c = __name__ cls)); [by rewrite lookup_insert_eq | done].
  - destruct (h !! cell) as [[c|a]|]; try done.
    destruct (decide (__name__ c = __name__ cls)); [by rewrite lookup_insert_ne | done].
Qed.

Lemma ammend_cells_lookup (cls : class) (closure : list loc) (h : cells) (l : loc) :
  foldl (ammend_cell cls) h closure !! l =
    if bool_decide (l ∈ closure) then rebound cls <$> h !! l else h !! l.
Proof.
  revert h. induction closure as [|cell closure IH]; intros h; [done |].
  simpl. rewrite IH, ammend_cell_lookup.
  destruct (decide (l = cell)) as [->|Hne].
  - rewrite (bool_decide_eq_true_2 (cell ∈ cell :: closure)) by (by left).
    destruct (bool_decide (cell ∈ closure)); [| done].
    rewrite <- option_fmap_compose. apply option_fmap_ext. intros o. apply rebound_rebound.
  - destruct (decide (l ∈ closure)) as [Hin|Hin].
    + by rewrite !bool_decide_eq_true_2 by (done || by right).
    + rewrite !bool_decide_eq_false_2; [done | | done].
      by intros [?|?]%elem_of_cons.
Qed.

(** X23: [ammend_closure] returns a bound method as it is and
    touches none of its cells.  For any other function it returns
    [None], after rebinding to [cls] every cell of the closure that
    holds a class with the name of [cls]; cells that are empty, that
    hold a class of another name or any other object, and cells of
    other closures, are left as they are.  A second call changes
    nothing more. *)
Theorem ammend_closure_rebinds_the_cells_that_name_the_class
    (cls : class) (func : callable) (h : cells) :
  (forall fn, func = Bound fn -> ammend_closure cls func h = (Some func, h)) /\
  ((forall fn, func <> Bound fn) ->
   exists h',
     ammend_closure cls func h = (None, h') /\
     (forall cell,
        h' !! cell =
          if bool_decide (cell ∈ closure_of func)
          then rebound cls <$> h !! cell else h !! cell) /\
     ammend_closure cls func h' = (None, h')).
Proof.
  split; [by intros fn -> |]. intros Hfunc.
  assert (forall h0 : cells,
            ammend_closure cls func h0 =
              (None, foldl (ammend_cell cls) h0 (closure_of func))) as Hrun.
  { intros h0. destruct func; try done. by destruct (Hfunc fn). }
  eexists. split; [apply Hrun |]. split; [apply ammend_cells_lookup |].
  rewrite Hrun. f_equal. apply map_eq. intros l. rewrite !ammend_cells_lookup.
  destruct (bool_decide (l ∈ closure_of func)); [| done].
  rewrite <- option_fmap_compose. apply option_fmap_ext. intros o. apply rebound_rebound.
Qed.

End AmmendClosure.

(** *** Worked cases *)


Lemma ammend_closure_rebinds_the_cells_that_name_the_class_witness :
  let old := Closures.Class 1 "Point" in
  let new := Closures.Class 2 "Point" in
  let cells : gmap Closures.loc (Closures.object nat) :=
    {[ 0 := Closures.Type_ old; 1 := Closures.Type_ (Closures.Class 3 "Line");
       3 := Closures.Type_ old ]} in
  exists h',
    Closures.ammend_closure new
      (Closures.Plain (Closures.Function (Some [0; 1; 2]))) cells = (None, h') /\
    h' !! 0 = Some (Closures.Type_ new) /\
    h' !! 1 = Some (Closures.Type_ (Closures.Class 3 "Line")) /\
    h' !! 2 = None /\
    h' !! 3 = Some (Closures.Type_ old).
Proof.
  intros old new cells.
  destruct (ammend_closure_rebinds_the_cells_that_name_the_class new
              (Closures.Plain (Closures.Function (Some [0; 1; 2]))) cells)
    as (_ & Hplain).
  destruct Hplain as (h' & Hrun & Hcells & _); [discriminate |].
  exists h'. split; [exact Hrun |]. rewrite !Hcells. repeat split; reflexivity.
Defined.

End SharedMore.
